(** * Types/_display/Collection

    A shallow embedding of the collection projection
    ([src/Types/_display/Collection.ts]) and the properties its
    specification states about it.

    The projection is one JavaScript object whose methods mutate its fields,
    raise errors and notify listeners.  The embedding keeps that shape: the
    object is the record [Collection], a method is a computation in the
    state-and-error monad [M], arrays that are shared by reference live in a
    heap, and every call into the event mixin is appended to a trace.

    Classes of the repository that are not part of this source tree (the
    strategy composer, the enumerator, the update sessions of the event
    raising mixin) are interfaces here: type classes whose operations the
    methods call, as the TypeScript code calls the methods of
    [IItemsStrategy] and [CollectionEnumerator]. *)

From Stdlib Require Import ZArith List Lia.
From stdpp Require Import gmap strings list fin_maps pretty sorting.

Local Open Scope Z_scope.

(** ** JavaScript values *)

(** A reference to an array of the heap. *)
Definition loc := nat.

(** Primitive values. Numbers are the integers the projection works with
    (indices, counters, identifiers). *)
Inductive Prim :=
  | PUndefined
  | PNull
  | PBool (b : bool)
  | PNum (n : Z)
  | PStr (s : string).

(** [String(value)] on a primitive.  An integer is written in decimal
    digits, which is what [String] gives for the integers below 10^21. *)
Definition String_ (p : Prim) : string :=
  match p with
  | PUndefined => "undefined"
  | PNull => "null"
  | PBool true => "true"
  | PBool false => "false"
  | PNum n => pretty n
  | PStr s => s
  end.

(** The result of an index lookup in the enumerator: a number, or
    [undefined] / [null] when the lookup has no answer. *)
Inductive JsIndex :=
  | IdxUndefined
  | IdxNull
  | IdxNum (n : Z).

(** [ToNumber] as the relational operators apply it: [undefined] is NaN
    ([None]), [null] is 0. *)
Definition idxToNumber (i : JsIndex) : option Z :=
  match i with
  | IdxUndefined => None
  | IdxNull => Some 0
  | IdxNum n => Some n
  end.

(** [a > b] and [a < b]: false as soon as one side is NaN. *)
Definition js_gt (a b : JsIndex) : bool :=
  match idxToNumber a, idxToNumber b with
  | Some x, Some y => y <? x
  | _, _ => false
  end.

Definition js_lt (a b : JsIndex) : bool := js_gt b a.

(** A function object: its identity, its declared arity ([fn.length]) and,
    for a functor ([functor.Compute]), the properties it depends on. *)
Record Handler := mkHandler {
  fnId : nat;
  fnLength : nat;
  fnProperties : option (list string)
}.

(** The contents of a projection item: a model (it has [getId()]), a plain
    object read through [object.getPropertyValue], or a primitive such as
    the identifier of a group. *)
Inductive Contents :=
  | Model (id : Prim)
  | Plain (props : list (string * Prim))
  | Scalar (p : Prim).

(** A projection item.  Items are objects compared by reference; the
    instance identifier stands for the reference.  [isGroupItem] is
    [item instanceof GroupItem]. *)
Record CollectionItem := mkItem {
  instanceId : nat;
  isGroupItem : bool;
  contents : Contents
}.

Inductive Val :=
  | VPrim (p : Prim)
  | VFun (f : Handler)
  | VArr (l : loc)
  | VItem (i : CollectionItem)
  | VObj (ref : nat).

Definition undefined : Val := VPrim PUndefined.

#[export] Instance Prim_eq_dec : EqDecision Prim.
Proof. solve_decision. Defined.
#[export] Instance JsIndex_eq_dec : EqDecision JsIndex.
Proof. solve_decision. Defined.
#[export] Instance Handler_eq_dec : EqDecision Handler.
Proof. solve_decision. Defined.
#[export] Instance Contents_eq_dec : EqDecision Contents.
Proof. solve_decision. Defined.
#[export] Instance CollectionItem_eq_dec : EqDecision CollectionItem.
Proof. solve_decision. Defined.
#[export] Instance Val_eq_dec : EqDecision Val.
Proof. solve_decision. Defined.

(** [a === b] and [a !== b]. *)
Definition strictEq {A} `{EqDecision A} (a b : A) : bool := bool_decide (a = b).
Definition strictNe {A} `{EqDecision A} (a b : A) : bool := negb (strictEq a b).

(** [typeof v === 'function'] *)
Definition isFunction (v : Val) : bool :=
  match v with VFun _ => true | _ => false end.

(** [v instanceof CollectionItem] *)
Definition isCollectionItem (v : Val) : bool :=
  match v with VItem _ => true | _ => false end.

(** ** Events *)

(** The actions of [IBind]. *)
Inductive Action :=
  | ACTION_ADD
  | ACTION_REMOVE
  | ACTION_CHANGE
  | ACTION_REPLACE
  | ACTION_MOVE
  | ACTION_RESET.

#[export] Instance Action_eq_dec : EqDecision Action.
Proof. solve_decision. Defined.

(** The events the projection publishes, with their arguments. *)
Inductive Event :=
  | onBeforeCollectionChange
  | onCollectionChange (action : Action)
      (newItems : list CollectionItem) (newItemsIndex : Z)
      (oldItems : list CollectionItem) (oldItemsIndex : Z)
  | onAfterCollectionChange
  | onCurrentChange (newCurrent oldCurrent : Val) (newPosition oldPosition : Z).

(** A call into the observable mixin.  The trace of these calls is what the
    projection emits. *)
Inductive Notification :=
  | Notify (e : Event)
  | NotifyLater (e : Event)
  | RemoveFromQueue (eventName : string).

#[export] Instance Event_eq_dec : EqDecision Event.
Proof. solve_decision. Defined.
#[export] Instance Notification_eq_dec : EqDecision Notification.
Proof. solve_decision. Defined.

Definition eventOf (n : Notification) : option Event :=
  match n with
  | Notify e | NotifyLater e => Some e
  | RemoveFromQueue _ => None
  end.

(** ** Errors *)

Definition MESSAGE_READ_ONLY : string :=
  "The Display is read only. You should modify the source collection instead.".

Inductive Error :=
  | Error_ (message : string)
  | TypeError (message : string).

#[export] Instance Error_eq_dec : EqDecision Error.
Proof. solve_decision. Defined.

(** ** The collaborators of the projection *)

(** The source collection: the values it enumerates, and whether it
    implements [IList] (and so answers [getIndex] itself). *)
Record SourceCollection := mkSource {
  source_items : list Val;
  source_isList : bool
}.

(** What an enumerator is built over ([_buildEnumerator]): the items of the
    strategy, the filter map and the sort map, all three by reference, so
    that it always reads their current contents. *)
Record View := mkView {
  view_items : list CollectionItem;
  view_filterMap : list (option bool);
  view_sortMap : list Z
}.

(** [ItemsStrategyComposer] together with the strategies it holds
    ([IItemsStrategy]).  The [result_] operations are those of
    [getResult()], the outermost strategy; [group_invalidate] is
    [getInstance(GroupItemsStrategy).invalidate()]. *)
Class ItemsStrategyComposer (Composer : Type) := {
  result_items : Composer -> list CollectionItem;
  result_count : Composer -> Z;
  result_getDisplayIndex : Composer -> Z -> Z;
  result_getCollectionIndex : Composer -> Z -> Z;
  result_invalidate : Composer -> Composer;
  result_reset : Composer -> Composer;
  group_invalidate : Composer -> Composer
}.

(** [CollectionEnumerator]. *)
Class CollectionEnumerator (Enumerator : Type) := {
  enumerator_new : Enumerator;
  enumerator_getCurrent : View -> Enumerator -> Val;
  enumerator_getPosition : Enumerator -> Z;
  enumerator_setCurrent : View -> Val -> Enumerator -> Enumerator;
  enumerator_setPosition : View -> Z -> Enumerator -> Enumerator;
  enumerator_reIndex : Enumerator -> Enumerator;
  enumerator_at : View -> Enumerator -> Z -> Val;
  enumerator_getCount : View -> Enumerator -> Z;
  enumerator_getIndexByInstanceId : View -> Enumerator -> nat -> Z;
  enumerator_getSourceByInternal : View -> Enumerator -> Z -> JsIndex;
  enumerator_getInternalBySource : View -> Enumerator -> Z -> JsIndex
}.

(** ** The projection object *)

(** A deferred [_notifySourceCollectionItemChange] call: the changed item,
    its index and the names of the changed properties. *)
Definition DelayedCallback : Type := Val * Z * list string.

(** The outcome of a method: it returns a value or throws; either way the
    object is left in some state.  [Diverge] is not a JavaScript outcome:
    a loop of the embedding carries a bound, and [Diverge] says that the
    bound was reached, that is, that the loop was still running. *)
Inductive Outcome (A : Type) :=
  | Return (a : A)
  | Throw (e : Error)
  | Diverge.

Arguments Return {A} a.
Arguments Throw {A} e.
Arguments Diverge {A}.

Section Display.

Context {Composer Enumerator Session : Type}.

Record Collection := mkCollection {
  (* the arrays of the heap: [_$filter], [_$sort] and the copies handed
     to callers *)
  heap : gmap loc (list Val);
  (* [_$collection] *)
  _collection : SourceCollection;
  (* [_$filter], a reference to the array of filter handlers *)
  _filter : loc;
  (* [_$sort], a reference to the array of sort handlers *)
  _sort : loc;
  (* [_$group] *)
  _group : Val;
  (* [_$idProperty] *)
  _idProperty : string;
  (* [_$unique] *)
  _unique : bool;
  (* [_$importantItemProperties] *)
  _importantItemProperties : list string;
  (* item (by instance id) -> unique identifier *)
  _itemToUid : gmap nat string;
  (* the unique identifiers in use *)
  _itemsUid : gset string;
  (* the strategy composer, [None] for [null] *)
  _composer : option Composer;
  (* item index -> passed the filter ([None] is [undefined]) *)
  _filterMap : list (option bool);
  (* position after sorting -> item index *)
  _sortMap : list Z;
  (* the enumerator behind the cursor *)
  _cursorEnumerator : option Enumerator;
  (* the enumerator behind indexed access *)
  _utilityEnumerator : option Enumerator;
  _sourceCollectionSynchronized : bool;
  _sourceCollectionDelayedCallbacks : option (list DelayedCallback);
  (* the items (by instance id) whose [isSelected()] is true *)
  selection : gset nat;
  (* [isEventRaising()] *)
  _eventRaising : bool;
  (* [_isNeedNotifyCollectionChange()] *)
  needNotifyCollectionChange : bool;
  (* the calls into the observable mixin, oldest first *)
  trace : list Notification
}.

Definition set_heap (v : gmap loc (list Val)) (c : Collection) : Collection :=
  mkCollection v (_collection c) (_filter c) (_sort c) (_group c)
    (_idProperty c) (_unique c) (_importantItemProperties c) (_itemToUid c)
    (_itemsUid c) (_composer c) (_filterMap c) (_sortMap c)
    (_cursorEnumerator c) (_utilityEnumerator c)
    (_sourceCollectionSynchronized c) (_sourceCollectionDelayedCallbacks c)
    (selection c) (_eventRaising c) (needNotifyCollectionChange c) (trace c).

Definition set_filter (v : loc) (c : Collection) : Collection :=
  mkCollection (heap c) (_collection c) v (_sort c) (_group c) (_idProperty c)
    (_unique c) (_importantItemProperties c) (_itemToUid c) (_itemsUid c)
    (_composer c) (_filterMap c) (_sortMap c) (_cursorEnumerator c)
    (_utilityEnumerator c) (_sourceCollectionSynchronized c)
    (_sourceCollectionDelayedCallbacks c) (selection c) (_eventRaising c)
    (needNotifyCollectionChange c) (trace c).

Definition set_importantItemProperties (v : list string) (c : Collection)
  : Collection :=
  mkCollection (heap c) (_collection c) (_filter c) (_sort c) (_group c)
    (_idProperty c) (_unique c) v (_itemToUid c) (_itemsUid c) (_composer c)
    (_filterMap c) (_sortMap c) (_cursorEnumerator c) (_utilityEnumerator c)
    (_sourceCollectionSynchronized c) (_sourceCollectionDelayedCallbacks c)
    (selection c) (_eventRaising c) (needNotifyCollectionChange c) (trace c).

Definition set_itemToUid (v : gmap nat string) (c : Collection)
  : Collection :=
  mkCollection (heap c) (_collection c) (_filter c) (_sort c) (_group c)
    (_idProperty c) (_unique c) (_importantItemProperties c) v (_itemsUid c)
    (_composer c) (_filterMap c) (_sortMap c) (_cursorEnumerator c)
    (_utilityEnumerator c) (_sourceCollectionSynchronized c)
    (_sourceCollectionDelayedCallbacks c) (selection c) (_eventRaising c)
    (needNotifyCollectionChange c) (trace c).

Definition set_itemsUid (v : gset string) (c : Collection) : Collection :=
  mkCollection (heap c) (_collection c) (_filter c) (_sort c) (_group c)
    (_idProperty c) (_unique c) (_importantItemProperties c) (_itemToUid c) v
    (_composer c) (_filterMap c) (_sortMap c) (_cursorEnumerator c)
    (_utilityEnumerator c) (_sourceCollectionSynchronized c)
    (_sourceCollectionDelayedCallbacks c) (selection c) (_eventRaising c)
    (needNotifyCollectionChange c) (trace c).

Definition set_composer (v : option Composer) (c : Collection) : Collection :=
  mkCollection (heap c) (_collection c) (_filter c) (_sort c) (_group c)
    (_idProperty c) (_unique c) (_importantItemProperties c) (_itemToUid c)
    (_itemsUid c) v (_filterMap c) (_sortMap c) (_cursorEnumerator c)
    (_utilityEnumerator c) (_sourceCollectionSynchronized c)
    (_sourceCollectionDelayedCallbacks c) (selection c) (_eventRaising c)
    (needNotifyCollectionChange c) (trace c).

Definition set_filterMap (v : list (option bool)) (c : Collection)
  : Collection :=
  mkCollection (heap c) (_collection c) (_filter c) (_sort c) (_group c)
    (_idProperty c) (_unique c) (_importantItemProperties c) (_itemToUid c)
    (_itemsUid c) (_composer c) v (_sortMap c) (_cursorEnumerator c)
    (_utilityEnumerator c) (_sourceCollectionSynchronized c)
    (_sourceCollectionDelayedCallbacks c) (selection c) (_eventRaising c)
    (needNotifyCollectionChange c) (trace c).

Definition set_sortMap (v : list Z) (c : Collection) : Collection :=
  mkCollection (heap c) (_collection c) (_filter c) (_sort c) (_group c)
    (_idProperty c) (_unique c) (_importantItemProperties c) (_itemToUid c)
    (_itemsUid c) (_composer c) (_filterMap c) v (_cursorEnumerator c)
    (_utilityEnumerator c) (_sourceCollectionSynchronized c)
    (_sourceCollectionDelayedCallbacks c) (selection c) (_eventRaising c)
    (needNotifyCollectionChange c) (trace c).

Definition set_cursorEnumerator (v : option Enumerator) (c : Collection)
  : Collection :=
  mkCollection (heap c) (_collection c) (_filter c) (_sort c) (_group c)
    (_idProperty c) (_unique c) (_importantItemProperties c) (_itemToUid c)
    (_itemsUid c) (_composer c) (_filterMap c) (_sortMap c) v
    (_utilityEnumerator c) (_sourceCollectionSynchronized c)
    (_sourceCollectionDelayedCallbacks c) (selection c) (_eventRaising c)
    (needNotifyCollectionChange c) (trace c).

Definition set_utilityEnumerator (v : option Enumerator) (c : Collection)
  : Collection :=
  mkCollection (heap c) (_collection c) (_filter c) (_sort c) (_group c)
    (_idProperty c) (_unique c) (_importantItemProperties c) (_itemToUid c)
    (_itemsUid c) (_composer c) (_filterMap c) (_sortMap c)
    (_cursorEnumerator c) v (_sourceCollectionSynchronized c)
    (_sourceCollectionDelayedCallbacks c) (selection c) (_eventRaising c)
    (needNotifyCollectionChange c) (trace c).

Definition set_sourceCollectionDelayedCallbacks
    (v : option (list DelayedCallback)) (c : Collection) : Collection :=
  mkCollection (heap c) (_collection c) (_filter c) (_sort c) (_group c)
    (_idProperty c) (_unique c) (_importantItemProperties c) (_itemToUid c)
    (_itemsUid c) (_composer c) (_filterMap c) (_sortMap c)
    (_cursorEnumerator c) (_utilityEnumerator c)
    (_sourceCollectionSynchronized c) v (selection c) (_eventRaising c)
    (needNotifyCollectionChange c) (trace c).

Definition set_selection (v : gset nat) (c : Collection) : Collection :=
  mkCollection (heap c) (_collection c) (_filter c) (_sort c) (_group c)
    (_idProperty c) (_unique c) (_importantItemProperties c) (_itemToUid c)
    (_itemsUid c) (_composer c) (_filterMap c) (_sortMap c)
    (_cursorEnumerator c) (_utilityEnumerator c)
    (_sourceCollectionSynchronized c) (_sourceCollectionDelayedCallbacks c) v
    (_eventRaising c) (needNotifyCollectionChange c) (trace c).

Definition set_trace (v : list Notification) (c : Collection) : Collection :=
  mkCollection (heap c) (_collection c) (_filter c) (_sort c) (_group c)
    (_idProperty c) (_unique c) (_importantItemProperties c) (_itemToUid c)
    (_itemsUid c) (_composer c) (_filterMap c) (_sortMap c)
    (_cursorEnumerator c) (_utilityEnumerator c)
    (_sourceCollectionSynchronized c) (_sourceCollectionDelayedCallbacks c)
    (selection c) (_eventRaising c) (needNotifyCollectionChange c) v.

(** ** Methods as computations *)

Definition M (A : Type) : Type := Collection -> Outcome A * Collection.

Definition ret {A} (a : A) : M A := fun c => (Return a, c).

Definition bind {A B} (m : M A) (k : A -> M B) : M B :=
  fun c =>
    match m c with
    | (Return a, c') => k a c'
    | (Throw e, c') => (Throw e, c')
    | (Diverge, c') => (Diverge, c')
    end.

Definition throw {A} (e : Error) : M A := fun c => (Throw e, c).

(** Read a field, or anything computed from the object. *)
Definition gets {A} (f : Collection -> A) : M A := fun c => (Return (f c), c).

(** Assign to fields. *)
Definition modify (f : Collection -> Collection) : M unit :=
  fun c => (Return tt, f c).

#[export] Instance M_ret : MRet M := @ret.
#[export] Instance M_bind : MBind M := fun A B k m => bind m k.

(** [for (x of xs) body(x)] *)
Fixpoint forEach {A} (xs : list A) (body : A -> M unit) : M unit :=
  match xs with
  | [] => ret tt
  | x :: xs' => body x ;; forEach xs' body
  end.

(** The state a computation ends in, and what it returned or threw. *)
Definition stateAfter {A} (m : M A) (c : Collection) : Collection := snd (m c).
Definition outcomeOf {A} (m : M A) (c : Collection) : Outcome A := fst (m c).

(** The collaborators that see the projection itself.  None of them is
    part of this source tree: they are parameters.

    [createComposer] is what [_createComposer] builds: a new
    [ItemsStrategyComposer] with the direct, user and group strategies
    appended, over the options of this projection.

    [startUpdateSession], [finishUpdateSession] and [extractPacksByList]
    are [_startUpdateSession], [_finishUpdateSession] and
    [_extractPacksByList] of [Types/_collection/EventRaisingMixin].  Opening
    a session takes the snapshot the session is, and so reads the
    projection ([None] is the [null] session); closing one may notify and
    update the projection; the packs are the runs of neighbours the mixin
    cuts a list of items into, each with the index it starts at.

    [callFilter] applies a user filter to the item contents, the index in
    the collection, the item, its position, and whether the group has
    members.  [list_getIndex] is [getIndex] of a source that implements
    [IList]. *)
Class DisplayEnvironment := {
  createComposer : Collection -> Composer;
  startUpdateSession : Collection -> option Session;
  finishUpdateSession :
    option Session -> option bool -> Collection -> Collection;
  extractPacksByList :
    Collection -> list Val -> list (list CollectionItem * Z);
  callFilter :
    Handler -> Contents -> Z -> CollectionItem -> Z -> option bool -> bool;
  list_getIndex : list Val -> Val -> Z
}.

Context `{!ItemsStrategyComposer Composer}.
Context `{!CollectionEnumerator Enumerator}.
Context `{!DisplayEnvironment}.

(** ** The mutation guard *)

(** The display is read only: every mutating method of [IList] throws,
    whatever arguments it is called with. *)

Definition assign (args : list Val) : M unit :=
  throw (Error_ MESSAGE_READ_ONLY).

Definition append (args : list Val) : M unit :=
  throw (Error_ MESSAGE_READ_ONLY).

Definition prepend (args : list Val) : M unit :=
  throw (Error_ MESSAGE_READ_ONLY).

Definition clear (args : list Val) : M unit :=
  throw (Error_ MESSAGE_READ_ONLY).

Definition add (args : list Val) : M unit :=
  throw (Error_ MESSAGE_READ_ONLY).

Definition remove (args : list Val) : M bool :=
  throw (Error_ MESSAGE_READ_ONLY).

Definition removeAt (args : list Val) : M CollectionItem :=
  throw (Error_ MESSAGE_READ_ONLY).

Definition replace (args : list Val) : M CollectionItem :=
  throw (Error_ MESSAGE_READ_ONLY).

Definition move (args : list Val) : M unit :=
  throw (Error_ MESSAGE_READ_ONLY).

(** ** The heap of arrays *)

(** The contents of the array at [l]. *)
Definition readArray (l : loc) (c : Collection) : list Val :=
  default [] (heap c !! l).

(** A new array: a reference no array of the heap has. *)
Definition allocArray (xs : list Val) : M loc :=
  fun c =>
    let l := fresh (dom (heap c)) in
    (Return l, set_heap (<[l := xs]> (heap c)) c).

(** Any in-place change of the array at [l] ([push], [splice], [sort],
    [length = n], an indexed write, ...). *)
Definition mutateArray (l : loc) (f : list Val -> list Val) : M unit :=
  modify (fun c => set_heap (alter f l (heap c)) c).

(** ** Notifications *)

Definition _notify (e : Event) : M unit :=
  modify (fun c => set_trace (trace c ++ [Notify e]) c).

Definition _notifyLater (e : Event) : M unit :=
  modify (fun c => set_trace (trace c ++ [NotifyLater e]) c).

Definition _removeFromQueue (eventName : string) : M unit :=
  modify (fun c => set_trace (trace c ++ [RemoveFromQueue eventName]) c).

Definition isEventRaising : M bool := gets _eventRaising.

Definition _isNeedNotifyCollectionChange : M bool :=
  gets needNotifyCollectionChange.

Definition _notifyBeforeCollectionChange : M unit :=
  raising ← isEventRaising;
  if negb raising then ret tt
  else _notifyLater onBeforeCollectionChange.

Definition _notifyAfterCollectionChange : M unit :=
  raising ← isEventRaising;
  if negb raising then ret tt
  else _notify onAfterCollectionChange.

(** ** Unique identifiers *)

Definition dquote : string := String (Ascii.ascii_of_nat 34) EmptyString.

Definition MESSAGE_ID_PROPERTY : string :=
  "Option " +:+ dquote +:+ "idProperty" +:+ dquote +:+
  " must be defined to extract item unique id.".

(** [object.getPropertyValue(contents, property)] of [Types/util], which is
    not part of this source tree: the read of a property, [undefined] when
    the object has none of that name. *)
Fixpoint lookupProperty (props : list (string * Prim)) (property : string)
  : Prim :=
  match props with
  | [] => PUndefined
  | (name, value) :: rest =>
      if String.eqb name property then value else lookupProperty rest property
  end.

Definition getPropertyValue (contents : Contents) (property : string) : Prim :=
  match contents with
  | Plain props => lookupProperty props property
  | Model _ | Scalar _ => PUndefined
  end.

(** The contents of an item are read first
    ([contents['[Types/_entity/Model]']]), which fails when they are
    [undefined] or [null]. *)
Definition _exctractItemId (item : CollectionItem) : M string :=
  idProperty ← gets _idProperty;
  match contents item with
  | Scalar PUndefined | Scalar PNull =>
      throw (TypeError "Cannot read properties of undefined")
  | Model id => ret (String_ id)
  | other =>
      if bool_decide (idProperty ≠ "") then
        ret (String_ (getPropertyValue other idProperty))
      else throw (Error_ MESSAGE_ID_PROPERTY)
  end.

(** [baseId.concat('-', String(count))] *)
Definition suffixed (baseId : string) (count : nat) : string :=
  baseId +:+ "-" +:+ pretty count.

(** The loop of [_searchItemUid]:
    [while (itemsUid.has(uid)) uid = baseId.concat('-', String(++count))],
    run for at most [fuel] tests of the condition. *)
Fixpoint searchLoop (fuel : nat) (itemsUid : gset string) (baseId : string)
    (count : nat) (uid : string) : option string :=
  match fuel with
  | O => None
  | S fuel' =>
      if bool_decide (uid ∈ itemsUid) then
        searchLoop fuel' itemsUid baseId (S count) (suffixed baseId (S count))
      else Some uid
  end.

Definition _searchItemUid (item : CollectionItem) (baseId : string) : M string :=
  itemsUid ← gets _itemsUid;
  match searchLoop (S (size itemsUid)) itemsUid baseId 0 baseId with
  | Some uid =>
      modify (fun c => set_itemsUid ({[uid]} ∪ _itemsUid c) c);;
      ret uid
  | None => fun c => (Diverge, c)
  end.

Definition getItemUid (item : CollectionItem) : M string :=
  itemToUid ← gets _itemToUid;
  match itemToUid !! instanceId item with
  | Some uid => ret uid
  | None =>
      uid ← _exctractItemId item;
      uid ← _searchItemUid item uid;
      modify (fun c =>
        set_itemToUid (<[instanceId item := uid]> (_itemToUid c)) c);;
      ret uid
  end.

(** [items.map(item => this.getItemUid(item))] *)
Fixpoint getItemUids (items : list CollectionItem) : M (list string) :=
  match items with
  | [] => ret []
  | item :: rest =>
      uid ← getItemUid item;
      uids ← getItemUids rest;
      ret (uid :: uids)
  end.

(** ** Strategies *)

Definition _getItemsStrategy : M Composer :=
  composer ← gets _composer;
  match composer with
  | Some composer => ret composer
  | None =>
      composer ← gets createComposer;
      modify (set_composer (Some composer));;
      ret composer
  end.

(** A call of a method that changes the strategy returned by
    [_getItemsStrategy()]. *)
Definition updateItemsStrategy (method : Composer -> Composer) : M unit :=
  composer ← _getItemsStrategy;
  modify (set_composer (Some (method composer))).

Definition _getItems : M (list CollectionItem) :=
  composer ← _getItemsStrategy;
  ret (result_items composer).

Definition _getItemIndex (index : Z) : M Z :=
  composer ← _getItemsStrategy;
  ret (result_getDisplayIndex composer index).

Definition _getSourceIndex (index : Z) : M Z :=
  composer ← _getItemsStrategy;
  ret (result_getCollectionIndex composer index).

Definition _reGroup (start count : option Z) : M unit :=
  composer ← gets _composer;
  match composer with
  | None => ret tt
  | Some composer => modify (set_composer (Some (group_invalidate composer)))
  end.

(** What the specification says of [_reGroup]: it invalidates the group
    strategy as a whole. *)
Definition invalidateGroupStrategy (c : Collection) : Collection :=
  set_composer (group_invalidate <$> _composer c) c.

(** ** Enumerators *)

(** What the enumerators of the projection read: [_getItems] (bound to the
    projection), [_filterMap] and [_sortMap].  The items are those of the
    composer, or of the composer [_getItems] would create if there were
    none; the embedding does not record that creation, which happens
    inside the enumerator, out of sight of the methods embedded here. *)
Definition viewOf (c : Collection) : View :=
  mkView (result_items (default (createComposer c) (_composer c)))
    (_filterMap c) (_sortMap c).

Definition _getEnumerator : M Enumerator := ret enumerator_new.

Definition _getCursorEnumerator : M Enumerator :=
  enumerator ← gets _cursorEnumerator;
  match enumerator with
  | Some enumerator => ret enumerator
  | None =>
      enumerator ← _getEnumerator;
      modify (set_cursorEnumerator (Some enumerator));;
      ret enumerator
  end.

Definition _getUtilityEnumerator : M Enumerator :=
  enumerator ← gets _utilityEnumerator;
  match enumerator with
  | Some enumerator => ret enumerator
  | None =>
      enumerator ← _getEnumerator;
      modify (set_utilityEnumerator (Some enumerator));;
      ret enumerator
  end.

Definition _reIndex : M unit :=
  enumerator ← _getCursorEnumerator;
  modify (set_cursorEnumerator (Some (enumerator_reIndex enumerator)));;
  enumerator ← _getUtilityEnumerator;
  modify (set_utilityEnumerator (Some (enumerator_reIndex enumerator))).

(** ** The cursor *)

Definition getCurrent : M Val :=
  enumerator ← _getCursorEnumerator;
  view ← gets viewOf;
  ret (enumerator_getCurrent view enumerator).

Definition getCurrentPosition : M Z :=
  enumerator ← _getCursorEnumerator;
  ret (enumerator_getPosition enumerator).

Definition _notifyCurrentChange (newCurrent oldCurrent : Val)
    (newPosition oldPosition : Z) : M unit :=
  raising ← isEventRaising;
  if negb raising then ret tt
  else
    _removeFromQueue "onCurrentChange";;
    _notify (onCurrentChange newCurrent oldCurrent newPosition oldPosition).

Definition setCurrent (item : Val) (silent : bool) : M unit :=
  oldCurrent ← getCurrent;
  if strictNe oldCurrent item then
    enumerator ← _getCursorEnumerator;
    oldPosition ← getCurrentPosition;
    view ← gets viewOf;
    let enumerator := enumerator_setCurrent view item enumerator in
    modify (set_cursorEnumerator (Some enumerator));;
    if negb silent then
      newCurrent ← getCurrent;
      _notifyCurrentChange newCurrent oldCurrent
        (enumerator_getPosition enumerator) oldPosition
    else ret tt
  else ret tt.

Definition setCurrentPosition (position : Z) (silent : bool) : M unit :=
  oldPosition ← getCurrentPosition;
  if strictNe position oldPosition then
    oldCurrent ← getCurrent;
    enumerator ← _getCursorEnumerator;
    view ← gets viewOf;
    modify (set_cursorEnumerator
              (Some (enumerator_setPosition view position enumerator)));;
    if negb silent then
      newCurrent ← getCurrent;
      _notifyCurrentChange newCurrent oldCurrent position oldPosition
    else ret tt
  else ret tt.

(** ** Coordinate queries *)

(** [item.getInstanceId()]: a method call, so a [TypeError] on a value that
    has no such method. *)
Definition getInstanceId (item : Val) : M nat :=
  match item with
  | VItem i => ret (instanceId i)
  | _ => throw (TypeError "item.getInstanceId is not a function")
  end.

Definition getIndexByInstanceId (id : nat) : M Z :=
  enumerator ← _getUtilityEnumerator;
  view ← gets viewOf;
  ret (enumerator_getIndexByInstanceId view enumerator id).

Definition at_ (index : Z) : M Val :=
  enumerator ← _getUtilityEnumerator;
  view ← gets viewOf;
  ret (enumerator_at view enumerator index).

Definition getIndex (item : Val) : M Z :=
  if negb (isCollectionItem item) then ret (-1)
  else
    id ← getInstanceId item;
    getIndexByInstanceId id.

(** [enumerator.getSourceByInternal(index)] and
    [enumerator.getInternalBySource(index)] on the utility enumerator. *)
Definition utilitySourceByInternal (index : Z) : M JsIndex :=
  enumerator ← _getUtilityEnumerator;
  view ← gets viewOf;
  ret (enumerator_getSourceByInternal view enumerator index).

Definition utilityInternalBySource (index : Z) : M JsIndex :=
  enumerator ← _getUtilityEnumerator;
  view ← gets viewOf;
  ret (enumerator_getInternalBySource view enumerator index).

(** [index === undefined || index === null ? -1 : index] *)
Definition indexOrMinusOne (index : JsIndex) : Z :=
  match index with
  | IdxUndefined | IdxNull => -1
  | IdxNum n => n
  end.

Definition getSourceIndexByIndex (index : Z) : M Z :=
  sourceIndex ← utilitySourceByInternal index;
  let sourceIndex := indexOrMinusOne sourceIndex in
  _getSourceIndex sourceIndex.

Definition getSourceIndexByItem (item : Val) : M Z :=
  index ← getIndex item;
  if strictEq index (-1) then ret (-1) else getSourceIndexByIndex index.

Definition getIndexBySourceIndex (index : Z) : M Z :=
  index ← _getItemIndex index;
  itemIndex ← utilityInternalBySource index;
  ret (indexOrMinusOne itemIndex).

(** The search of [getIndexBySourceItem] in a source that is not a list:
    [collection.each(value => { if (sourceIndex === -1 && value === item)
    sourceIndex = index; index++; })]. *)
Definition eachSourceIndex (values : list Val) (item : Val) : Z :=
  fst (fold_left
         (fun '(sourceIndex, index) value =>
            (if strictEq sourceIndex (-1) && strictEq value item
             then index else sourceIndex, index + 1))
         values (-1, 0)).

(** The index of a value in the source: [collection.getIndex(item)] when
    the source is a list, the search above otherwise. *)
Definition sourceIndexOf (collection : SourceCollection) (item : Val) : Z :=
  if source_isList collection
  then list_getIndex (source_items collection) item
  else eachSourceIndex (source_items collection) item.

Definition getIndexBySourceItem (item : Val) : M Z :=
  collection ← gets _collection;
  let sourceIndex := sourceIndexOf collection item in
  if strictEq sourceIndex (-1) then ret (-1)
  else getIndexBySourceIndex sourceIndex.

Definition getItemBySourceIndex (index : Z) : M Val :=
  index ← getIndexBySourceIndex index;
  if strictEq index (-1) then ret undefined else at_ index.

Definition getItemBySourceItem (item : Val) : M Val :=
  index ← getIndexBySourceItem item;
  if strictEq index (-1) then ret undefined else at_ index.

(** ** Collection change notifications *)

(** The truth value of a JavaScript value ([!!v]). *)
Definition truthy (v : Val) : bool :=
  match v with
  | VPrim PUndefined | VPrim PNull => false
  | VPrim (PBool b) => b
  | VPrim (PNum n) => negb (n =? 0)
  | VPrim (PStr s) => negb (String.eqb s "")
  | VFun _ | VArr _ | VItem _ | VObj _ => true
  end.

Definition _isGrouped : M bool := gets (fun c => truthy (_group c)).

(** [items.slice(start, finish)] for [0 <= start <= finish]. *)
Definition slice {A} (items : list A) (start finish : nat) : list A :=
  take (finish - start) (drop start items).

(** The closure [notify] of [_notifyCollectionChange]. *)
Definition notifyPack (action : Action)
    (newItems : list CollectionItem) (newItemsIndex : Z)
    (oldItems : list CollectionItem) (oldItemsIndex : Z)
    (start finish : nat) : M unit :=
  if (start <? finish)%nat then
    _notifyLater
      (onCollectionChange action
         (slice newItems start finish)
         (if (length newItems =? 0)%nat then 0
          else newItemsIndex + Z.of_nat start)
         (slice oldItems start finish)
         (if (length oldItems =? 0)%nat then 0
          else oldItemsIndex + Z.of_nat start))
  else ret tt.

(** The loop [for (let i = 0; i < max; i++)] of [_notifyCollectionChange],
    from [i] on: [rest] are the items at [i], [i + 1], ... and
    [notifyIndex] is the start of the pack being collected. *)
Fixpoint splitByGroups (notify : nat -> nat -> M unit) (max : nat)
    (rest : list CollectionItem) (i notifyIndex : nat) : M unit :=
  match rest with
  | [] => ret tt
  | item :: rest' =>
      (if isGroupItem item then notify notifyIndex i else ret tt);;
      let notifyIndex := if isGroupItem item then i else notifyIndex in
      (if (i =? max - 1)%nat then notify notifyIndex (i + 1)%nat else ret tt);;
      splitByGroups notify max rest' (S i) notifyIndex
  end.

Definition _notifyCollectionChange (action : Action)
    (newItems : list CollectionItem) (newItemsIndex : Z)
    (oldItems : list CollectionItem) (oldItemsIndex : Z)
    (session : option Session) : M unit :=
  need ← _isNeedNotifyCollectionChange;
  if negb need then ret tt
  else
    grouped ← _isGrouped;
    if negb (bool_decide (is_Some session))
       || strictEq action ACTION_RESET
       || negb grouped
    then
      _notifyLater
        (onCollectionChange action newItems newItemsIndex
           oldItems oldItemsIndex)
    else
      let notify :=
        notifyPack action newItems newItemsIndex oldItems oldItemsIndex in
      let isRemove := strictEq action ACTION_REMOVE in
      let items := if isRemove then oldItems else newItems in
      splitByGroups notify (length items) items 0 0.

(** The runs the loop of [_notifyCollectionChange] cuts the notified items
    into, in closed form: a run ends where the next group header begins,
    whatever the groups of the items are. *)
Fixpoint groupRuns (items : list CollectionItem)
  : list (list CollectionItem) :=
  match items with
  | [] => []
  | item :: rest =>
      match groupRuns rest with
      | [] => [[item]]
      | [] :: runs => [item] :: runs
      | (next :: run) :: runs =>
          if isGroupItem next then [item] :: (next :: run) :: runs
          else (item :: next :: run) :: runs
      end
  end.

(** The runs with the offset each one starts at. *)
Fixpoint withOffsets {A} (start : nat) (runs : list (list A))
  : list (nat * list A) :=
  match runs with
  | [] => []
  | run :: runs' => (start, run) :: withOffsets (start + length run) runs'
  end.

(** The packet of one run, as [_notifyCollectionChange] builds it: an index
    is offset by the start of the run when its list of items is not empty,
    and is 0 when it is. *)
Definition packetOfRun (action : Action)
    (newItems : list CollectionItem) (newItemsIndex : Z)
    (oldItems : list CollectionItem) (oldItemsIndex : Z)
    (run : nat * list CollectionItem) : Notification :=
  let start := fst run in
  let finish := (start + length (snd run))%nat in
  NotifyLater
    (onCollectionChange action
       (slice newItems start finish)
       (if (length newItems =? 0)%nat then 0
        else newItemsIndex + Z.of_nat start)
       (slice oldItems start finish)
       (if (length oldItems =? 0)%nat then 0
        else oldItemsIndex + Z.of_nat start)).

(** The packet of one run with both indices offset by the start of the
    run, whatever the lists. *)
Definition packetOfRunOffsetAlways (action : Action)
    (newItems : list CollectionItem) (newItemsIndex : Z)
    (oldItems : list CollectionItem) (oldItemsIndex : Z)
    (run : nat * list CollectionItem) : Notification :=
  let start := fst run in
  let finish := (start + length (snd run))%nat in
  NotifyLater
    (onCollectionChange action
       (slice newItems start finish) (newItemsIndex + Z.of_nat start)
       (slice oldItems start finish) (oldItemsIndex + Z.of_nat start)).

(** The group function [_$group] ([GroupFunction]), a function of the user
    as the filters are: [callGroup group item] is what it returns for the
    contents of [item], the index of [item] in the collection and [item],
    that is the group the item belongs to, a string or [null]. *)
Class GroupFunctions := {
  callGroup : Handler -> CollectionItem -> Prim
}.

Context `{!GroupFunctions}.

(** Modelled from the spec: the group of an item of the projection.
    [GroupItemsStrategy], which applies the group function to the items and
    puts the headers of the groups among them, is not part of this source
    tree.  The contents of a header is the identifier of its group; another
    item belongs to the group that the group function returns for it, and
    [null] is the identifier of the items that have no header. *)
Definition groupOf (c : Collection) (item : CollectionItem) : Contents :=
  if isGroupItem item then contents item
  else
    match _group c with
    | VFun group => Scalar (callGroup group item)
    | _ => Scalar PNull
    end.

(** What the specification says of the split, in its words: the maximal
    contiguous runs whose items share a group. *)
Fixpoint runsOfOneGroup {G} `{EqDecision G} (group : CollectionItem -> G)
    (items : list CollectionItem) : list (list CollectionItem) :=
  match items with
  | [] => []
  | item :: rest =>
      match runsOfOneGroup group rest with
      | [] => [[item]]
      | [] :: runs => [item] :: runs
      | (next :: run) :: runs =>
          if strictEq (group item) (group next)
          then (item :: next :: run) :: runs
          else [item] :: (next :: run) :: runs
      end
  end.

(** The headers of [items] mark the groups: an item that follows another
    is a group header when it is of another group than the one before it,
    and only then. *)
Fixpoint headersMarkGroups {G} `{EqDecision G} (group : CollectionItem -> G)
    (items : list CollectionItem) : bool :=
  match items with
  | [] => true
  | item :: rest =>
      match rest with
      | [] => true
      | next :: _ =>
          bool_decide (isGroupItem next = strictNe (group item) (group next))
      end && headersMarkGroups group rest
  end.

(** ** Selection *)

(** [item.isSelected()] and [item.setSelected(selected, true)] of
    [CollectionItem], which is not part of this source tree.  Modelled from
    the spec: a projection item carries a [selected] flag; the silent form
    of the setter assigns it and notifies nobody. *)
Definition isSelected (item : CollectionItem) : M bool :=
  gets (fun c => bool_decide (instanceId item ∈ selection c)).

Definition setSelected (item : CollectionItem) (selected : bool) : M unit :=
  modify (fun c =>
    set_selection
      (if selected then {[instanceId item]} ∪ selection c
       else selection c ∖ {[instanceId item]}) c).

(** The receiver of a method of [CollectionItem]: a [TypeError] when the
    value is not an item ([undefined.isSelected()]). *)
Definition asItem (v : Val) : M CollectionItem :=
  match v with
  | VItem item => ret item
  | _ => throw (TypeError "Cannot read properties of undefined")
  end.

(** The loop of [_setSelectedItems]: [pending] are the elements still to
    visit, last element of the array first; [items] collects the changed
    ones. *)
Fixpoint selectLoop (pending : list Val) (selected : bool)
    (items : list CollectionItem) : M (list CollectionItem) :=
  match pending with
  | [] => ret items
  | v :: pending' =>
      item ← asItem v;
      current ← isSelected item;
      if strictNe current selected then
        setSelected item selected;;
        selectLoop pending' selected (items ++ [item])
      else selectLoop pending' selected items
  end.

Definition _setSelectedItems (selecItems : list Val) (selected : bool)
  : M unit :=
  items ← selectLoop (rev selecItems) selected [];
  match items with
  | [] => ret tt
  | first :: _ =>
      index ← getIndex (VItem first);
      _notifyBeforeCollectionChange;;
      _notifyCollectionChange ACTION_REPLACE items index items index None;;
      _notifyAfterCollectionChange
  end.

(** [for (...) sourceItems.push(this.getItemBySourceItem(items[i]))] *)
Fixpoint getItemsBySourceItems (items : list Val) : M (list Val) :=
  match items with
  | [] => ret []
  | item :: rest =>
      found ← getItemBySourceItem item;
      others ← getItemsBySourceItems rest;
      ret (found :: others)
  end.

Definition setSelectedItems (items : list Val) (selected : bool) : M unit :=
  sourceItems ← getItemsBySourceItems items;
  _setSelectedItems sourceItems selected.

Definition setSelectedItemsAll (selected : bool) : M unit :=
  items ← _getItems;
  _setSelectedItems (VItem <$> items) selected.

(** The loop of [invertSelectedItemsAll], last item first. *)
Fixpoint invertLoop (pending : list CollectionItem) : M unit :=
  match pending with
  | [] => ret tt
  | item :: pending' =>
      current ← isSelected item;
      setSelected item (negb current);;
      invertLoop pending'
  end.

Definition invertSelectedItemsAll : M unit :=
  items ← _getItems;
  invertLoop (rev items);;
  _notifyBeforeCollectionChange;;
  _notifyCollectionChange ACTION_RESET items 0 items 0 None;;
  _notifyAfterCollectionChange.

(** ** Update sessions *)

Definition _startUpdateSession : M (option Session) := gets startUpdateSession.

(** [analize] is [None] when the argument is left out. *)
Definition _finishUpdateSession (session : option Session)
    (analize : option bool) : M unit :=
  modify (finishUpdateSession session analize).

(** ** Sorting and filtering *)

Definition _buildSortMap : M (list Z) :=
  items ← _getItems;
  ret (imap (fun index _ => Z.of_nat index) items).

Definition _reSort : M unit :=
  modify (set_sortMap []);;
  items ← _buildSortMap;
  modify (fun c => set_sortMap (_sortMap c ++ items) c);;
  _reIndex.

Definition _isFiltered : M bool :=
  gets (fun c => (0 <? length (readArray (_filter c) c))%nat).

(** [filter.length > 3] *)
Definition _isFilterUseIndex (filter : Val) : bool :=
  match filter with
  | VFun f => (3 <? fnLength f)%nat
  | _ => false
  end.

Definition _isFilteredByIndex : M bool :=
  gets (fun c => existsb _isFilterUseIndex (readArray (_filter c) c)).

(** [xs[index]]: nothing outside the array. *)
Definition arrayGet {A} (xs : list A) (index : Z) : option A :=
  if index <? 0 then None else xs !! Z.to_nat index.

(** [filterMap[index]]: [None] is [undefined], an element that was never
    set or lies outside the array. *)
Definition filterMapGet (filterMap : list (option bool)) (index : Z)
  : option bool :=
  mjoin (arrayGet filterMap index).

(** [filterMap[index] = value]: an assignment past the end grows the array
    and leaves the elements in between unset.  An assignment at a negative
    index creates a property and changes no element; the sort map holds
    indices of items, which are not negative, and the embedding does not
    keep such properties. *)
Definition filterMapSet (filterMap : list (option bool)) (index : Z)
    (value : option bool) : list (option bool) :=
  if index <? 0 then filterMap
  else
    let i := Z.to_nat index in
    if (i <? length filterMap)%nat then <[i := value]> filterMap
    else filterMap ++ replicate (i - length filterMap) None ++ [value].

(** The closure [isMatch] of [_reFilter].  The item is [None] when
    [items[index]] is [undefined]: [item.getContents()] then fails. *)
Fixpoint isMatch (filters : list Val) (item : option CollectionItem)
    (index position : Z) (hasMembers : option bool) : M bool :=
  match filters with
  | [] => ret true
  | filter :: filters' =>
      match filter, item with
      | VFun f, Some it =>
          if callFilter f (contents it) index it position hasMembers
          then isMatch filters' item index position hasMembers
          else ret false
      | _, None => throw (TypeError "Cannot read properties of undefined")
      | _, _ => throw (TypeError "filter is not a function")
      end
  end.

(** The closure [applyMatch] of [_reFilter]. *)
Definition applyMatch (match_ : bool) (index : Z) : M bool :=
  filterMap ← gets _filterMap;
  let oldMatch := filterMapGet filterMap index in
  if strictEq (Some match_) oldMatch then ret false
  else if match_ then
    modify (set_filterMap (filterMapSet filterMap index (Some match_)));;
    ret true
  else if strictNe oldMatch None then
    modify (set_filterMap (filterMapSet filterMap index (Some match_)));;
    ret true
  else ret false.

(** The local variables of [_reFilter] that its first loop updates. *)
Record FilterPass := mkFilterPass {
  changed : bool;
  prevGroup : option (CollectionItem * Z * Z);
  prevGroupHasMembers : bool;
  processedIndices : gset Z
}.

(** [isMatch] and [applyMatch] on the remembered group, if there is one. *)
Definition matchPrevGroup (filters : list Val) (pass : FilterPass) : M bool :=
  match prevGroup pass with
  | Some (group, groupIndex, groupPosition) =>
      match_ ← isMatch filters (Some group) groupIndex groupPosition
                 (Some (prevGroupHasMembers pass));
      applied ← applyMatch match_ groupIndex;
      ret (applied || changed pass)
  | None => ret (changed pass)
  end.

(** The first loop of [_reFilter], over the sort map from [position] on. *)
Fixpoint filterLoop (filters : list Val) (items : list CollectionItem)
    (start finish : Z) (sortMap : list Z) (position : Z)
    (pass : FilterPass) : M FilterPass :=
  match sortMap with
  | [] => ret pass
  | index :: sortMap' =>
      if (index <? start) || (finish <=? index) then
        filterLoop filters items start finish sortMap' (position + 1) pass
      else
        let processed := {[index]} ∪ processedIndices pass in
        let item := arrayGet items index in
        if bool_decide (isGroupItem <$> item = Some true) then
          changed' ← matchPrevGroup filters pass;
          filterLoop filters items start finish sortMap' (position + 1)
            (mkFilterPass changed'
               ((fun group => (group, index, position)) <$> item)
               false processed)
        else
          match_ ← isMatch filters item index position None;
          applied ← applyMatch match_ index;
          filterLoop filters items start finish sortMap' (position + 1)
            (mkFilterPass (applied || changed pass) (prevGroup pass)
               (if (match_ : bool) then true
                else prevGroupHasMembers pass)
               processed)
  end.

Definition _reFilter (start count : option Z) : M unit :=
  let start := default 0 start in
  composer ← _getItemsStrategy;
  let count :=
    match count with
    | Some 0 | None => result_count composer - start
    | Some n => n
    end in
  filters ← gets (fun c => readArray (_filter c) c);
  items ← _getItems;
  sortMap ← gets _sortMap;
  let finish := start + count in
  pass ← filterLoop filters items start finish sortMap 0
            (mkFilterPass false None false ∅);
  forEach (seqZ start (finish - start)) (fun index =>
    if bool_decide (index ∈ processedIndices pass) then ret tt
    else modify (fun c =>
           set_filterMap (filterMapSet (_filterMap c) index None) c));;
  changed' ← matchPrevGroup filters pass;
  if (changed' : bool) then _reIndex else ret tt.

Definition _reAnalize (start count : option Z) : M unit :=
  let start := default 0 start in
  itemsStrategy ← _getItemsStrategy;
  session ← _startUpdateSession;
  indexBefore ← _getItemIndex start;
  updateItemsStrategy result_invalidate;;
  indexAfter ← _getItemIndex start;
  count ← match count with
          | Some n => ret n
          | None =>
              composer ← _getItemsStrategy;
              ret (result_count composer - indexAfter)
          end;
  _reGroup (Some start) (Some count);;
  _reSort;;
  byIndex ← _isFilteredByIndex;
  (if strictNe indexBefore indexAfter || byIndex
   then _reFilter None None
   else _reFilter (Some indexAfter) (Some count));;
  _finishUpdateSession session None.

(** ** Filter and sort handlers *)

Definition getFilter : M loc :=
  filters ← gets (fun c => readArray (_filter c) c);
  allocArray filters.

Definition getSort : M loc :=
  sorts ← gets (fun c => readArray (_sort c) c);
  allocArray sorts.

(** The handlers a setter was called with:
    [args[0] instanceof Array ? args[0] : args]. *)
Definition handlersOf (args : list Val) (c : Collection) : list Val :=
  match args with
  | VArr l :: _ => readArray l c
  | _ => args
  end.

(** The loop that compares the current handlers with the new ones:
    [for (i = 0; i < handlers.length; i++)
       if (current[i] !== handlers[i]) { changed = true; break; }] *)
Fixpoint handlersChanged (current handlers : list Val) : bool :=
  match handlers with
  | [] => false
  | handler :: handlers' =>
      if strictNe (hd undefined current) handler then true
      else handlersChanged (tl current) handlers'
  end.

(** [normalizeHandlers] applied to an array. *)
Definition normalizeHandlers (handlers : list Val) : list Val :=
  List.filter isFunction handlers.

(** [xs.splice(xs.indexOf(x), 1)] when [x] is in [xs]. *)
Fixpoint removeFirst {A} `{EqDecision A} (x : A) (xs : list A) : list A :=
  match xs with
  | [] => []
  | y :: xs' => if strictEq y x then xs' else y :: removeFirst x xs'
  end.

Definition _setImportantProperty (name : string) : M unit :=
  modify (fun c =>
    if bool_decide (name ∈ _importantItemProperties c) then c
    else set_importantItemProperties (_importantItemProperties c ++ [name]) c).

Definition _unsetImportantProperty (name : string) : M unit :=
  modify (fun c =>
    if bool_decide (name ∈ _importantItemProperties c)
    then set_importantItemProperties
           (removeFirst name (_importantItemProperties c)) c
    else c).

(** A functor ([functor.Compute.isFunctor]) is a function that carries
    the list of properties it reads. *)
Definition _functorToImportantProperties (func : Val) (add : bool) : M unit :=
  match func with
  | VFun f =>
      match fnProperties f with
      | Some properties =>
          forEach properties (fun property =>
            if add then _setImportantProperty property
            else _unsetImportantProperty property)
      | None => ret tt
      end
  | _ => ret tt
  end.

Definition _switchImportantPropertiesByUserSort (add : bool) : M unit :=
  sorts ← gets (fun c => readArray (_sort c) c);
  forEach sorts (fun func => _functorToImportantProperties func add).

Definition setFilter (args : list Val) : M unit :=
  filters ← gets (handlersOf args);
  current ← gets (fun c => readArray (_filter c) c);
  if (length current =? length filters)%nat
     && negb (handlersChanged current filters)
  then ret tt
  else
    l ← allocArray (List.filter isFunction filters);
    modify (set_filter l);;
    session ← _startUpdateSession;
    _reFilter None None;;
    _finishUpdateSession session None.

Definition setSort (args : list Val) : M unit :=
  session ← _startUpdateSession;
  sorts ← gets (handlersOf args);
  current ← gets (fun c => readArray (_sort c) c);
  if (length current =? length sorts)%nat
     && negb (handlersChanged current sorts)
  then ret tt
  else
    _switchImportantPropertiesByUserSort false;;
    sortArray ← gets _sort;
    mutateArray sortArray (fun _ => []);;
    sorts ← gets (handlersOf args);
    mutateArray sortArray (fun xs => xs ++ normalizeHandlers sorts);;
    _switchImportantPropertiesByUserSort true;;
    updateItemsStrategy result_invalidate;;
    _reSort;;
    filtered ← _isFiltered;
    (if (filtered : bool) then _reFilter None None else ret tt);;
    _finishUpdateSession session None.

(** ** Changes of one item of the source *)

Record SessionItemState := mkItemState {
  state_item : CollectionItem;
  state_selected : bool
}.

#[export] Instance SessionItemState_eq_dec : EqDecision SessionItemState.
Proof. solve_decision. Defined.

Definition _getItemState (item : CollectionItem) : M SessionItemState :=
  selected ← isSelected item;
  ret (mkItemState item selected).

Fixpoint _getItemsState (items : list CollectionItem)
  : M (list SessionItemState) :=
  match items with
  | [] => ret []
  | item :: rest =>
      state ← _getItemState item;
      states ← _getItemsState rest;
      ret (state :: states)
  end.

(** [after.filter((itemNow, index) => some property of itemNow differs
    from before[index]).map(element => element.item)]; reading a property
    of [before[index]] fails when there is no such element. *)
Fixpoint _getItemsDiff (before after : list SessionItemState) {struct after}
  : M (list CollectionItem) :=
  match after with
  | [] => ret []
  | itemNow :: after' =>
      match before with
      | [] => throw (TypeError "Cannot read properties of undefined")
      | itemThen :: before' =>
          rest ← _getItemsDiff before' after';
          ret (if strictNe (state_item itemNow) (state_item itemThen)
                  || strictNe (state_selected itemNow) (state_selected itemThen)
               then state_item itemNow :: rest
               else rest)
      end
  end.

(** The callback [_notifySourceCollectionItemChange] hands to
    [_checkItemsDiff]: what it makes of the array [diff]. *)
Definition itemChangeBeforeCheck (internalItem : Val)
    (indexBefore indexAfter : JsIndex) (diff : list Val) : list Val :=
  let isMoved := strictNe indexBefore indexAfter in
  let present := bool_decide (internalItem ∈ diff) in
  if isMoved then
    if present && js_gt indexBefore indexAfter then
      removeFirst internalItem diff
    else if negb present && js_lt indexBefore indexAfter then
      diff ++ [internalItem]
    else diff
  else if negb isMoved && negb present then diff ++ [internalItem]
  else diff.

(** [state ? this._getItemsDiff(state, this._getItemsState(items)) : []] *)
Definition diffOfState (state : option (list SessionItemState))
    (items : list CollectionItem) : M (list CollectionItem) :=
  match state with
  | Some state =>
      now ← _getItemsState items;
      _getItemsDiff state now
  | None => ret []
  end.

Definition _checkItemsDiff (session : option Session)
    (items : list CollectionItem) (state : option (list SessionItemState))
    (beforeCheck : option (list Val -> list Val)) : M unit :=
  diff ← diffOfState state items;
  let diff := VItem <$> diff in
  let diff := match beforeCheck with
              | Some callback => callback diff
              | None => diff
              end in
  if (0 <? length diff)%nat then
    _notifyBeforeCollectionChange;;
    packs ← gets (fun c => extractPacksByList c diff);
    forEach packs (fun '(pack, index) =>
      _notifyCollectionChange ACTION_CHANGE pack index pack index session);;
    _notifyAfterCollectionChange
  else ret tt.

(** [internalItems[index]] as a value. *)
Definition itemAt (items : list CollectionItem) (index : Z) : Val :=
  default undefined (VItem <$> arrayGet items index).

(** The part of [_notifySourceCollectionItemChange] that, when a changed
    property is important, fixes the state of the items and runs the
    analysis. *)
Definition analyzeImportantChange (raising : bool)
    (internalItems : list CollectionItem) (index : Z)
    (properties : list string) : M (option (list SessionItemState)) :=
  important ← gets _importantItemProperties;
  if existsb (fun key => bool_decide (key ∈ important)) properties then
    state ← (if raising then
               state ← _getItemsState internalItems;
               ret (Some state)
             else ret None);
    _reAnalize (Some index) (Some 1);;
    ret state
  else ret None.

Definition _notifySourceCollectionItemChange (item : Val) (index : Z)
    (properties : list string) : M unit :=
  enumerator ← _getUtilityEnumerator;
  internalItems ← _getItems;
  internalIndexBefore ← _getItemIndex index;
  let internalItem := itemAt internalItems internalIndexBefore in
  indexBefore ← utilityInternalBySource internalIndexBefore;
  raising ← isEventRaising;
  session ← _startUpdateSession;
  state ← analyzeImportantChange raising internalItems index properties;
  if negb raising then ret tt
  else
    _finishUpdateSession session (Some false);;
    internalIndexAfter ← _getItemIndex index;
    indexAfter ← utilityInternalBySource internalIndexAfter;
    _checkItemsDiff session internalItems state
      (Some (itemChangeBeforeCheck internalItem indexBefore indexAfter)).

(** What [_notifySourceCollectionItemChange] has computed when it reaches
    [_checkItemsDiff]. *)
Record ItemChange := mkItemChange {
  change_session : option Session;
  change_items : list CollectionItem;
  change_state : option (list SessionItemState);
  change_item : Val;
  change_indexBefore : JsIndex;
  change_indexAfter : JsIndex
}.

(** [_notifySourceCollectionItemChange] up to, and without, the call of
    [_checkItemsDiff]; [None] when it returns early, the events being
    disabled. *)
Definition itemChangeAnalysis (item : Val) (index : Z)
    (properties : list string) : M (option ItemChange) :=
  enumerator ← _getUtilityEnumerator;
  internalItems ← _getItems;
  internalIndexBefore ← _getItemIndex index;
  let internalItem := itemAt internalItems internalIndexBefore in
  indexBefore ← utilityInternalBySource internalIndexBefore;
  raising ← isEventRaising;
  session ← _startUpdateSession;
  state ← analyzeImportantChange raising internalItems index properties;
  if negb raising then ret None
  else
    _finishUpdateSession session (Some false);;
    internalIndexAfter ← _getItemIndex index;
    indexAfter ← utilityInternalBySource internalIndexAfter;
    ret (Some (mkItemChange session internalItems state internalItem
                 indexBefore indexAfter)).

(** The handler of [onCollectionItemChange] of the source. *)
Definition onCollectionItemChange (item : Val) (index : Z)
    (properties : list string) : M unit :=
  raising ← isEventRaising;
  if negb raising then ret tt
  else
    synchronized ← gets _sourceCollectionSynchronized;
    if (synchronized : bool) then
      _notifySourceCollectionItemChange item index properties
    else
      modify (fun c =>
        set_sourceCollectionDelayedCallbacks
          (Some (default [] (_sourceCollectionDelayedCallbacks c)
                 ++ [(item, index, properties)])) c).

(** ** Notions used to state the properties *)

(** A method returns: it neither throws nor runs forever. *)
Definition returns {A} (m : M A) (c : Collection) : Prop :=
  exists a, outcomeOf m c = Return a.

(** The identifiers [_searchItemUid] tries, in this order: the base, then
    the base with the suffixes -1, -2, ... *)
Definition candidate (baseId : string) (k : nat) : string :=
  match k with
  | O => baseId
  | S _ => suffixed baseId k
  end.

(** The identifiers handed out so far are recorded in the set, and no two
    items have the same one. *)
Definition uidConsistent (c : Collection) : Prop :=
  (forall id uid, _itemToUid c !! id = Some uid -> (uid ∈ _itemsUid c)) /\
  (forall id1 id2 uid,
     _itemToUid c !! id1 = Some uid -> _itemToUid c !! id2 = Some uid ->
     id1 = id2).

(** A run is not empty, and only its first item may be a group header. *)
Definition isRun (run : list CollectionItem) : Prop :=
  run <> [] /\ Forall (fun item => isGroupItem item = false) (tl run).

Definition startsWithGroup (run : list CollectionItem) : Prop :=
  exists header rest, run = header :: rest /\ isGroupItem header = true.

(** [c'] is [c] apart from the heap, and the arrays [c] had are as they
    were. *)
Definition heapExtends (c c' : Collection) : Prop :=
  c' = set_heap (heap c') c /\
  forall l, l ∈ dom (heap c) -> heap c' !! l = heap c !! l.

(** [c'] is [c] apart from the composer and the enumerators, which a
    method creates when it first needs them. *)
Definition lazyOnly (c c' : Collection) : Prop :=
  exists composer cursor utility,
    c' = set_composer composer
           (set_cursorEnumerator cursor (set_utilityEnumerator utility c)).

(** [item.isSelected()] in the state [c]. *)
Definition isSelectedIn (c : Collection) (item : CollectionItem) : bool :=
  bool_decide (instanceId item ∈ selection c).

(** The notifications around a packet, present when events are raised. *)
Definition beforeChange (c : Collection) : list Notification :=
  if _eventRaising c then [NotifyLater onBeforeCollectionChange] else [].

Definition afterChange (c : Collection) : list Notification :=
  if _eventRaising c then [Notify onAfterCollectionChange] else [].

(** The selection after the flag [selected] was given to the items
    [changed]. *)
Definition selectionWith (selected : bool) (changed : list CollectionItem)
    (selection : gset nat) : gset nat :=
  if selected then list_to_set (instanceId <$> changed) ∪ selection
  else selection ∖ list_to_set (instanceId <$> changed).

(** What a change of the selection of the items [its] notifies, from the
    state [c] to the state [c']: one packet of action [replace], inside
    the notifications of the beginning and the end of the change, that
    carries the items whose flag differed from [selected], and them only. *)
Definition notifiesReplace (c : Collection) (its : list CollectionItem)
    (selected : bool) (c' : Collection) : Prop :=
  exists changed index,
    changed <> [] /\
    (forall x, x ∈ changed -> x ∈ its /\ isSelectedIn c x <> selected) /\
    (forall x, x ∈ its -> isSelectedIn c x <> selected ->
       (instanceId x ∈ instanceId <$> changed)) /\
    selection c' = selectionWith selected changed (selection c) /\
    trace c' =
      trace c ++ beforeChange c ++
      [NotifyLater
         (onCollectionChange ACTION_REPLACE changed index changed index)] ++
      afterChange c.

(** [_getItemState(item)] in the state [c]. *)
Definition itemStateIn (c : Collection) (item : CollectionItem)
  : SessionItemState :=
  mkItemState item (isSelectedIn c item).

(** The items of the [onCollectionChange] packets among notifications. *)
Definition packetItems (n : Notification) : list CollectionItem :=
  match eventOf n with
  | Some (onCollectionChange _ newItems _ oldItems _) => newItems ++ oldItems
  | _ => []
  end.

(** The array [diff] after the callback of
    [_notifySourceCollectionItemChange] has run on it, in the state [c]
    reached by the analysis [a]. *)
Definition itemChangeDiff (a : ItemChange) (c : Collection) : list Val :=
  let changed :=
    match outcomeOf (diffOfState (change_state a) (change_items a)) c with
    | Return changed => changed
    | _ => []
    end in
  itemChangeBeforeCheck (change_item a) (change_indexBefore a)
    (change_indexAfter a) (VItem <$> changed).

(** What is asked of [EventRaisingMixin._extractPacksByList], which is not
    part of this source tree, for the item [x]: it is in one of the packs
    made of [diff] exactly when it is in [diff]. *)
Definition packsHold (c : Collection) (diff : list Val) (x : CollectionItem)
  : Prop :=
  (VItem x ∈ diff) <->
  exists pack index, ((pack, index) ∈ extractPacksByList c diff) /\ (x ∈ pack).

(** The action of the [onCollectionChange] packet of a notification. *)
Definition actionOf (n : Notification) : option Action :=
  match eventOf n with
  | Some (onCollectionChange action _ _ _ _) => Some action
  | _ => None
  end.

(** A method that returns in every state and changes nothing but what is
    created lazily. *)
Definition readsOnly {A} (m : M A) : Prop :=
  forall c, exists a c', m c = (Return a, c') /\ lazyOnly c c'.

(** ** Arrays *)

(** [xs.indexOf(x)]: the position of the first element that is strictly
    equal to [x], or -1. *)
Fixpoint indexOfFrom {A} `{EqDecision A} (xs : list A) (x : A) (position : Z)
  : Z :=
  match xs with
  | [] => -1
  | y :: xs' =>
      if strictEq y x then position else indexOfFrom xs' x (position + 1)
  end.

Definition indexOf {A} `{EqDecision A} (xs : list A) (x : A) : Z :=
  indexOfFrom xs x 0.

(** [xs.splice(start, deleteCount, ...added)]: a negative [start] counts
    from the end of the array, and both [start] and [deleteCount] are cut
    to what the array has. *)
Definition spliceStart (len : nat) (start : Z) : nat :=
  if start <? 0 then Z.to_nat (Z.max (Z.of_nat len + start) 0)
  else Z.to_nat (Z.min start (Z.of_nat len)).

Definition spliceCount (len start : nat) (deleteCount : Z) : nat :=
  Z.to_nat (Z.min (Z.max deleteCount 0) (Z.of_nat len - Z.of_nat start)).

Definition splice {A} (xs : list A) (start deleteCount : Z) (added : list A)
  : list A :=
  let start := spliceStart (length xs) start in
  let deleteCount := spliceCount (length xs) start deleteCount in
  take start xs ++ added ++ drop (start + deleteCount) xs.

(** ** Filters and sorts, one at a time *)

(** [at] is [None] when the argument is left out. *)
Definition addFilter (filter : Val) (at_ : option Z) : M unit :=
  filters ← gets (fun c => readArray (_filter c) c);
  if -1 <? indexOf filters filter then ret tt
  else
    filterArray ← gets _filter;
    match at_ with
    | None => mutateArray filterArray (fun xs => xs ++ [filter])
    | Some position =>
        mutateArray filterArray (fun xs => splice xs position 0 [filter])
    end;;
    session ← _startUpdateSession;
    _reFilter None None;;
    _finishUpdateSession session None.

Definition removeFilter (filter : Val) : M bool :=
  filters ← gets (fun c => readArray (_filter c) c);
  let position := indexOf filters filter in
  if strictEq position (-1) then ret false
  else
    filterArray ← gets _filter;
    mutateArray filterArray (fun xs => splice xs position 1 []);;
    session ← _startUpdateSession;
    _reFilter None None;;
    _finishUpdateSession session None;;
    ret true.

Definition addSort (sort : Val) (at_ : option Z) : M unit :=
  sorts ← gets (fun c => readArray (_sort c) c);
  if -1 <? indexOf sorts sort then ret tt
  else
    session ← _startUpdateSession;
    _switchImportantPropertiesByUserSort false;;
    sortArray ← gets _sort;
    match at_ with
    | None => mutateArray sortArray (fun xs => xs ++ [sort])
    | Some position =>
        mutateArray sortArray (fun xs => splice xs position 0 [sort])
    end;;
    _switchImportantPropertiesByUserSort true;;
    updateItemsStrategy result_invalidate;;
    _reSort;;
    filtered ← _isFiltered;
    (if (filtered : bool) then _reFilter None None else ret tt);;
    _finishUpdateSession session None.

Definition removeSort (sort : Val) : M bool :=
  sorts ← gets (fun c => readArray (_sort c) c);
  let position := indexOf sorts sort in
  if strictEq position (-1) then ret false
  else
    session ← _startUpdateSession;
    _switchImportantPropertiesByUserSort false;;
    sortArray ← gets _sort;
    mutateArray sortArray (fun xs => splice xs position 1 []);;
    _switchImportantPropertiesByUserSort true;;
    updateItemsStrategy result_invalidate;;
    _reSort;;
    filtered ← _isFiltered;
    (if (filtered : bool) then _reFilter None None else ret tt);;
    _finishUpdateSession session None;;
    ret true.

(** ** Rebuilding the maps *)

(** [this._filterMap.length = 0; for (index = 0; index < count; index++)
    this._filterMap.push(true); this._reIndex()] *)
Definition _resetFilter (count : Z) : M unit :=
  modify (set_filterMap []);;
  forEach (seqZ 0 count) (fun _ =>
    modify (fun c => set_filterMap (_filterMap c ++ [Some true]) c));;
  _reIndex.

(** [reset] is [false] when the argument is left out.  The strategy is an
    object: its [count] is read after it was reset and regrouped. *)
Definition _reBuild (reset : bool) : M unit :=
  itemsStrategy ← _getItemsStrategy;
  _reIndex;;
  (if reset then updateItemsStrategy result_reset else ret tt);;
  _reGroup None None;;
  _reSort;;
  itemsStrategy ← _getItemsStrategy;
  _resetFilter (result_count itemsStrategy);;
  filtered ← _isFiltered;
  if (filtered : bool) then _reFilter None None else ret tt.

(** ** Items added to and removed from the source *)

(** [IItemsStrategy.splice(start, deleteCount, added)] on the strategy the
    composer results in: the composer afterwards and the items removed.
    [added] is [None] when the argument is left out.  The strategies that
    implement it are not part of this source tree. *)
Class ItemsStrategySplice := {
  result_splice :
    Composer -> Z -> Z -> option (list Val) -> Composer * list CollectionItem
}.

Context `{!ItemsStrategySplice}.

Definition strategySplice (start deleteCount : Z) (added : option (list Val))
  : M (list CollectionItem) :=
  composer ← _getItemsStrategy;
  let '(composer, removed) := result_splice composer start deleteCount added in
  modify (set_composer (Some composer));;
  ret removed.

Definition _addItems (start : Z) (items : list Val) : M Z :=
  isFiltered ← _isFiltered;
  strategySplice start 0 (Some items);;
  innerIndex ← _getItemIndex start;
  let filterMap := (fun _ => Some (negb isFiltered)) <$> items in
  let sortMap := imap (fun index _ => innerIndex + Z.of_nat index) items in
  modify (fun c =>
    set_filterMap (splice (_filterMap c) innerIndex 0 filterMap) c);;
  modify (fun c => set_sortMap (splice (_sortMap c) innerIndex 0 sortMap) c);;
  ret innerIndex.

(** The first loop of [_removeFromSortMap]: for every index of the range,
    the position of the index in the sort map, if it is there. *)
Fixpoint collectToRemove (sortMap : list Z) (indices : list Z)
    (toRemove : list nat) (removed : gmap nat Z) : list nat * gmap nat Z :=
  match indices with
  | [] => (toRemove, removed)
  | index :: rest =>
      let sortIndex := indexOf sortMap index in
      if -1 <? sortIndex then
        let position := Z.to_nat sortIndex in
        collectToRemove sortMap rest (toRemove ++ [position])
          (from_option (fun value => <[position := value]> removed) removed
             (sortMap !! position))
      else collectToRemove sortMap rest toRemove removed
  end.

(** [start] and [count] are [None] when left out; [start || 0] and
    [count || 0].  The positions are sorted in ascending order
    ([toRemove.sort((a, b) => a - b)]) and cut out from the last to the
    first ([this._sortMap.splice(toRemove[index], 1)]). *)
Definition _removeFromSortMap (start count : option Z) : M (gmap nat Z) :=
  let start := default 0 start in
  let count := default 0 count in
  sortMap ← gets _sortMap;
  let '(toRemove, removed) :=
    collectToRemove sortMap (seqZ start count) [] ∅ in
  let toRemove := merge_sort Nat.le toRemove in
  modify (fun c =>
    set_sortMap
      (foldl (fun sortMap position => delete position sortMap) (_sortMap c)
         (reverse toRemove)) c);;
  modify (fun c =>
    set_sortMap
      ((fun value => if start <=? value then value - count else value)
         <$> _sortMap c) c);;
  _reIndex;;
  ret removed.

(** The items removed and [result.start]. *)
Definition _removeItems (start count : option Z)
  : M (list CollectionItem * Z) :=
  let start := default 0 start in
  strategy ← _getItemsStrategy;
  let count :=
    match count with
    | None => result_count strategy - start
    | Some count => count
    end in
  result ← strategySplice start count None;
  innerIndex ← _getItemIndex start;
  modify (fun c =>
    set_filterMap (splice (_filterMap c) innerIndex count []) c);;
  _removeFromSortMap (Some innerIndex) (Some count);;
  ret (result, innerIndex).

(** ** Enumeration *)

(** What a [CollectionEnumerator] yields when it is moved with
    [moveNext()] until that returns [false]: the items [getCurrent()] gives
    and their indices [getCurrentIndex()], in this order. *)
Class CollectionEnumeration := {
  enumerator_each : View -> Enumerator -> list (CollectionItem * Z)
}.

Context `{!CollectionEnumeration}.

(** [each(callback)].  A callback of the projection writes to the
    variables of the function that made it: they are the state [state]
    the callback is given and returns. *)
Definition each {State : Type}
    (callback : State -> CollectionItem -> Z -> State) (state : State)
  : M State :=
  enumerator ← _getEnumerator;
  view ← gets viewOf;
  ret (foldl (fun state '(item, index) => callback state item index) state
         (enumerator_each view enumerator)).

(** [item.getContents()] of a group is the identifier of the group, and
    [===] on identifiers, which are strings or numbers, is the equality of
    values.  A variable that was not assigned is [undefined]. *)
Definition getGroupItems (groupId : Contents) : M (list CollectionItem) :=
  result ← each
    (fun '(currentGroupId, items) item _ =>
       if isGroupItem item then (contents item, items)
       else if strictEq currentGroupId groupId
            then (currentGroupId, items ++ [item])
            else (currentGroupId, items))
    (Scalar PUndefined, []);
  ret (snd result).

(** The loop of [getGroupByIndex], which leaves at [itemIndex === index]
    or at the end of the enumeration. *)
Fixpoint groupByIndexLoop (index : Z) (items : list CollectionItem)
    (currentGroupId : Contents) (itemIndex : Z) : Contents :=
  match items with
  | [] => currentGroupId
  | item :: rest =>
      let currentGroupId :=
        if isGroupItem item then contents item else currentGroupId in
      if itemIndex =? index then currentGroupId
      else groupByIndexLoop index rest currentGroupId (itemIndex + 1)
  end.

Definition getGroupByIndex (index : Z) : M Contents :=
  enumerator ← _getEnumerator;
  view ← gets viewOf;
  ret (groupByIndexLoop index (fst <$> enumerator_each view enumerator)
         (Scalar PUndefined) 0).

(** ** A change of an item that the caller reports *)

(** The properties the caller gives are put on the array of the one item
    and play no part here. *)
Definition notifyItemChange (item : CollectionItem) : M unit :=
  isFiltered ← _isFiltered;
  isGrouped ← _isGrouped;
  (if isFiltered || isGrouped then
     session ← _startUpdateSession;
     (if (isGrouped : bool) then _reGroup None None;; _reSort else ret tt);;
     (if (isFiltered : bool) then _reFilter None None else ret tt);;
     _finishUpdateSession session None
   else ret tt);;
  raising ← isEventRaising;
  if negb raising then ret tt
  else
    index ← getIndex (VItem item);
    _notifyBeforeCollectionChange;;
    _notifyCollectionChange ACTION_CHANGE [item] index [item] index None;;
    _notifyAfterCollectionChange.

(** ** Changes of the source *)

(** The function [toArray]: the items [each] gives, in its order. *)
Definition toArray : M (list CollectionItem) :=
  each (fun result item _ => result ++ [item]) [].

(** The items replaced and [result.start]. *)
Definition _replaceItems (start : Z) (newItems : list Val)
  : M (list CollectionItem * Z) :=
  result ← strategySplice start (Z.of_nat (length newItems)) (Some newItems);
  innerIndex ← _getItemIndex start;
  ret (result, innerIndex).

(** The items moved and [movedItems.oldIndex]. *)
Definition _moveItems (newIndex oldIndex : Z) (items : list Val)
  : M (list CollectionItem * Z) :=
  movedItems ← strategySplice oldIndex (Z.of_nat (length items)) None;
  strategySplice newIndex 0 (Some (VItem <$> movedItems));;
  innerIndex ← _getItemIndex oldIndex;
  ret (movedItems, innerIndex).

(** [for (i = index; i < last; i++)
    changedItems.push(items[this._getItemIndex(i)])] *)
Fixpoint changedItemsOf (items : list CollectionItem) (indices : list Z)
  : M (list Val) :=
  match indices with
  | [] => ret []
  | index :: rest =>
      innerIndex ← _getItemIndex index;
      others ← changedItemsOf items rest;
      ret (itemAt items innerIndex :: others)
  end.

Definition _notifyCollectionItemsChange (changed : list Val) (index : Z)
    (session : option Session) : M unit :=
  items ← _getItems;
  changedItems ←
    changedItemsOf items (seqZ index (Z.of_nat (length changed)));
  _notifyBeforeCollectionChange;;
  packs ← gets (fun c => extractPacksByList c changedItems);
  forEach packs (fun '(pack, index) =>
    _notifyCollectionChange ACTION_CHANGE pack index pack index session);;
  _notifyAfterCollectionChange.

(** The handler of [onCollectionChange] of the source, the function
    [onCollectionChange]; that name is the event's here.  The action is one
    of the actions of [IBind]. *)
Definition handleCollectionChange (action : Action) (newItems : list Val)
    (newItemsIndex : Z) (oldItems : list Val) (oldItemsIndex : Z) : M unit :=
  match action with
  | ACTION_RESET =>
      projectionOldItems ← toArray;
      _reBuild true;;
      projectionNewItems ← toArray;
      _notifyBeforeCollectionChange;;
      _notifyCollectionChange action projectionNewItems 0
        projectionOldItems 0 None;;
      _notifyAfterCollectionChange
  | ACTION_CHANGE =>
      session ← _startUpdateSession;
      _reGroup (Some newItemsIndex) (Some (Z.of_nat (length newItems)));;
      _reSort;;
      _reFilter None None;;
      _finishUpdateSession session (Some false);;
      _notifyCollectionItemsChange newItems newItemsIndex session
  | _ =>
      session ← _startUpdateSession;
      match action with
      | ACTION_ADD =>
          _addItems newItemsIndex newItems;;
          _reGroup (Some newItemsIndex) (Some (Z.of_nat (length newItems)));;
          _reSort;;
          _reFilter None None
      | ACTION_REMOVE =>
          _removeItems (Some oldItemsIndex)
            (Some (Z.of_nat (length oldItems)));;
          _reSort;;
          filtered ← _isFiltered;
          byIndex ← _isFilteredByIndex;
          if filtered && byIndex then _reFilter None None else ret tt
      | ACTION_REPLACE =>
          _replaceItems newItemsIndex newItems;;
          _reGroup (Some newItemsIndex) (Some (Z.of_nat (length newItems)));;
          _reSort;;
          _reFilter None None
      | ACTION_MOVE =>
          _moveItems newItemsIndex oldItemsIndex newItems;;
          _reSort;;
          _reFilter None None
      | _ => ret tt
      end;;
      _finishUpdateSession session None
  end.

(** ** Changes deferred while the source is out of step *)

Definition set_sourceCollectionSynchronized (v : bool) (c : Collection)
  : Collection :=
  mkCollection (heap c) (_collection c) (_filter c) (_sort c) (_group c)
    (_idProperty c) (_unique c) (_importantItemProperties c) (_itemToUid c)
    (_itemsUid c) (_composer c) (_filterMap c) (_sortMap c)
    (_cursorEnumerator c) (_utilityEnumerator c) v
    (_sourceCollectionDelayedCallbacks c) (selection c) (_eventRaising c)
    (needNotifyCollectionChange c) (trace c).

(** The loop of [onEventRaisingChange]:
    [while (callbacks.length > 0) { callback = callbacks[0];
    callback[0].apply(this, callback[1]); callbacks.shift(); }], run for at
    most [fuel] tests of the condition.  The callbacks are calls of
    [_notifySourceCollectionItemChange]. *)
Fixpoint replayDelayed (fuel : nat) : M unit :=
  match fuel with
  | O => fun c => (Diverge, c)
  | S fuel' =>
      callbacks ← gets (fun c =>
        default [] (_sourceCollectionDelayedCallbacks c));
      match callbacks with
      | [] => ret tt
      | (item, index, properties) :: _ =>
          _notifySourceCollectionItemChange item index properties;;
          modify (fun c =>
            set_sourceCollectionDelayedCallbacks
              (tail <$> _sourceCollectionDelayedCallbacks c) c);;
          replayDelayed fuel'
      end
  end.

(** The handler of [onEventRaisingChange] of the source.  The loop is
    given one test of its condition more than there are callbacks. *)
Definition onEventRaisingChange (enabled analyze : bool) : M unit :=
  (if negb analyze && enabled then _reBuild true else ret tt);;
  modify (set_sourceCollectionSynchronized enabled);;
  callbacks ← gets _sourceCollectionDelayedCallbacks;
  match callbacks with
  | Some callbacks =>
      if enabled then replayDelayed (S (length callbacks)) else ret tt
  | None => ret tt
  end.

(** ** More notions used to state the properties *)

(** The computation [m] leaves what [f] reads of the projection as it
    was, whether it returns or throws. *)
Definition preserves {X A} (f : Collection -> X) (m : M A) : Prop :=
  forall c, f (stateAfter m c) = f c.

(** What is asked of [EventRaisingMixin._finishUpdateSession], which is
    not part of this source tree: closing a session notifies, and does
    nothing else to the projection. *)
Definition sessionNotifies : Prop :=
  forall session analize c,
    exists emitted,
      finishUpdateSession session analize c =
      set_trace (trace c ++ emitted) c.

(** Whether every filter accepts the item: what the closure [isMatch] of
    [_reFilter] returns.  [hasMembers] is [None] where the closure is
    called without it, for an item that is not a group. *)
Definition accepts (filters : list Val) (item : CollectionItem)
    (index position : Z) (hasMembers : option bool) : bool :=
  forallb
    (fun filter =>
       match filter with
       | VFun f => callFilter f (contents item) index item position hasMembers
       | _ => false
       end)
    filters.

(** The entry of the filter map that the closure [applyMatch] of
    [_reFilter] leaves for a match [match_] where the entry was [old]: an
    entry that was never set is not set to [false]. *)
Definition appliedMatch (match_ : bool) (old : option bool) : option bool :=
  if match_ then Some true
  else match old with
       | None => None
       | Some _ => Some false
       end.

(** The index is in the range [_reFilter] works on. *)
Definition inRange (start finish index : Z) : bool :=
  (start <=? index) && (index <? finish).

(** Whether a group has members that pass the filters: whether the
    filters accept one of the items of the range that follow the group in
    the sort map, [sortMap] being what follows it, from [position] on, up to
    the next group of the range. *)
Fixpoint groupHasMembers (filters : list Val) (items : list CollectionItem)
    (start finish : Z) (sortMap : list Z) (position : Z) : bool :=
  match sortMap with
  | [] => false
  | index :: rest =>
      let others :=
        groupHasMembers filters items start finish rest (position + 1) in
      if inRange start finish index then
        match arrayGet items index with
        | Some item =>
            if isGroupItem item then false
            else accepts filters item index position None || others
        | None => others
        end
      else others
  end.

(** The projection shows the items the filters accept: it has a composer,
    its sort map holds the indices of the items of the composer in their
    order, and the entry of the filter map of an item is [true] exactly
    when the filters accept the item, at its index as the position; a
    group is shown to the filters with whether one of the items between it
    and the next group is accepted. *)
Definition showsAccepted (filters : list Val) (c : Collection) : Prop :=
  exists composer,
    _composer c = Some composer /\
    let items := result_items composer in
    let n := Z.of_nat (length items) in
    _sortMap c = seqZ 0 n /\
    forall (index : nat) item,
      items !! index = Some item ->
      filterMapGet (_filterMap c) (Z.of_nat index) = Some true <->
      accepts filters item (Z.of_nat index) (Z.of_nat index)
        (if isGroupItem item
         then Some (groupHasMembers filters items 0 n
                      (drop (S index) (seqZ 0 n)) (Z.of_nat index + 1))
         else None) = true.

(** The identifier of the group an item of the enumeration is in: that of
    the last group at or before the item, [undefined] when there is none. *)
Fixpoint groupAt (items : list CollectionItem) (position : nat)
    (currentGroupId : Contents) : Contents :=
  match items with
  | [] => currentGroupId
  | item :: rest =>
      let currentGroupId :=
        if isGroupItem item then contents item else currentGroupId in
      match position with
      | O => currentGroupId
      | S position' => groupAt rest position' currentGroupId
      end
  end.

(** The computation [m] never reaches the bound of a loop of the
    embedding: whatever the state, it returns or throws. *)
Definition finishes {A} (m : M A) : Prop :=
  forall c, outcomeOf m c <> Diverge.

(** What is asked of the strategies, which are not part of this source
    tree: [count] is the number of the items. *)
Definition strategyCounts : Prop :=
  forall composer : Composer,
    result_count composer = Z.of_nat (length (result_items composer)).

(** The properties the functors among the handlers depend on. *)
Definition functorProperties (handlers : list Val) : list string :=
  flat_map
    (fun handler =>
       match handler with
       | VFun f => default [] (fnProperties f)
       | _ => []
       end)
    handlers.

(** The sequence to replay of deferred changes, oldest first, each taken
    from the queue when it has been handled. *)
Definition replayAll (callbacks : list DelayedCallback) : M unit :=
  forEach callbacks (fun '(item, index, properties) =>
    _notifySourceCollectionItemChange item index properties;;
    modify (fun c =>
      set_sourceCollectionDelayedCallbacks
        (tail <$> _sourceCollectionDelayedCallbacks c) c)).

End Display.

(** ** A small configuration

    The collaborators at their simplest, to run the methods on concrete
    projections.

    The strategy is the one of
    [Types/_display/itemsStrategy/AbstractStrategy]: indices are translated
    as they are and [invalidate] does nothing; its items are kept as a
    list.  After [reset] the strategy has no item: the list is empty,
    where the array of the source is given the length of the collection
    again and holds no item until one is created.

    Modelled from the spec: the enumerator is the cursor of section 4.6, a
    position in the visible sequence, which is made of the indices of the
    sort map whose entry in the filter map is [true]; the session is the
    snapshot of the items taken when it is opened. *)
Module Simple.

Definition Composer : Type := list CollectionItem.

#[export] Instance composer : ItemsStrategyComposer Composer := {|
  result_items := fun items => items;
  result_count := fun items => Z.of_nat (length items);
  result_getDisplayIndex := fun _ index => index;
  result_getCollectionIndex := fun _ index => index;
  result_invalidate := fun items => items;
  result_reset := fun _ => [];
  group_invalidate := fun items => items
|}.

(** The indices of the visible items, in the order of the sort map. *)
Definition visible (view : View) : list Z :=
  List.filter
    (fun index => bool_decide (filterMapGet (view_filterMap view) index = Some true))
    (view_sortMap view).

Definition visibleItem (view : View) (position : Z) : Val :=
  match arrayGet (visible view) position with
  | Some index => itemAt (view_items view) index
  | None => undefined
  end.

(** The position of the first visible item that satisfies [test], or -1. *)
Fixpoint findPosition (test : Val -> bool) (view : View) (rest : list Z)
    (position : Z) : Z :=
  match rest with
  | [] => -1
  | index :: rest' =>
      if test (itemAt (view_items view) index) then position
      else findPosition test view rest' (position + 1)
  end.

Fixpoint positionOf (index : Z) (rest : list Z) (position : Z) : JsIndex :=
  match rest with
  | [] => IdxUndefined
  | index' :: rest' =>
      if index =? index' then IdxNum position
      else positionOf index rest' (position + 1)
  end.

Definition Enumerator : Type := Z.

#[export] Instance enumerator : CollectionEnumerator Enumerator := {|
  enumerator_new := -1;
  enumerator_getCurrent := fun view position => visibleItem view position;
  enumerator_getPosition := fun position => position;
  enumerator_setCurrent := fun view item _ =>
    findPosition (fun v => strictEq v item) view (visible view) 0;
  enumerator_setPosition := fun view position _ =>
    if (0 <=? position) && (position <? Z.of_nat (length (visible view)))
    then position else -1;
  enumerator_reIndex := fun position => position;
  enumerator_at := fun view _ index => visibleItem view index;
  enumerator_getCount := fun view _ => Z.of_nat (length (visible view));
  enumerator_getIndexByInstanceId := fun view _ id =>
    findPosition
      (fun v => match v with
                | VItem item => (instanceId item =? id)%nat
                | _ => false
                end)
      view (visible view) 0;
  enumerator_getSourceByInternal := fun view _ index =>
    match arrayGet (visible view) index with
    | Some source => IdxNum source
    | None => IdxUndefined
    end;
  enumerator_getInternalBySource := fun view _ index =>
    positionOf index (visible view) 0
|}.

Definition Session : Type := list CollectionItem.

Definition Display : Type := @Collection Composer Enumerator.

Definition itemsOf (c : Display) : list CollectionItem :=
  default [] (_composer c).

(** One pack per changed item that is visible, at its position. *)
Definition packs (c : Display) (diff : list Val)
  : list (list CollectionItem * Z) :=
  let view := mkView (itemsOf c) (_filterMap c) (_sortMap c) in
  flat_map
    (fun v =>
       match v with
       | VItem item =>
           let index :=
             enumerator_getIndexByInstanceId view (-1) (instanceId item) in
           if index =? -1 then [] else [([item], index)]
       | _ => []
       end)
    diff.

#[export] Instance environment
  : @DisplayEnvironment Composer Enumerator Session := {|
  createComposer := fun _ => [];
  startUpdateSession := fun c =>
    if _eventRaising c && needNotifyCollectionChange c
    then Some (itemsOf c) else None;
  finishUpdateSession := fun _ _ c => c;
  extractPacksByList := packs;
  callFilter := fun _ _ _ _ _ _ => true;
  list_getIndex := eachSourceIndex
|}.

(** Three items, the first one a group header, all visible, in the order
    of the source. *)
Definition header : CollectionItem := mkItem 1 true (Scalar (PStr "A")).
Definition first : CollectionItem := mkItem 2 false (Model (PNum 7)).
Definition second : CollectionItem :=
  mkItem 3 false (Plain [("id", PNum 7)]).

Definition byTitle : Handler := mkHandler 1 2 None.

Definition sample : Display := {|
  heap := {[ 0%nat := []; 1%nat := [VFun byTitle] ]};
  _collection := mkSource [VObj 10; VObj 11] true;
  _filter := 0%nat;
  _sort := 1%nat;
  _group := VFun (mkHandler 2 3 None);
  _idProperty := "id";
  _unique := false;
  _importantItemProperties := ["id"];
  _itemToUid := ∅;
  _itemsUid := ∅;
  _composer := Some [header; first; second];
  _filterMap := [Some true; Some true; Some true];
  _sortMap := [0; 1; 2];
  _cursorEnumerator := Some (-1);
  _utilityEnumerator := Some (-1);
  _sourceCollectionSynchronized := true;
  _sourceCollectionDelayedCallbacks := None;
  selection := ∅;
  _eventRaising := true;
  needNotifyCollectionChange := true;
  trace := []
|}.

(** The sample projection with another sort map. *)
Definition shuffled (sortMap : list Z) : Display := set_sortMap sortMap sample.

(** The items among values. *)
Definition itemsAmong (values : list Val) : list CollectionItem :=
  omap (fun value => match value with VItem item => Some item | _ => None end)
    values.

(** [splice] on the list of the items, as that of an array; the values
    added are items already. *)
#[export] Instance splicing : ItemsStrategySplice (Composer := Composer) := {|
  result_splice := fun items start deleteCount added =>
    let first := spliceStart (length items) start in
    (splice items start deleteCount (itemsAmong (default [] added)),
     take (spliceCount (length items) first deleteCount) (drop first items))
|}.

(** The visible items in their order, each with its index. *)
#[export] Instance enumeration
  : CollectionEnumeration (Enumerator := Enumerator) := {|
  enumerator_each := fun view _ =>
    omap
      (fun index =>
         (fun item => (item, index)) <$> arrayGet (view_items view) index)
      (visible view)
|}.

(** A functor that depends on the property [id], and the sample
    projection sorted by it. *)
Definition byId : Handler := mkHandler 3 2 (Some ["id"]).

Definition sortedById : Display :=
  set_heap {[ 0%nat := []; 1%nat := [VFun byId] ]} sample.

(** The sample projection with a filter that has not been applied: no
    item is shown. *)
Definition hidden : Display :=
  set_heap {[ 0%nat := [VFun byTitle]; 1%nat := [VFun byTitle] ]}
    (set_filterMap [Some false; Some false; Some false] sample).

(** The sample projection out of step with its source, with one change of
    an item deferred. *)
Definition deferred : Display :=
  set_sourceCollectionSynchronized false
    (set_sourceCollectionDelayedCallbacks (Some [(VObj 11, 1, ["id"])])
       sample).

(** The sample projection without a group. *)
Definition ungrouped : Display :=
  mkCollection (heap sample) (_collection sample) (_filter sample)
    (_sort sample) undefined (_idProperty sample) (_unique sample)
    (_importantItemProperties sample) (_itemToUid sample) (_itemsUid sample)
    (_composer sample) (_filterMap sample) (_sortMap sample)
    (_cursorEnumerator sample) (_utilityEnumerator sample)
    (_sourceCollectionSynchronized sample)
    (_sourceCollectionDelayedCallbacks sample) (selection sample)
    (_eventRaising sample) (needNotifyCollectionChange sample) (trace sample).

(** An item to add to the sample projection. *)
Definition later : CollectionItem := mkItem 4 false (Model (PNum 9)).

(** What the analysis of a change of [first] computes in these
    projections, where no item is selected: the session, the items and
    their state, and the positions of [first] before and after. *)
Definition changeOf (before after : Z) : @ItemChange Session :=
  mkItemChange (Some [header; first; second]) [header; first; second]
    (Some ((fun item => mkItemState item false) <$> [header; first; second]))
    (VItem first) (IdxNum before) (IdxNum after).

(** A second group: its header and an item of it. *)
Definition headerB : CollectionItem := mkItem 5 true (Scalar (PStr "B")).
Definition third : CollectionItem := mkItem 6 false (Model (PNum 8)).

(** The group function of the sample projections puts the model 7 in the
    group A and the model 8 in the group B; other contents are in no
    group. *)
#[export] Instance grouping : GroupFunctions := {|
  callGroup := fun _ item =>
    match contents item with
    | Model (PNum 7) => PStr "A"
    | Model (PNum 8) => PStr "B"
    | _ => PNull
    end
|}.

End Simple.

(** * Properties of the projection *)

Section Properties.

Context {Composer Enumerator Session : Type}.
Context `{!ItemsStrategyComposer Composer}.
Context `{!CollectionEnumerator Enumerator}.
Context `{!DisplayEnvironment (Composer := Composer)
            (Enumerator := Enumerator) (Session := Session)}.

Abbreviation Display := (@Collection Composer Enumerator).
Abbreviation Method := (@M Composer Enumerator).
Abbreviation readsOnly :=
  (readsOnly (Composer:=Composer) (Enumerator:=Enumerator)).

(** Run the monadic operations of a method. *)
Ltac run :=
  unfold mbind, M_bind, bind, mret, M_ret, ret, gets, modify, throw in *;
  simpl in *.

(** ** The mutation guard and the group strategy *)

Lemma set_composer_same (c : Display) : set_composer (_composer c) c = c.
Proof. by destruct c. Qed.

(** C6: each of [assign], [append], [prepend], [clear], [add], [remove],
    [removeAt], [replace] and [move] throws the error of a read-only
    collection, whatever its arguments and whatever the state of the
    projection, and leaves that state as it was. *)
Theorem mutation_guard_read_only (args : list Val) (c : Display) :
  assign args c = (Throw (Error_ MESSAGE_READ_ONLY), c) /\
  append args c = (Throw (Error_ MESSAGE_READ_ONLY), c) /\
  prepend args c = (Throw (Error_ MESSAGE_READ_ONLY), c) /\
  clear args c = (Throw (Error_ MESSAGE_READ_ONLY), c) /\
  add args c = (Throw (Error_ MESSAGE_READ_ONLY), c) /\
  remove args c = (Throw (Error_ MESSAGE_READ_ONLY), c) /\
  removeAt args c = (Throw (Error_ MESSAGE_READ_ONLY), c) /\
  replace args c = (Throw (Error_ MESSAGE_READ_ONLY), c) /\
  move args c = (Throw (Error_ MESSAGE_READ_ONLY), c).
Proof. repeat split. Qed.

(** C8: [_reGroup(start, count)] does what [_reGroup()] does, whatever
    [start] and [count]: it invalidates the whole group strategy of the
    composer, and does nothing when there is no composer. *)
Theorem reGroup_ignores_range (start count : option Z) (c : Display) :
  _reGroup start count c = _reGroup None None c /\
  _reGroup start count c = (Return tt, invalidateGroupStrategy c) /\
  (_composer c = None -> _reGroup start count c = (Return tt, c)).
Proof.
  split; [reflexivity|].
  unfold _reGroup, invalidateGroupStrategy.
  run.
  destruct (_composer c) as [k|] eqn:Hk; run.
  - split; [reflexivity | discriminate].
  - rewrite <- Hk, set_composer_same. split; [reflexivity | reflexivity].
Qed.

(** ** The cursor *)

Lemma getCursorEnumerator_run (c : Display) :
  exists e, _getCursorEnumerator c = (Return e, set_cursorEnumerator (Some e) c).
Proof.
  unfold _getCursorEnumerator, _getEnumerator. run.
  destruct (_cursorEnumerator c) as [e|] eqn:He; run.
  - exists e. rewrite <- He. by destruct c.
  - by exists enumerator_new.
Qed.

Lemma getCursorEnumerator_existing (c : Display) e :
  _cursorEnumerator c = Some e -> _getCursorEnumerator c = (Return e, c).
Proof.
  intros He. unfold _getCursorEnumerator. run. by rewrite He.
Qed.

Lemma strictNe_same {A} `{EqDecision A} (a : A) : strictNe a a = false.
Proof. unfold strictNe, strictEq. by rewrite bool_decide_eq_true_2. Qed.

Lemma strictNe_true {A} `{EqDecision A} (a b : A) : strictNe a b = true <-> a <> b.
Proof.
  unfold strictNe, strictEq. rewrite negb_true_iff, bool_decide_eq_false. done.
Qed.

(** C10, amended: [onCurrentChange] is notified only when the item or the
    position asked for is not the current one; the methods compare what
    they are given with the cursor as it is, not the cursor afterwards
    with the cursor before.  [setCurrent(item)] with [item] already
    current, and [setCurrentPosition(p)] with [p] already the position,
    return having done nothing but create the cursor enumerator if there
    was none; with [silent] set nothing is notified, even when the cursor
    moves; and when something is notified, the item or the position asked
    for was not the current one, [silent] was not set, events are raised,
    and what is notified is one [onCurrentChange], which for
    [setCurrentPosition] carries the position asked for. *)
Theorem onCurrentChange_only_when_request_differs
    (c : Display) (item : Val) (position : Z) (silent : bool) :
  let opened := stateAfter _getCursorEnumerator c in
  (trace opened = trace c /\
   (is_Some (_cursorEnumerator c) -> opened = c)) /\
  (outcomeOf getCurrent c = Return item ->
   setCurrent item silent c = (Return tt, opened)) /\
  (outcomeOf getCurrentPosition c = Return position ->
   setCurrentPosition position silent c = (Return tt, opened)) /\
  trace (stateAfter (setCurrent item true) c) = trace c /\
  trace (stateAfter (setCurrentPosition position true) c) = trace c /\
  (trace (stateAfter (setCurrent item silent) c) = trace c \/
   outcomeOf getCurrent c <> Return item /\ silent = false /\
   _eventRaising c = true /\
   exists newCurrent oldCurrent newPosition oldPosition,
     trace (stateAfter (setCurrent item silent) c) =
       trace c ++ [RemoveFromQueue "onCurrentChange";
                   Notify (onCurrentChange newCurrent oldCurrent
                             newPosition oldPosition)]) /\
  (trace (stateAfter (setCurrentPosition position silent) c) = trace c \/
   outcomeOf getCurrentPosition c <> Return position /\ silent = false /\
   _eventRaising c = true /\
   exists newCurrent oldCurrent oldPosition,
     trace (stateAfter (setCurrentPosition position silent) c) =
       trace c ++ [RemoveFromQueue "onCurrentChange";
                   Notify (onCurrentChange newCurrent oldCurrent
                             position oldPosition)]).
Proof.
  intros opened. subst opened.
  destruct (getCursorEnumerator_run c) as [e He].
  pose proof (getCursorEnumerator_existing
                (set_cursorEnumerator (Some e) c) e eq_refl) as He'.
  unfold stateAfter, outcomeOf, setCurrent, setCurrentPosition, getCurrent,
    getCurrentPosition, _notifyCurrentChange, isEventRaising, _removeFromQueue,
    _notify.
  run. rewrite !He. run.
  repeat split.
  - intros [e0 He0]. unfold _getCursorEnumerator in He. run.
    rewrite He0 in He. run. congruence.
  - intros [= ->]. by rewrite strictNe_same.
  - intros [= ->]. by rewrite strictNe_same.
  - destruct (strictNe _ item); run; [|done]. rewrite ?He'. run. done.
  - destruct (strictNe position _); run; [|done]. rewrite ?He'. run. done.
  - destruct (strictNe _ item) eqn:Hne; run; [|by left]. rewrite ?He'. run.
    destruct silent; run; [by left|].
    pose proof (getCursorEnumerator_existing
                  (set_cursorEnumerator
                     (Some (enumerator_setCurrent
                              (viewOf (set_cursorEnumerator (Some e) c))
                              item e))
                     (set_cursorEnumerator (Some e) c)) _ eq_refl) as He''.
    cbn in He''. rewrite ?He''. run.
    destruct (_eventRaising c) eqn:Hr; run; [|by left].
    right. apply strictNe_true in Hne. repeat split; [congruence|].
    rewrite <- app_assoc. eauto 10.
  - destruct (strictNe position _) eqn:Hne; run; [|by left]. rewrite ?He'. run.
    destruct silent; run; [by left|].
    pose proof (getCursorEnumerator_existing
                  (set_cursorEnumerator
                     (Some (enumerator_setPosition
                              (viewOf (set_cursorEnumerator (Some e) c))
                              position e))
                     (set_cursorEnumerator (Some e) c)) _ eq_refl) as He''.
    cbn in He''. rewrite ?He''. run.
    destruct (_eventRaising c) eqn:Hr; run; [|by left].
    right. apply strictNe_true in Hne. repeat split; [congruence|].
    rewrite <- app_assoc. eauto 10.
Qed.

(** ** Coordinate queries *)

Lemma getUtilityEnumerator_returns (c : Display) :
  exists e c', _getUtilityEnumerator c = (Return e, c').
Proof.
  unfold _getUtilityEnumerator, _getEnumerator. run.
  destruct (_utilityEnumerator c); run; eauto.
Qed.

Lemma getItemsStrategy_returns (c : Display) :
  exists k c', _getItemsStrategy c = (Return k, c').
Proof.
  unfold _getItemsStrategy. run. destruct (_composer c); run; eauto.
Qed.

Lemma getItemIndex_returns (c : Display) index :
  exists i c', _getItemIndex index c = (Return i, c').
Proof.
  unfold _getItemIndex. run.
  destruct (getItemsStrategy_returns c) as (k & c' & ->). eauto.
Qed.

Lemma getSourceIndex_returns (c : Display) index :
  exists k c', _getItemsStrategy c = (Return k, c') /\
    _getSourceIndex index c = (Return (result_getCollectionIndex k index), c').
Proof.
  unfold _getSourceIndex. run.
  destruct (getItemsStrategy_returns c) as (k & c' & ->). eauto.
Qed.

Lemma utilitySourceByInternal_returns (c : Display) index :
  exists i c', utilitySourceByInternal index c = (Return i, c').
Proof.
  unfold utilitySourceByInternal. run.
  destruct (getUtilityEnumerator_returns c) as (e & c' & ->). eauto.
Qed.

Lemma utilityInternalBySource_returns (c : Display) index :
  exists i c', utilityInternalBySource index c = (Return i, c').
Proof.
  unfold utilityInternalBySource. run.
  destruct (getUtilityEnumerator_returns c) as (e & c' & ->). eauto.
Qed.

Lemma at_returns (c : Display) index :
  exists v c', at_ index c = (Return v, c').
Proof.
  unfold at_. run.
  destruct (getUtilityEnumerator_returns c) as (e & c' & ->). eauto.
Qed.

Lemma getIndex_returns (c : Display) item :
  exists i c', getIndex item c = (Return i, c').
Proof.
  unfold getIndex, getInstanceId, getIndexByInstanceId. run.
  destruct item; run; eauto.
  destruct (getUtilityEnumerator_returns c) as (e & c' & ->). eauto.
Qed.

Lemma getSourceIndexByIndex_returns (c : Display) index :
  exists i c', getSourceIndexByIndex index c = (Return i, c').
Proof.
  unfold getSourceIndexByIndex. run.
  destruct (utilitySourceByInternal_returns c index) as (s & c' & ->).
  destruct (getSourceIndex_returns c' (indexOrMinusOne s)) as (k & c'' & _ & ->).
  eauto.
Qed.

Lemma getIndexBySourceIndex_returns (c : Display) index :
  exists i c', getIndexBySourceIndex index c = (Return i, c').
Proof.
  unfold getIndexBySourceIndex. run.
  destruct (getItemIndex_returns c index) as (i & c' & ->).
  destruct (utilityInternalBySource_returns c' i) as (s & c'' & ->).
  eauto.
Qed.

Lemma getIndexBySourceItem_returns (c : Display) item :
  exists i c', getIndexBySourceItem item c = (Return i, c').
Proof.
  unfold getIndexBySourceItem. run.
  destruct (strictEq _ _); run; eauto using getIndexBySourceIndex_returns.
Qed.

(** C7: [getIndex], [getSourceIndexByIndex], [getSourceIndexByItem],
    [getIndexBySourceIndex], [getIndexBySourceItem], [getItemBySourceIndex]
    and [getItemBySourceItem] return for every argument, in every state:
    none of them throws.  Where the mapping asked for does not exist, the
    queries of an index return -1 and the queries of an item return
    [undefined]; [getSourceIndexByIndex] hands the -1 to the strategy, which
    is to give it back, as [AbstractStrategy.getCollectionIndex] does. *)
Theorem coordinate_queries_total (c : Display) (item : Val) (index : Z) :
  (returns (getIndex item) c /\
   returns (getSourceIndexByIndex index) c /\
   returns (getSourceIndexByItem item) c /\
   returns (getIndexBySourceIndex index) c /\
   returns (getIndexBySourceItem item) c /\
   returns (getItemBySourceIndex index) c /\
   returns (getItemBySourceItem item) c) /\
  (isCollectionItem item = false ->
   outcomeOf (getIndex item) c = Return (-1)) /\
  (forall sourceIndex composer,
   outcomeOf (utilitySourceByInternal index) c = Return sourceIndex ->
   sourceIndex = IdxUndefined \/ sourceIndex = IdxNull ->
   outcomeOf _getItemsStrategy
     (stateAfter (utilitySourceByInternal index) c) = Return composer ->
   result_getCollectionIndex composer (-1) = -1 ->
   outcomeOf (getSourceIndexByIndex index) c = Return (-1)) /\
  (outcomeOf (getIndex item) c = Return (-1) ->
   outcomeOf (getSourceIndexByItem item) c = Return (-1)) /\
  (forall displayIndex c1 itemIndex,
   _getItemIndex index c = (Return displayIndex, c1) ->
   outcomeOf (utilityInternalBySource displayIndex) c1 = Return itemIndex ->
   itemIndex = IdxUndefined \/ itemIndex = IdxNull ->
   outcomeOf (getIndexBySourceIndex index) c = Return (-1)) /\
  (sourceIndexOf (_collection c) item = -1 ->
   outcomeOf (getIndexBySourceItem item) c = Return (-1)) /\
  (outcomeOf (getIndexBySourceIndex index) c = Return (-1) ->
   outcomeOf (getItemBySourceIndex index) c = Return undefined) /\
  (outcomeOf (getIndexBySourceItem item) c = Return (-1) ->
   outcomeOf (getItemBySourceItem item) c = Return undefined).
Proof.
  unfold returns, outcomeOf, stateAfter.
  split; [|repeat split].
  - repeat split.
    + destruct (getIndex_returns c item) as (i & c' & ->). eauto.
    + destruct (getSourceIndexByIndex_returns c index) as (i & c' & ->). eauto.
    + unfold getSourceIndexByItem. run.
      destruct (getIndex_returns c item) as (i & c' & ->).
      destruct (strictEq i (-1)); run; eauto.
      destruct (getSourceIndexByIndex_returns c' i) as (j & c'' & ->). eauto.
    + destruct (getIndexBySourceIndex_returns c index) as (i & c' & ->). eauto.
    + destruct (getIndexBySourceItem_returns c item) as (i & c' & ->). eauto.
    + unfold getItemBySourceIndex. run.
      destruct (getIndexBySourceIndex_returns c index) as (i & c' & ->).
      destruct (strictEq i (-1)); run; eauto.
      destruct (at_returns c' i) as (v & c'' & ->). eauto.
    + unfold getItemBySourceItem. run.
      destruct (getIndexBySourceItem_returns c item) as (i & c' & ->).
      destruct (strictEq i (-1)); run; eauto.
      destruct (at_returns c' i) as (v & c'' & ->). eauto.
  - intros Hitem. unfold getIndex. run. by rewrite Hitem.
  - intros s k Hs Hunknown Hk Hstrategy. unfold getSourceIndexByIndex. run.
    destruct (utilitySourceByInternal_returns c index) as (s' & c' & Hrun).
    rewrite Hrun in *. run. injection Hs as ->.
    destruct (getSourceIndex_returns c' (indexOrMinusOne s)) as (k' & c'' & Hk' & ->).
    rewrite Hk' in Hk. run. injection Hk as ->.
    destruct Hunknown as [-> | ->]; run; by rewrite Hstrategy.
  - intros Hindex. unfold getSourceIndexByItem. run.
    destruct (getIndex_returns c item) as (i & c' & Hrun).
    rewrite Hrun in *. run. injection Hindex as ->. done.
  - intros d c1 s Hd Hs Hunknown. unfold getIndexBySourceIndex. run.
    rewrite Hd. run.
    destruct (utilityInternalBySource_returns c1 d) as (s' & c' & Hrun').
    rewrite Hrun' in *. run. injection Hs as ->.
    by destruct Hunknown as [-> | ->].
  - intros Hsource. unfold getIndexBySourceItem. run. by rewrite Hsource.
  - intros Hindex. unfold getItemBySourceIndex. run.
    destruct (getIndexBySourceIndex_returns c index) as (i & c' & Hrun).
    rewrite Hrun in *. run. injection Hindex as ->. done.
  - intros Hindex. unfold getItemBySourceItem. run.
    destruct (getIndexBySourceItem_returns c item) as (i & c' & Hrun).
    rewrite Hrun in *. run. injection Hindex as ->. done.
Qed.

(** ** Unique identifiers *)

Lemma append_empty (s : string) : s +:+ "" = s.
Proof.
  induction s as [|a s IH]; [done|].
  change (String a (s +:+ "") = String a s). by rewrite IH.
Qed.

Lemma candidate_inj baseId : Inj (=) (=) (candidate baseId).
Proof.
  assert (forall k, baseId <> suffixed baseId k) as Hbase.
  { intros k Heq. unfold suffixed in Heq.
    rewrite <- (append_empty baseId) in Heq at 1.
    apply (inj (String.app baseId)) in Heq. discriminate. }
  intros [|j] [|k] Heq; simpl in Heq.
  - done.
  - by apply Hbase in Heq.
  - symmetry in Heq. by apply Hbase in Heq.
  - unfold suffixed in Heq.
    apply (inj (String.app baseId)) in Heq.
    apply (inj (String.app "-")) in Heq.
    by apply (inj pretty) in Heq.
Qed.

Lemma searchLoop_first fuel (itemsUid : gset string) baseId count uid :
  searchLoop fuel itemsUid baseId count (candidate baseId count) = Some uid ->
  exists k, (count <= k < count + fuel)%nat /\ uid = candidate baseId k /\
    (uid ∉ itemsUid) /\
    forall j, (count <= j < k)%nat -> (candidate baseId j ∈ itemsUid).
Proof.
  revert count. induction fuel as [|fuel IH]; intros count; simpl; [done|].
  case_bool_decide as Hin.
  - intros Hrun. apply (IH (S count)) in Hrun as (k & Hk & -> & Hfresh & Hbelow).
    exists k. repeat split; [lia..|done|].
    intros j Hj. destruct (decide (j = count)) as [->|]; [done|].
    apply Hbelow. lia.
  - intros [= <-]. exists count. repeat split; [lia..|done|]. lia.
Qed.

Lemma searchLoop_finds fuel (itemsUid : gset string) baseId count k :
  (count <= k < count + fuel)%nat -> candidate baseId k ∉ itemsUid ->
  is_Some (searchLoop fuel itemsUid baseId count (candidate baseId count)).
Proof.
  revert count. induction fuel as [|fuel IH]; intros count Hk Hfresh; simpl; [lia|].
  case_bool_decide as Hin; [|by eexists].
  apply (IH (S count)); [|done].
  destruct (decide (k = count)) as [->|]; [done|lia].
Qed.

(** A finite set cannot hold all of the first [size + 1] candidates. *)
Lemma candidate_fresh_exists (itemsUid : gset string) baseId :
  exists k, (k < S (size itemsUid))%nat /\ candidate baseId k ∉ itemsUid.
Proof.
  destruct (decide (Forall (fun k => candidate baseId k ∈ itemsUid)
                      (seq 0 (S (size itemsUid))))) as [Hall|Hsome].
  - exfalso.
    assert (list_to_set (candidate baseId <$> seq 0 (S (size itemsUid)))
              ⊆ itemsUid) as Hsub.
    { intros uid [k [-> Hk]]%elem_of_list_to_set%list_elem_of_fmap.
      rewrite Forall_forall in Hall. by apply Hall. }
    apply subseteq_size in Hsub.
    rewrite size_list_to_set, length_fmap, length_seq in Hsub; [lia|].
    apply NoDup_fmap_2; [apply candidate_inj | apply NoDup_seq].
  - apply not_Forall_Exists in Hsome; [|solve_decision].
    apply Exists_exists in Hsome as (k & Hk%elem_of_seq & Hfresh).
    exists k. split; [lia | done].
Qed.

Lemma searchItemUid_run (c : Display) item baseId :
  exists uid k,
    _searchItemUid item baseId c =
      (Return uid, set_itemsUid ({[uid]} ∪ _itemsUid c) c) /\
    uid = candidate baseId k /\ (uid ∉ _itemsUid c) /\
    forall j, (j < k)%nat -> (candidate baseId j ∈ _itemsUid c).
Proof.
  unfold _searchItemUid. run.
  destruct (candidate_fresh_exists (_itemsUid c) baseId) as (k & Hk & Hfresh).
  destruct (searchLoop_finds (S (size (_itemsUid c))) (_itemsUid c) baseId 0 k)
    as [uid Hrun]; [lia | done |].
  change baseId with (candidate baseId 0) at 2.
  simpl in Hrun. simpl. rewrite Hrun.
  apply (searchLoop_first (S _) _ _ 0) in Hrun as (k' & _ & -> & ? & Hbelow).
  exists (candidate baseId k'), k'. repeat split; [done|].
  intros j Hj. apply Hbelow. lia.
Qed.

Lemma exctractItemId_state (c : Display) item :
  snd (_exctractItemId item c) = c.
Proof.
  unfold _exctractItemId. run.
  destruct (contents item) as [|?|[]]; try done; by case_bool_decide.
Qed.

Lemma exctractItemId_idProperty (c c' : Display) item :
  _idProperty c' = _idProperty c ->
  fst (_exctractItemId item c') = fst (_exctractItemId item c).
Proof.
  intros Hid. unfold _exctractItemId. run. rewrite Hid.
  destruct (contents item) as [|?|[]]; try done; by case_bool_decide.
Qed.

Lemma getItemUid_memoised (c : Display) item uid :
  _itemToUid c !! instanceId item = Some uid ->
  getItemUid item c = (Return uid, c).
Proof. intros Hmemo. unfold getItemUid. run. by rewrite Hmemo. Qed.

Lemma getItemUid_fresh (c : Display) item baseId :
  _itemToUid c !! instanceId item = None ->
  outcomeOf (_exctractItemId item) c = Return baseId ->
  exists uid k,
    getItemUid item c =
      (Return uid,
       set_itemToUid (<[instanceId item := uid]> (_itemToUid c))
         (set_itemsUid ({[uid]} ∪ _itemsUid c) c)) /\
    uid = candidate baseId k /\ (uid ∉ _itemsUid c) /\
    forall j, (j < k)%nat -> (candidate baseId j ∈ _itemsUid c).
Proof.
  intros Hmemo Hbase. unfold getItemUid, outcomeOf in *. run. rewrite Hmemo.
  pose proof (exctractItemId_state c item) as Hstate.
  destruct (_exctractItemId item c) as [[baseId'| |] c']; simplify_eq/=.
  destruct (searchItemUid_run c item baseId) as (uid & k & -> & Huid).
  run. eauto.
Qed.

Lemma getItemUid_call (c : Display) (item : CollectionItem)
    (baseId : string) :
  outcomeOf (_exctractItemId item) c = Return baseId ->
  uidConsistent c ->
  exists uid,
    outcomeOf (getItemUid item) c = Return uid /\
    let c' := stateAfter (getItemUid item) c in
    getItemUid item c' = (Return uid, c') /\
    _itemToUid c' !! instanceId item = Some uid /\
    (uid ∈ _itemsUid c') /\
    (forall memo, _itemToUid c !! instanceId item = Some memo ->
       uid = memo /\ c' = c) /\
    (_itemToUid c !! instanceId item = None ->
       (uid ∉ _itemsUid c) /\
       _itemsUid c' = {[uid]} ∪ _itemsUid c /\
       _itemToUid c' = <[instanceId item := uid]> (_itemToUid c) /\
       exists k, uid = candidate baseId k /\
         forall j, (j < k)%nat -> (candidate baseId j ∈ _itemsUid c)) /\
    uidConsistent c' /\
    (forall other uid',
       _itemToUid c' !! other = Some uid' -> other <> instanceId item ->
       uid' <> uid).
Proof.
  intros Hbase [Hrecorded Hinjective].
  destruct (_itemToUid c !! instanceId item) as [memo|] eqn:Hmemo.
  - exists memo. unfold outcomeOf, stateAfter.
    rewrite (getItemUid_memoised c item memo Hmemo). simpl.
    repeat split; eauto using getItemUid_memoised; try congruence.
    intros other uid' Hother Hne ->. eauto.
  - destruct (getItemUid_fresh c item baseId Hmemo Hbase)
      as (uid & k & Hrun & Hk & Hfresh & Hbelow).
    exists uid. unfold outcomeOf, stateAfter. rewrite Hrun. simpl.
    assert (forall other uid',
              <[instanceId item:=uid]> (_itemToUid c) !! other = Some uid' ->
              other <> instanceId item -> uid' <> uid) as Hothers.
    { intros other uid' Hother Hne ->.
      rewrite lookup_insert_ne in Hother by done. apply Hrecorded in Hother. done. }
    repeat split; try congruence.
    + apply getItemUid_memoised. simpl. apply lookup_insert_eq.
    + apply lookup_insert_eq.
    + set_solver.
    + eauto.
    + simpl. intros id uid' Hid.
      destruct (decide (id = instanceId item)) as [->|Hne].
      * rewrite lookup_insert_eq in Hid. set_solver.
      * rewrite lookup_insert_ne in Hid by done. apply Hrecorded in Hid. set_solver.
    + simpl. intros id1 id2 uid' H1 H2.
      destruct (decide (id1 = instanceId item)) as [->|Hne1];
        destruct (decide (id2 = instanceId item)) as [->|Hne2]; [done|..].
      * rewrite lookup_insert_eq in H1. injection H1 as <-.
        by apply Hothers in H2.
      * rewrite lookup_insert_eq in H2. injection H2 as <-.
        by apply Hothers in H1.
      * rewrite lookup_insert_ne in H1, H2 by done. eauto.
    + done.
Qed.

Lemma getItemUid_step (c : Display) item baseId :
  outcomeOf (_exctractItemId item) c = Return baseId ->
  exists uid c',
    getItemUid item c = (Return uid, c') /\
    _idProperty c' = _idProperty c /\
    _itemToUid c' !! instanceId item = Some uid /\
    (forall id uid', _itemToUid c !! id = Some uid' ->
       _itemToUid c' !! id = Some uid').
Proof.
  intros Hbase.
  destruct (_itemToUid c !! instanceId item) as [memo|] eqn:Hmemo.
  - exists memo, c. by rewrite (getItemUid_memoised c item memo Hmemo).
  - destruct (getItemUid_fresh c item baseId Hmemo Hbase)
      as (uid & k & -> & _).
    eexists _, _. split; [done|]. simpl. split; [done|].
    split; [apply lookup_insert_eq|].
    intros id uid' Hid. rewrite lookup_insert_ne; [done|congruence].
Qed.

Lemma getItemUids_run (items : list CollectionItem) (c : Display) :
  uidConsistent c ->
  Forall (fun item => exists baseId,
            outcomeOf (_exctractItemId item) c = Return baseId) items ->
  exists uids c',
    getItemUids items c = (Return uids, c') /\
    uidConsistent c' /\
    (forall id uid, _itemToUid c !! id = Some uid ->
       _itemToUid c' !! id = Some uid) /\
    Forall2 (fun item uid => _itemToUid c' !! instanceId item = Some uid)
      items uids.
Proof.
  revert c. induction items as [|item items IH]; intros c Hc Hbase.
  - exists [], c. simpl. run.
    split; [done|]. split; [done|]. split; [done|constructor].
  - apply Forall_cons in Hbase as [[baseId Hitem] Hitems].
    destruct (getItemUid_step c item baseId Hitem)
      as (uid & c1 & Hrun & Hid & Hmemo & Hmono).
    destruct (getItemUid_call c item baseId Hitem Hc)
      as (uid' & Hout & _ & _ & _ & _ & _ & Hc1 & _).
    unfold outcomeOf, stateAfter in Hout, Hc1. rewrite Hrun in Hout, Hc1.
    simpl in Hout, Hc1. 
    destruct (IH c1 Hc1) as (uids & c2 & Hrun2 & Hc2 & Hmono2 & Hall).
    { eapply Forall_impl; [exact Hitems|]. intros other [b Hb].
      exists b. unfold outcomeOf in *.
      by rewrite (exctractItemId_idProperty c c1 other Hid). }
    exists (uid :: uids), c2. simpl. run. rewrite Hrun. run. rewrite Hrun2.
    repeat split; try apply Hc2; eauto.
Qed.

(** C5: for an item whose base identifier can be extracted, [getItemUid]
    returns the base identifier when the set of identifiers does not hold
    it, and otherwise the base identifier with the least suffix -1, -2, ...
    that the set does not hold; the result is put into the set and kept for
    the item, so that a second call returns the same string and changes
    nothing.  Hence the identifiers of a list of items are equal only for
    the same item. *)
Theorem getItemUid_unique (c : Display) :
  uidConsistent c ->
  (forall item baseId,
     outcomeOf (_exctractItemId item) c = Return baseId ->
     exists uid,
       outcomeOf (getItemUid item) c = Return uid /\
       let c' := stateAfter (getItemUid item) c in
       getItemUid item c' = (Return uid, c') /\
       _itemToUid c' !! instanceId item = Some uid /\
       (uid ∈ _itemsUid c') /\
       (forall memo, _itemToUid c !! instanceId item = Some memo ->
          uid = memo /\ c' = c) /\
       (_itemToUid c !! instanceId item = None ->
          (uid ∉ _itemsUid c) /\
          _itemsUid c' = {[uid]} ∪ _itemsUid c /\
          _itemToUid c' = <[instanceId item := uid]> (_itemToUid c) /\
          exists k, uid = candidate baseId k /\
            forall j, (j < k)%nat -> (candidate baseId j ∈ _itemsUid c)) /\
       uidConsistent c') /\
  (forall items,
     Forall (fun item => exists baseId,
               outcomeOf (_exctractItemId item) c = Return baseId) items ->
     exists uids,
       outcomeOf (getItemUids items) c = Return uids /\
       length uids = length items /\
       forall i j item1 item2 uid1 uid2,
         items !! i = Some item1 -> items !! j = Some item2 ->
         uids !! i = Some uid1 -> uids !! j = Some uid2 ->
         (uid1 = uid2 <-> instanceId item1 = instanceId item2)).
Proof.
  intros Hc. split.
  - intros item baseId Hbase.
    destruct (getItemUid_call c item baseId Hbase Hc)
      as (uid & Hout & Hagain & Hmemo & Hin & Hold & Hnew & Hc' & _).
    exists uid. split; [exact Hout|]. intros c'.
    repeat (split; [assumption|]). assumption.
  - intros items Hbase.
    destruct (getItemUids_run items c Hc Hbase)
      as (uids & c' & Hrun & [_ Hinjective] & _ & Hall).
    exists uids. unfold outcomeOf. rewrite Hrun.
    split; [done|]. split; [symmetry; eapply Forall2_length; exact Hall|].
    intros i j item1 item2 uid1 uid2 Hi Hj Hu1 Hu2.
    destruct (Forall2_lookup_l _ _ _ _ _ Hall Hi) as (u1 & Hu1' & H1).
    destruct (Forall2_lookup_l _ _ _ _ _ Hall Hj) as (u2 & Hu2' & H2).
    simplify_eq. split; [intros ->; eauto | congruence].
Qed.

Lemma set_trace_same (c : Display) : set_trace (trace c) c = c.
Proof. by destruct c. Qed.

Lemma trace_set_trace (c : Display) t : trace (set_trace t c) = t.
Proof. done. Qed.

Lemma set_trace_twice (c : Display) t1 t2 :
  set_trace t2 (set_trace t1 c) = set_trace t2 c.
Proof. done. Qed.

(** ** The runs of a list of items *)

Lemma groupRuns_cons item items :
  exists run runs, groupRuns (item :: items) = (item :: run) :: runs.
Proof.
  simpl. destruct (groupRuns items) as [|[|next run] runs]; [by eexists _, _..|].
  destruct (isGroupItem next); by eexists _, _.
Qed.

Lemma groupRuns_pending pending header rest :
  isRun pending -> isGroupItem header = true ->
  groupRuns (pending ++ header :: rest) = pending :: groupRuns (header :: rest).
Proof.
  intros [Hne Htail] Hheader.
  induction pending as [|x pending IH]; [done|].
  destruct pending as [|y pending].
  - change ([x] ++ header :: rest) with (x :: header :: rest).
    destruct (groupRuns_cons header rest) as (run & runs & Hruns).
    change (groupRuns (x :: header :: rest)) with
      (match groupRuns (header :: rest) with
       | [] => [[x]]
       | [] :: runs => [x] :: runs
       | (next :: run) :: runs =>
           if isGroupItem next then [x] :: (next :: run) :: runs
           else (x :: next :: run) :: runs
       end).
    rewrite Hruns, Hheader. done.
  - simpl in Htail. apply Forall_cons in Htail as [Hy Htail].
    change (groupRuns ((x :: y :: pending) ++ header :: rest)) with
      (match groupRuns ((y :: pending) ++ header :: rest) with
       | [] => [[x]]
       | [] :: runs => [x] :: runs
       | (next :: run) :: runs =>
           if isGroupItem next then [x] :: (next :: run) :: runs
           else (x :: next :: run) :: runs
       end).
    rewrite IH; [by rewrite Hy | done | exact Htail].
Qed.

Lemma groupRuns_single pending :
  isRun pending -> groupRuns pending = [pending].
Proof.
  intros [Hne Htail].
  induction pending as [|x pending IH]; [done|].
  destruct pending as [|y pending]; [done|].
  simpl in Htail. apply Forall_cons in Htail as [Hy Htail].
  change (groupRuns (x :: y :: pending)) with
      (match groupRuns (y :: pending) with
       | [] => [[x]]
       | [] :: runs => [x] :: runs
       | (next :: run) :: runs =>
           if isGroupItem next then [x] :: (next :: run) :: runs
           else (x :: next :: run) :: runs
       end).
  rewrite IH; [by rewrite Hy | done | exact Htail].
Qed.

Lemma groupRuns_structure items :
  concat (groupRuns items) = items /\
  Forall isRun (groupRuns items) /\
  Forall startsWithGroup (tl (groupRuns items)).
Proof.
  induction items as [|item items (Hconcat & Hruns & Hheaders)];
    [by repeat constructor|].
  simpl. destruct (groupRuns items) as [|[|next run] runs] eqn:Hrec.
  - simpl in Hconcat. subst items. repeat split; repeat constructor. done.
  - apply Forall_cons in Hruns as [[? _] _]. done.
  - apply Forall_cons in Hruns as [[_ Hrun] Hruns]. simpl in *.
    destruct (isGroupItem next) eqn:Hnext.
    + repeat split; simpl; [by rewrite Hconcat|..].
      * repeat constructor; done.
      * constructor; [|done]. by eexists _, _.
    + repeat split; simpl; [by rewrite <- Hconcat|..].
      * constructor; [|done]. split; [done|]. simpl. by constructor.
      * done.
Qed.

(** ** The loop of [_notifyCollectionChange] *)

Section Split.

Variable action : Action.
Variables newItems oldItems : list CollectionItem.
Variables newItemsIndex oldItemsIndex : Z.

Let packet := packetOfRun action newItems newItemsIndex oldItems oldItemsIndex.
Let notify :=
  notifyPack (Composer:=Composer) (Enumerator:=Enumerator)
    action newItems newItemsIndex oldItems oldItemsIndex.

Lemma groupRuns_of_one_group {G} `{EqDecision G}
    (group : CollectionItem -> G) (items : list CollectionItem) :
  headersMarkGroups group items = true ->
  groupRuns items = runsOfOneGroup group items.
Proof.
  induction items as [|item rest IH]; [done|].
  cbn [headersMarkGroups]. intros [Hmark Hrest]%andb_true_iff.
  specialize (IH Hrest).
  destruct rest as [|next rest']; [done|].
  apply bool_decide_eq_true in Hmark.
  destruct (groupRuns_cons next rest') as (run & runs & Hruns).
  change (groupRuns (item :: next :: rest')) with
    (match groupRuns (next :: rest') with
     | [] => [[item]]
     | [] :: runs => [item] :: runs
     | (next :: run) :: runs =>
         if isGroupItem next then [item] :: (next :: run) :: runs
         else (item :: next :: run) :: runs
     end).
  change (runsOfOneGroup group (item :: next :: rest')) with
    (match runsOfOneGroup group (next :: rest') with
     | [] => [[item]]
     | [] :: runs => [item] :: runs
     | (next :: run) :: runs =>
         if strictEq (group item) (group next)
         then (item :: next :: run) :: runs
         else [item] :: (next :: run) :: runs
     end).
  rewrite <- IH, Hruns, Hmark. unfold strictNe.
  by destruct (strictEq (group item) (group next)).
Qed.

Lemma notifyPack_run (c : Display) start (run : list CollectionItem) :
  notify start (start + length run)%nat c =
  (Return tt,
   set_trace (trace c ++ (packet <$> match run with
                                     | [] => []
                                     | _ => [(start, run)]
                                     end)) c).
Proof.
  unfold notify, notifyPack, packet, packetOfRun, _notifyLater. run.
  destruct run as [|item run]; simpl.
  - replace (start <? start + 0)%nat with false
      by (symmetry; apply Nat.ltb_ge; lia).
    by rewrite app_nil_r, set_trace_same.
  - replace (start <? start + S (length run))%nat with true
      by (symmetry; apply Nat.ltb_lt; lia).
    done.
Qed.

Lemma splitByGroups_run max rest item pending i notifyIndex (c : Display) :
  i = (notifyIndex + length pending)%nat ->
  max = (S i + length rest)%nat ->
  pending = [] \/ isRun pending ->
  splitByGroups notify max (item :: rest) i notifyIndex c =
  (Return tt,
   set_trace
     (trace c ++
      (packet <$> withOffsets notifyIndex
                    (groupRuns (pending ++ item :: rest)))) c).
Proof.
  revert item pending i notifyIndex c.
  induction rest as [|item' rest IH];
    intros item pending i notifyIndex c Hi Hmax Hpending.
  - (* the last item: the pack is flushed *)
    simpl in Hmax. simpl. run.
    replace (i =? max - 1)%nat with true by (symmetry; apply Nat.eqb_eq; lia).
    destruct (isGroupItem item) eqn:Hgroup.
    + rewrite Hi at 1. rewrite notifyPack_run. run.
      replace (i + 1)%nat with (i + length [item])%nat by (simpl; lia).
      rewrite notifyPack_run. run.
      rewrite set_trace_twice, ?trace_set_trace, <- app_assoc.
      destruct Hpending as [-> | Hrun].
      * simpl in *. subst i. by rewrite Nat.add_0_r.
      * rewrite (groupRuns_pending pending item [] Hrun Hgroup).
        destruct pending; [by destruct Hrun|]. by subst i.
    + replace (i + 1)%nat with (notifyIndex + length (pending ++ [item]))%nat
        by (rewrite length_app; simpl; lia).
      rewrite notifyPack_run. run.
      rewrite groupRuns_single.
      * by destruct pending.
      * split; [by destruct pending|].
        destruct Hpending as [-> | [? Htail]]; [constructor|].
        destruct pending; [done|]. simpl in *.
        apply Forall_app. split; [done|]. by repeat constructor.
  - (* an item in the middle *)
    simpl in Hmax.
    change (splitByGroups notify max (item :: item' :: rest) i notifyIndex c)
      with (((if isGroupItem item then notify notifyIndex i else ret tt);;
             (if (i =? max - 1)%nat
              then notify (if isGroupItem item then i else notifyIndex) (i + 1)%nat
              else ret tt);;
             splitByGroups notify max (item' :: rest) (S i)
               (if isGroupItem item then i else notifyIndex)) c).
    run.
    replace (i =? max - 1)%nat with false by (symmetry; apply Nat.eqb_neq; lia).
    destruct (isGroupItem item) eqn:Hgroup.
    + rewrite Hi at 1. rewrite notifyPack_run. run.
      rewrite (IH item' [item] (S i) i); [|simpl; lia|lia|].
      2:{ right. split; [done|constructor]. }
      rewrite set_trace_twice, ?trace_set_trace, <- app_assoc.
      f_equal. f_equal. f_equal.
      destruct Hpending as [-> | Hrun].
      * simpl in *. subst i. by rewrite Nat.add_0_r.
      * rewrite (groupRuns_pending pending item (item' :: rest) Hrun Hgroup).
        destruct pending; [by destruct Hrun|].
        change ([item] ++ item' :: rest) with (item :: item' :: rest).
        by subst i.
    + rewrite (IH item' (pending ++ [item]) (S i) notifyIndex);
        [|rewrite length_app; simpl; lia|lia|].
      * by rewrite <- app_assoc.
      * right. split; [by destruct pending|].
        destruct Hpending as [-> | [? Htail]]; [constructor|].
        destruct pending; [done|]. simpl in *.
        apply Forall_app. split; [done|]. by repeat constructor.
Qed.

End Split.

Lemma handlersChanged_same (handlers : list Val) :
  handlersChanged handlers handlers = false.
Proof.
  induction handlers as [|handler handlers IH]; [done|].
  simpl. by rewrite strictNe_same.
Qed.

(** C3: [setFilter] called with the filters the projection has, the same
    functions in the same order, returns without changing the state of the
    projection, so that nothing is notified; and so does [setSort] called
    with the sort functions the projection has. *)
Theorem setFilter_setSort_same_handlers (c : Display) (args : list Val) :
  (handlersOf args c = readArray (_filter c) c ->
   setFilter args c = (Return tt, c)) /\
  (handlersOf args c = readArray (_sort c) c ->
   setSort args c = (Return tt, c)).
Proof.
  split; intros Hsame.
  - unfold setFilter. run. rewrite Hsame.
    by rewrite Nat.eqb_refl, handlersChanged_same.
  - unfold setSort, _startUpdateSession. run. rewrite Hsame.
    by rewrite Nat.eqb_refl, handlersChanged_same.
Qed.

Lemma heapExtends_readArray (c c' : Display) l :
  heapExtends c c' -> is_Some (heap c !! l) ->
  readArray l c' = readArray l c.
Proof.
  intros [_ Hframe] Hl. unfold readArray. rewrite Hframe; [done|].
  by apply elem_of_dom.
Qed.

Lemma allocArray_run (c : Display) xs :
  exists l, allocArray xs c = (Return l, set_heap (<[l := xs]> (heap c)) c) /\
    l ∉ dom (heap c).
Proof.
  unfold allocArray. eexists. split; [done|]. apply is_fresh.
Qed.

Lemma mutateArray_frame (c0 c : Display) l mutations :
  l ∉ dom (heap c0) -> heapExtends c0 c ->
  exists c',
    forEach mutations (mutateArray l) c = (Return tt, c') /\ heapExtends c0 c'.
Proof.
  intros Hl. revert c.
  induction mutations as [|f mutations IH]; intros c Hc; simpl.
  - by exists c.
  - unfold mutateArray at 1. run. apply IH.
    destruct Hc as [Hc Hframe]. split.
    + simpl. rewrite Hc. done.
    + intros l' Hl'. simpl. rewrite lookup_alter_ne; [auto|]. congruence.
Qed.

Lemma copy_frame (c : Display) (source l : loc)
    (mutations : list (list Val -> list Val)) :
  is_Some (heap c !! _filter c) -> is_Some (heap c !! _sort c) ->
  l ∉ dom (heap c) ->
  let c1 := set_heap (<[l := readArray source c]> (heap c)) c in
  readArray l c1 = readArray source c /\
  heapExtends c c1 /\
  fresh (dom (heap c1)) <> l /\
  exists c2,
    forEach mutations (mutateArray l) c1 = (Return tt, c2) /\
    heapExtends c c2 /\
    readArray (_filter c2) c2 = readArray (_filter c) c /\
    readArray (_sort c2) c2 = readArray (_sort c) c /\
    _filterMap c2 = _filterMap c /\ _sortMap c2 = _sortMap c /\
    _composer c2 = _composer c.
Proof.
  intros Hfilter Hsort Hl c1.
  assert (heapExtends c c1) as Hc1.
  { split; [done|]. intros l' Hl'. simpl.
    rewrite lookup_insert_ne; [done | congruence]. }
  split; [|split; [done|split]].
  - unfold readArray, c1. simpl. by rewrite lookup_insert_eq.
  - intros Heq. pose proof (is_fresh (dom (heap c1))) as Hfresh.
    rewrite Heq in Hfresh. apply Hfresh. simpl. set_solver.
  - destruct (mutateArray_frame c c1 l mutations Hl Hc1) as (c2 & Hrun & Hc2).
    exists c2. split; [done|]. split; [done|].
    pose proof Hc2 as [Heq _]. 
    assert (_filter c2 = _filter c) as Hf by (by rewrite Heq).
    assert (_sort c2 = _sort c) as Hs by (by rewrite Heq).
    rewrite Hf, Hs.
    rewrite !(heapExtends_readArray c c2) by done.
    by rewrite Heq.
Qed.

(** C9: [getFilter] and [getSort] return a new array on each call, with
    the handlers of the projection in it.  Whatever is then done to that
    array, the filters and the sort functions of the projection, its filter
    map, its sort map and its items are as they were. *)
Theorem getFilter_getSort_return_copies (c : Display)
    (mutations : list (list Val -> list Val)) :
  is_Some (heap c !! _filter c) -> is_Some (heap c !! _sort c) ->
  (exists l c1 c2,
     getFilter c = (Return l, c1) /\
     (l ∉ dom (heap c)) /\
     readArray l c1 = readArray (_filter c) c /\
     heapExtends c c1 /\
     (exists l', outcomeOf getFilter c1 = Return l' /\ l' <> l) /\
     forEach mutations (mutateArray l) c1 = (Return tt, c2) /\
     heapExtends c c2 /\
     readArray (_filter c2) c2 = readArray (_filter c) c /\
     readArray (_sort c2) c2 = readArray (_sort c) c /\
     _filterMap c2 = _filterMap c /\ _sortMap c2 = _sortMap c /\
     _composer c2 = _composer c) /\
  (exists l c1 c2,
     getSort c = (Return l, c1) /\
     (l ∉ dom (heap c)) /\
     readArray l c1 = readArray (_sort c) c /\
     heapExtends c c1 /\
     (exists l', outcomeOf getSort c1 = Return l' /\ l' <> l) /\
     forEach mutations (mutateArray l) c1 = (Return tt, c2) /\
     heapExtends c c2 /\
     readArray (_filter c2) c2 = readArray (_filter c) c /\
     readArray (_sort c2) c2 = readArray (_sort c) c /\
     _filterMap c2 = _filterMap c /\ _sortMap c2 = _sortMap c /\
     _composer c2 = _composer c).
Proof.
  intros Hfilter Hsort. split.
  - destruct (allocArray_run c (readArray (_filter c) c)) as (l & Hrun & Hl).
    destruct (copy_frame c (_filter c) l mutations Hfilter Hsort Hl)
      as (Hcopy & Hc1 & Hnext & c2 & Hc2).
    exists l, (set_heap (<[l := readArray (_filter c) c]> (heap c)) c), c2.
    unfold getFilter, outcomeOf. run. rewrite Hrun.
    repeat split; try done; try apply Hc1; try apply Hc2.
    eexists. split; [reflexivity|]. exact Hnext.
  - destruct (allocArray_run c (readArray (_sort c) c)) as (l & Hrun & Hl).
    destruct (copy_frame c (_sort c) l mutations Hfilter Hsort Hl)
      as (Hcopy & Hc1 & Hnext & c2 & Hc2).
    exists l, (set_heap (<[l := readArray (_sort c) c]> (heap c)) c), c2.
    unfold getSort, outcomeOf. run. rewrite Hrun.
    repeat split; try done; try apply Hc1; try apply Hc2.
    eexists. split; [reflexivity|]. exact Hnext.
Qed.

Lemma strictNe_false {A} `{EqDecision A} (a b : A) : strictNe a b = false <-> a = b.
Proof.
  unfold strictNe, strictEq. rewrite negb_false_iff, bool_decide_eq_true. done.
Qed.

(** ** Methods that only read *)

Lemma lazyOnly_refl (c : Display) : lazyOnly c c.
Proof.
  exists (_composer c), (_cursorEnumerator c), (_utilityEnumerator c).
  by destruct c.
Qed.

Lemma lazyOnly_trans (c1 c2 c3 : Display) :
  lazyOnly c1 c2 -> lazyOnly c2 c3 -> lazyOnly c1 c3.
Proof.
  intros (k & e1 & e2 & ->) (k' & e1' & e2' & ->). by exists k', e1', e2'.
Qed.

Lemma readsOnly_ret {A} (a : A) : readsOnly (ret a).
Proof. intros c. exists a, c. split; [done | apply lazyOnly_refl]. Qed.

Lemma readsOnly_gets {A} (f : Display -> A) : readsOnly (gets f).
Proof. intros c. exists (f c), c. split; [done | apply lazyOnly_refl]. Qed.

Lemma readsOnly_bind {A B} (m : Method A) (k : A -> Method B) :
  readsOnly m -> (forall a, readsOnly (k a)) -> readsOnly (m ≫= k).
Proof.
  intros Hm Hk c. destruct (Hm c) as (a & c1 & Hrun & H1).
  destruct (Hk a c1) as (b & c2 & Hrun' & H2).
  exists b, c2. run. rewrite Hrun. split; [done|]. by eapply lazyOnly_trans.
Qed.

Lemma readsOnly_getItemsStrategy : readsOnly _getItemsStrategy.
Proof.
  intros c. unfold _getItemsStrategy. run.
  destruct (_composer c) eqn:Hk; run.
  - eexists _, _. split; [done | apply lazyOnly_refl].
  - eexists _, _. split; [done|].
    exists (Some (createComposer c)), (_cursorEnumerator c), (_utilityEnumerator c).
    by destruct c.
Qed.

Lemma readsOnly_getUtilityEnumerator : readsOnly _getUtilityEnumerator.
Proof.
  intros c. unfold _getUtilityEnumerator, _getEnumerator. run.
  destruct (_utilityEnumerator c) eqn:He; run.
  - eexists _, _. split; [done | apply lazyOnly_refl].
  - eexists _, _. split; [done|].
    exists (_composer c), (_cursorEnumerator c), (Some enumerator_new).
    by destruct c.
Qed.

Create HintDb reads.

#[local] Hint Resolve readsOnly_ret readsOnly_gets readsOnly_getItemsStrategy
  readsOnly_getUtilityEnumerator : reads.

Ltac reads :=
  repeat first
    [ solve [auto 1 with reads nocore]
    | match goal with
      | |- readsOnly (if ?b then _ else _) => destruct b
      end
    | apply readsOnly_bind; [|intros ?] ].

Lemma readsOnly_getItems : readsOnly _getItems.
Proof. unfold _getItems. reads. Qed.

Lemma readsOnly_getItemIndex index : readsOnly (_getItemIndex index).
Proof. unfold _getItemIndex. reads. Qed.

Lemma readsOnly_utilityInternalBySource index :
  readsOnly (utilityInternalBySource index).
Proof. unfold utilityInternalBySource. reads. Qed.

Lemma readsOnly_getIndex item : readsOnly (getIndex item).
Proof.
  unfold getIndex, getInstanceId, getIndexByInstanceId.
  destruct item; simpl; reads.
Qed.

Lemma readsOnly_getItemBySourceItem item : readsOnly (getItemBySourceItem item).
Proof.
  unfold getItemBySourceItem, getIndexBySourceItem, getIndexBySourceIndex,
    _getItemIndex, utilityInternalBySource, at_.
  reads.
Qed.

#[local] Hint Resolve readsOnly_getItems readsOnly_getItemIndex
  readsOnly_utilityInternalBySource readsOnly_getIndex
  readsOnly_getItemBySourceItem : reads.

Lemma readsOnly_getItemsBySourceItems items :
  readsOnly (getItemsBySourceItems items).
Proof. induction items as [|item items IH]; simpl; reads. Qed.

(** ** Selection *)

Lemma set_selection_same (c : Display) : set_selection (selection c) c = c.
Proof. by destruct c. Qed.

Lemma elem_of_selectionWith id selected changed (sel : gset nat) :
  id ∈ selectionWith selected changed sel <->
  if selected then id ∈ instanceId <$> changed \/ id ∈ sel
  else id ∈ sel /\ id ∉ instanceId <$> changed.
Proof.
  unfold selectionWith. destruct selected.
  - rewrite elem_of_union, elem_of_list_to_set. done.
  - rewrite elem_of_difference, elem_of_list_to_set. done.
Qed.

Lemma isSelectedIn_differs (c : Display) x selected :
  isSelectedIn c x <> selected <->
  if selected then instanceId x ∉ selection c else instanceId x ∈ selection c.
Proof.
  unfold isSelectedIn. destruct selected.
  - by rewrite not_true_iff_false, bool_decide_eq_false.
  - by rewrite not_false_iff_true, bool_decide_eq_true.
Qed.

Lemma selectLoop_run (its : list CollectionItem) (selected : bool) :
  forall (acc : list CollectionItem) (c : Display),
  exists changed,
    selectLoop (VItem <$> its) selected acc c =
      (Return (acc ++ changed),
       set_selection (selectionWith selected changed (selection c)) c) /\
    (forall x, x ∈ changed -> x ∈ its /\ isSelectedIn c x <> selected) /\
    (forall x, x ∈ its -> isSelectedIn c x <> selected ->
       (instanceId x ∈ instanceId <$> changed)).
Proof.
  induction its as [|x its IH]; intros acc c.
  - exists []. simpl. run. rewrite app_nil_r.
    replace (selectionWith selected [] (selection c)) with (selection c).
    2:{ apply set_eq. intros id. rewrite elem_of_selectionWith. simpl.
        destruct selected; set_solver. }
    rewrite set_selection_same. split; [done|].
    split; [intros y Hy | intros y Hy _]; by apply elem_of_nil in Hy.
  - simpl. unfold isSelected at 1, setSelected at 1. run.
    destruct (strictNe (bool_decide (instanceId x ∈ selection c)) selected)
      eqn:Hflag; run.
    + apply (proj1 (strictNe_true _ _)) in Hflag.
      change (bool_decide (instanceId x ∈ selection c))
        with (isSelectedIn c x) in Hflag.
      match goal with
      | |- context [selectLoop _ _ _ ?c1] =>
          destruct (IH (acc ++ [x]) c1) as (changed & Hrun & Hin & Hall)
      end.
      exists (x :: changed). split; [|split].
      * etrans; [exact Hrun|]. rewrite <- app_assoc. simpl. f_equal.
        unfold set_selection. simpl. f_equal.
        apply set_eq. intros id. rewrite !elem_of_selectionWith.
        rewrite fmap_cons. destruct selected; set_solver.
      * intros y [->|Hy]%elem_of_cons; [split; [left|done]|].
        apply Hin in Hy as [Hy Hflag']. split; [by right|].
        apply isSelectedIn_differs. apply isSelectedIn_differs in Hflag'.
        simpl in Hflag'. destruct selected; set_solver.
      * intros y [->|Hy]%elem_of_cons Hflag'; [set_solver|].
        rewrite fmap_cons. apply elem_of_cons.
        destruct (decide (instanceId y = instanceId x)) as [Heq|Hne];
          [by left|right].
        apply Hall; [done|].
        apply isSelectedIn_differs. apply isSelectedIn_differs in Hflag'.
        simpl. destruct selected; set_solver.
    + destruct (IH acc c) as (changed & Hrun & Hin & Hall).
      apply (proj1 (strictNe_false _ _)) in Hflag.
      exists changed. split; [exact Hrun|]. split.
      * intros y Hy. apply Hin in Hy as [Hy ?]. split; [by right|done].
      * intros y [->|Hy]%elem_of_cons Hflag'; [by destruct Hflag'|]. by apply Hall.
Qed.

Lemma lazyOnly_fields (c c' : Display) :
  lazyOnly c c' ->
  selection c' = selection c /\ trace c' = trace c /\
  _eventRaising c' = _eventRaising c /\
  needNotifyCollectionChange c' = needNotifyCollectionChange c /\
  _group c' = _group c.
Proof. by intros (k & e1 & e2 & ->). Qed.

Lemma notifiesReplace_lazy (c c1 c' : Display) its selected :
  lazyOnly c c1 -> notifiesReplace c1 its selected c' ->
  notifiesReplace c its selected c'.
Proof.
  intros (Hsel & Htrace & Hraising & _)%lazyOnly_fields.
  unfold notifiesReplace, isSelectedIn, beforeChange, afterChange.
  by rewrite Hsel, Htrace, Hraising.
Qed.

Lemma notifyBefore_run (c : Display) :
  _notifyBeforeCollectionChange c =
  (Return tt, set_trace (trace c ++ beforeChange c) c).
Proof.
  unfold _notifyBeforeCollectionChange, isEventRaising, _notifyLater, beforeChange.
  run. destruct (_eventRaising c); run; [done|].
  rewrite app_nil_r. by destruct c.
Qed.

Lemma notifyAfter_run (c : Display) :
  _notifyAfterCollectionChange c =
  (Return tt, set_trace (trace c ++ afterChange c) c).
Proof.
  unfold _notifyAfterCollectionChange, isEventRaising, _notify, afterChange.
  run. destruct (_eventRaising c); run; [done|].
  rewrite app_nil_r. by destruct c.
Qed.

(** Without a session the packet is not split. *)
Lemma notifyCollectionChange_whole (c : Display) action newItems newItemsIndex
    oldItems oldItemsIndex :
  needNotifyCollectionChange c = true ->
  _notifyCollectionChange (Session:=Session) action newItems newItemsIndex
    oldItems oldItemsIndex None c =
  (Return tt,
   set_trace
     (trace c ++
      [NotifyLater
         (onCollectionChange action newItems newItemsIndex
            oldItems oldItemsIndex)]) c).
Proof.
  intros Hneed.
  unfold _notifyCollectionChange, _isNeedNotifyCollectionChange, _isGrouped,
    _notifyLater.
  run. by rewrite Hneed.
Qed.

Lemma rev_reverse {A} (l : list A) : rev l = reverse l.
Proof. unfold reverse. apply rev_alt. Qed.

Lemma setSelectedItems_run (c : Display) (its : list CollectionItem)
    (selected : bool) :
  needNotifyCollectionChange c = true ->
  (exists x, x ∈ its /\ isSelectedIn c x <> selected) ->
  exists c',
    _setSelectedItems (VItem <$> its) selected c = (Return tt, c') /\
    notifiesReplace c its selected c'.
Proof.
  intros Hneed (x & Hx & Hflag).
  unfold _setSelectedItems. run. rewrite rev_reverse, <- fmap_reverse.
  destruct (selectLoop_run (reverse its) selected [] c)
    as (changed & Hrun & Hin & Hall).
  rewrite Hrun. simpl.
  destruct changed as [|first changed].
  { exfalso. specialize (Hall x). rewrite elem_of_reverse in Hall.
    specialize (Hall Hx Hflag). by apply elem_of_nil in Hall. }
  match goal with
  | |- context [getIndex ?v ?c1] =>
      destruct (readsOnly_getIndex v c1) as (index & c2 & Hindex & Hlazy)
  end.
  rewrite Hindex. simpl.
  destruct Hlazy as (k & e1 & e2 & ->).
  rewrite notifyBefore_run. simpl.
  rewrite notifyCollectionChange_whole by done. simpl.
  rewrite notifyAfter_run. simpl.
  eexists. split; [reflexivity|].
  exists (first :: changed), index. split; [done|].
  split; [|split; [|split]].
  - intros y Hy. apply Hin in Hy as [Hy ?]. by rewrite elem_of_reverse in Hy.
  - intros y Hy. apply Hall. by rewrite elem_of_reverse.
  - done.
  - simpl. unfold beforeChange, afterChange. simpl.
    by rewrite <- !app_assoc.
Qed.

Lemma getItems_run (c : Display) :
  exists c1, _getItems c = (Return (view_items (viewOf c)), c1) /\ lazyOnly c c1.
Proof.
  unfold _getItems, _getItemsStrategy, viewOf. run.
  destruct (_composer c) eqn:Hk; run.
  - eexists. split; [done | apply lazyOnly_refl].
  - eexists. split; [done|].
    exists (Some (createComposer c)), (_cursorEnumerator c), (_utilityEnumerator c).
    by destruct c.
Qed.

Lemma invertLoop_run (pending : list CollectionItem) (c : Display) :
  exists selection', invertLoop pending c = (Return tt, set_selection selection' c).
Proof.
  revert c. induction pending as [|item pending IH]; intros c; simpl.
  - exists (selection c). run. by rewrite set_selection_same.
  - unfold isSelected at 1, setSelected at 1. run.
    match goal with
    | |- context [invertLoop _ ?c1] => destruct (IH c1) as (sel & ->)
    end.
    by exists sel.
Qed.

(** C4, amended: when the changes of the collection are listened to,
    [setSelectedItemsAll] and [setSelectedItems], the latter for source
    items that all have an item in the projection, notify one packet of
    action [replace] that carries the items whose flag has changed, if
    there is one; [invertSelectedItemsAll] notifies one packet of action
    [reset] that carries all the items. *)
Theorem selection_change_notifications (c : Display) (selected : bool) :
  needNotifyCollectionChange c = true ->
  ((exists x, x ∈ view_items (viewOf c) /\ isSelectedIn c x <> selected) ->
   exists c',
     setSelectedItemsAll selected c = (Return tt, c') /\
     notifiesReplace c (view_items (viewOf c)) selected c') /\
  (forall sourceItems its,
     outcomeOf (getItemsBySourceItems sourceItems) c = Return (VItem <$> its) ->
     (exists x, x ∈ its /\ isSelectedIn c x <> selected) ->
     exists c',
       setSelectedItems sourceItems selected c = (Return tt, c') /\
       notifiesReplace c its selected c') /\
  (exists c',
     invertSelectedItemsAll c = (Return tt, c') /\
     trace c' =
       trace c ++ beforeChange c ++
       [NotifyLater
          (onCollectionChange ACTION_RESET
             (view_items (viewOf c)) 0 (view_items (viewOf c)) 0)] ++
       afterChange c).
Proof.
  intros Hneed. split; [|split].
  - intros Hchange.
    destruct (getItems_run c) as (c1 & Hitems & Hlazy).
    pose proof (lazyOnly_fields c c1 Hlazy) as (Hsel & _ & _ & Hneed1 & _).
    destruct (setSelectedItems_run c1 (view_items (viewOf c)) selected)
      as (c' & Hrun & Hreplace).
    { by rewrite Hneed1. }
    { unfold isSelectedIn. by rewrite Hsel. }
    exists c'. unfold setSelectedItemsAll. run. rewrite Hitems.
    split; [exact Hrun|]. by eapply notifiesReplace_lazy.
  - intros sourceItems its Hfound Hchange.
    destruct (readsOnly_getItemsBySourceItems sourceItems c)
      as (found & c1 & Hitems & Hlazy).
    unfold outcomeOf in Hfound. rewrite Hitems in Hfound.
    injection Hfound as ->.
    pose proof (lazyOnly_fields c c1 Hlazy) as (Hsel & _ & _ & Hneed1 & _).
    destruct (setSelectedItems_run c1 its selected) as (c' & Hrun & Hreplace).
    { by rewrite Hneed1. }
    { unfold isSelectedIn. by rewrite Hsel. }
    exists c'. unfold setSelectedItems. run. rewrite Hitems.
    split; [exact Hrun|]. by eapply notifiesReplace_lazy.
  - destruct (getItems_run c) as (c1 & Hitems & (k & e1 & e2 & ->)).
    unfold invertSelectedItemsAll. run. rewrite Hitems. simpl.
    match goal with
    | |- context [invertLoop ?p ?c1] =>
        destruct (invertLoop_run p c1) as (sel & ->)
    end.
    simpl. rewrite notifyBefore_run. simpl.
    rewrite notifyCollectionChange_whole by done. simpl.
    rewrite notifyAfter_run. simpl.
    eexists. split; [reflexivity|]. simpl.
    unfold beforeChange, afterChange. simpl. by rewrite <- !app_assoc.
Qed.

Ltac destruct_run :=
  match goal with
  | |- context [match ?m ?c with _ => _ end] =>
      lazymatch type of (m c) with
      | (Outcome _ * _)%type => destruct (m c) as [[?|?|] ?] eqn:?
      end
  end.

Lemma notifySourceCollectionItemChange_stages (c : Display) item index properties :
  _notifySourceCollectionItemChange item index properties c =
  match itemChangeAnalysis item index properties c with
  | (Return (Some a), c1) =>
      _checkItemsDiff (change_session a) (change_items a) (change_state a)
        (Some (itemChangeBeforeCheck (change_item a)
                 (change_indexBefore a) (change_indexAfter a))) c1
  | (Return None, c1) => (Return tt, c1)
  | (Throw e, c1) => (Throw e, c1)
  | (Diverge, c1) => (Diverge, c1)
  end.
Proof.
  unfold _notifySourceCollectionItemChange, itemChangeAnalysis.
  unfold mbind, M_bind, bind.
  do 7 (destruct_run; try reflexivity).
  match goal with |- context [negb ?raising] => destruct raising end;
    simpl; [|reflexivity].
  do 3 (destruct_run; try reflexivity).
Qed.

(** ** The packets of a grouped projection *)

Lemma notifyCollectionChange_grouped (c : Display) action
    newItems newItemsIndex oldItems oldItemsIndex (session : option Session) :
  needNotifyCollectionChange c = true ->
  truthy (_group c) = true ->
  is_Some session ->
  action <> ACTION_RESET ->
  _notifyCollectionChange action newItems newItemsIndex oldItems oldItemsIndex
    session c =
  (Return tt,
   set_trace
     (trace c ++
      (packetOfRun action newItems newItemsIndex oldItems oldItemsIndex <$>
       withOffsets 0
         (groupRuns (if strictEq action ACTION_REMOVE
                     then oldItems else newItems)))) c).
Proof.
  intros Hneed Hgroup Hsession Haction.
  unfold _notifyCollectionChange, _isNeedNotifyCollectionChange, _isGrouped.
  unfold mbind, M_bind, bind, gets. rewrite Hneed.
  cbn -[truthy groupRuns splitByGroups strictEq bool_decide].
  rewrite Hgroup, bool_decide_eq_true_2 by done.
  unfold strictEq at 1. rewrite bool_decide_eq_false_2 by done.
  cbn [negb orb].
  destruct (if strictEq action ACTION_REMOVE then oldItems else newItems)
    as [|item rest].
  - simpl. run. by rewrite app_nil_r, set_trace_same.
  - by rewrite (splitByGroups_run _ _ _ _ _ _ rest item [] 0%nat 0%nat);
      [|..|left].
Qed.

Lemma withOffsets_slice {A} (pre : list A) (runs : list (list A)) :
  Forall (fun run =>
            slice (pre ++ concat runs) (fst run) (fst run + length (snd run))
            = snd run)
    (withOffsets (length pre) runs).
Proof.
  revert pre. induction runs as [|run runs IH]; intros pre; [constructor|].
  simpl. constructor.
  - simpl. unfold slice.
    replace (length pre + length run - length pre)%nat with (length run) by lia.
    rewrite drop_app_length. by rewrite take_app_length.
  - specialize (IH (pre ++ run)). rewrite length_app in IH.
    by rewrite <- app_assoc in IH.
Qed.

(** C2, amended: while the projection is grouped, in an update session and
    for an action other than [reset], [_notifyCollectionChange] notifies one
    packet per run of the notified items, those removed for a removal and
    the new ones otherwise.  A run ends where the next group header of the
    list begins: the list is cut at its headers, and the groups of the
    items are not looked at.  So the runs are the maximal runs of items of
    one group when the headers of the list mark the groups, that is when
    an item is a header exactly where the group changes.  A packet carries
    the slice of the new and of the old items at the place of the run; the
    index of the new items, and that of the old ones, is offset by the
    start of the run when the list it goes with is not empty, and is 0 when
    that list is empty. *)
Theorem notifyCollectionChange_splits_by_group (c : Display) action
    newItems newItemsIndex oldItems oldItemsIndex (session : option Session) :
  needNotifyCollectionChange c = true ->
  truthy (_group c) = true ->
  is_Some session ->
  action <> ACTION_RESET ->
  let items := if strictEq action ACTION_REMOVE then oldItems else newItems in
  let runs := groupRuns items in
  _notifyCollectionChange action newItems newItemsIndex oldItems oldItemsIndex
    session c =
  (Return tt,
   set_trace
     (trace c ++
      (packetOfRun action newItems newItemsIndex oldItems oldItemsIndex <$>
       withOffsets 0 runs)) c) /\
  concat runs = items /\
  Forall isRun runs /\
  Forall startsWithGroup (tl runs) /\
  Forall (fun run =>
            slice items (fst run) (fst run + length (snd run)) = snd run)
    (withOffsets 0 runs) /\
  (forall group : CollectionItem -> Contents,
     headersMarkGroups group items = true ->
     runs = runsOfOneGroup group items).
Proof.
  intros Hneed Hgroup Hsession Haction items runs.
  destruct (groupRuns_structure items) as (Hconcat & Hruns & Hheaders).
  split; [by apply notifyCollectionChange_grouped|].
  do 3 (split; [done|]). split.
  - pose proof (withOffsets_slice [] runs) as Hslice.
    simpl in Hslice. unfold runs in Hslice at 1. by rewrite Hconcat in Hslice.
  - intros group Hmark. by apply groupRuns_of_one_group.
Qed.

(** ** The change of one item *)

Lemma removeFirst_NoDup {A} `{EqDecision A} (x : A) (xs : list A) :
  NoDup xs -> x ∉ removeFirst x xs.
Proof.
  induction 1 as [|z xs Hz Hxs IH]; simpl; [by intros ?%elem_of_nil|].
  unfold strictEq. case_bool_decide as Heq; [by subst|].
  intros [->|Hx]%elem_of_cons; [done | by apply IH].
Qed.

Lemma js_gt_moved (a b : JsIndex) :
  js_gt a b = true -> strictNe a b = true /\ js_lt a b = false.
Proof.
  unfold js_lt, js_gt. intros Hgt. split.
  - apply strictNe_true. intros ->.
    destruct (idxToNumber b); [|done]. apply Z.ltb_lt in Hgt. lia.
  - destruct (idxToNumber a), (idxToNumber b); try done.
    apply Z.ltb_lt in Hgt. apply Z.ltb_ge. lia.
Qed.

(** Moved up: the callback leaves the item out. *)
Lemma beforeCheck_moved_up internalItem indexBefore indexAfter diff :
  js_gt indexBefore indexAfter = true -> NoDup diff ->
  internalItem ∉ itemChangeBeforeCheck internalItem indexBefore indexAfter diff.
Proof.
  intros Hgt Hdiff. destruct (js_gt_moved _ _ Hgt) as [Hmoved Hlt].
  unfold itemChangeBeforeCheck. rewrite Hmoved, Hgt, Hlt.
  case_bool_decide as Hin; simpl.
  - by apply removeFirst_NoDup.
  - done.
Qed.

(** Moved down, or not moved: the callback puts the item in. *)
Lemma beforeCheck_kept internalItem indexBefore indexAfter diff :
  js_lt indexBefore indexAfter = true \/ indexBefore = indexAfter ->
  internalItem ∈ itemChangeBeforeCheck internalItem indexBefore indexAfter diff.
Proof.
  unfold itemChangeBeforeCheck. intros [Hlt | <-].
  - destruct (js_gt_moved indexAfter indexBefore Hlt) as [Hmoved Hgt].
    replace (strictNe indexBefore indexAfter) with true.
    2:{ symmetry. apply strictNe_true. apply strictNe_true in Hmoved. congruence. }
    rewrite Hlt.
    change (js_lt indexAfter indexBefore)
      with (js_gt indexBefore indexAfter) in Hgt.
    rewrite Hgt. case_bool_decide as Hin; simpl; [done|].
    apply elem_of_app. right. by apply list_elem_of_singleton.
  - rewrite strictNe_same. simpl.
    case_bool_decide as Hin; simpl; [done|].
    apply elem_of_app. right. by apply list_elem_of_singleton.
Qed.

Lemma getItemsState_run (items : list CollectionItem) (c : Display) :
  _getItemsState items c = (Return (itemStateIn c <$> items), c).
Proof.
  induction items as [|item items IH]; [done|].
  simpl. unfold _getItemState at 1, isSelected at 1. run. by rewrite IH.
Qed.

Lemma getItemsDiff_run (before after : list SessionItemState) (c : Display) :
  (length after <= length before)%nat ->
  exists changed,
    _getItemsDiff before after c = (Return changed, c) /\
    sublist changed (state_item <$> after).
Proof.
  revert before. induction after as [|itemNow after IH]; intros before Hlen.
  - exists []. split; [reflexivity | constructor].
  - destruct before as [|itemThen before]; [simpl in Hlen; lia|].
    destruct (IH before) as (changed & Hrun & Hsub); [simpl in Hlen; lia|].
    simpl. run. rewrite Hrun.
    destruct (_ || _); eexists; (split; [done|]); simpl.
    + by apply sublist_skip.
    + by apply sublist_cons.
Qed.

Lemma elem_of_concat {A} (x : A) (ls : list (list A)) :
  x ∈ concat ls <-> exists l, x ∈ l /\ l ∈ ls.
Proof.
  induction ls as [|l0 ls IH]; simpl.
  - split; [by intros ?%elem_of_nil | by intros (? & _ & ?%elem_of_nil)].
  - rewrite elem_of_app, IH. split.
    + intros [Hx|(l & Hx & Hl)]; [exists l0; split; [done|by left]|].
      exists l. split; [done|by right].
    + intros (l & Hx & [->|Hl]%elem_of_cons); [by left|]. right. eauto.
Qed.

Lemma withOffsets_elem {A} (runs : list (list A)) start :
  (forall offset run, (offset, run) ∈ withOffsets start runs -> run ∈ runs) /\
  (forall run, run ∈ runs -> exists offset, (offset, run) ∈ withOffsets start runs).
Proof.
  revert start. induction runs as [|run0 runs IH]; intros start; simpl.
  - split; [intros ? ? ?%elem_of_nil | intros ? ?%elem_of_nil]; done.
  - destruct (IH (start + length run0)%nat) as [IH1 IH2]. split.
    + intros offset run [[= -> ->]|Hin]%elem_of_cons; [by left|].
      right. eauto.
    + intros run [->|Hin]%elem_of_cons; [eexists; by left|].
      destruct (IH2 run Hin) as [offset ?]. exists offset. by right.
Qed.

(** The packets of one pack of changed items: they are made of items of
    the pack and, when somebody listens, every item of the pack is in one
    of them. *)
Lemma notifyChange_pack (c : Display) (pack : list CollectionItem) (index : Z)
    (session : option Session) :
  exists emitted,
    _notifyCollectionChange ACTION_CHANGE pack index pack index session c =
      (Return tt, set_trace (trace c ++ emitted) c) /\
    (forall n, n ∈ emitted ->
       exists items i j,
         n = NotifyLater (onCollectionChange ACTION_CHANGE items i items j) /\
         forall y, y ∈ items -> y ∈ pack) /\
    (needNotifyCollectionChange c = true ->
     forall x, x ∈ pack ->
       exists items i j,
         NotifyLater (onCollectionChange ACTION_CHANGE items i items j)
           ∈ emitted /\ x ∈ items).
Proof.
  destruct (needNotifyCollectionChange c) eqn:Hneed.
  2:{ exists []. unfold _notifyCollectionChange, _isNeedNotifyCollectionChange.
      unfold mbind, M_bind, bind, gets. rewrite Hneed. simpl.
      rewrite app_nil_r, set_trace_same.
      split; [done|]. split; [by intros ? ?%elem_of_nil | done]. }
  destruct (decide (is_Some session /\ truthy (_group c) = true))
    as [[Hsession Hgroup]|Hwhole].
  - rewrite notifyCollectionChange_grouped by done.
    change (strictEq ACTION_CHANGE ACTION_REMOVE) with false. cbv iota.
    eexists. split; [reflexivity|].
    destruct (groupRuns_structure pack) as (Hconcat & _ & _).
    pose proof (withOffsets_slice [] (groupRuns pack)) as Hslice.
    simpl in Hslice. rewrite Hconcat in Hslice.
    rewrite Forall_forall in Hslice.
    destruct (withOffsets_elem (groupRuns pack) 0) as [Hruns Hoffsets].
    split.
    + intros n [[offset run] [-> Hrun]]%list_elem_of_fmap.
      pose proof (Hslice _ Hrun) as Hs. cbn [fst snd] in Hs.
      unfold packetOfRun. cbn [fst snd]. rewrite Hs.
      eexists _, _, _. split; [reflexivity|].
      intros y Hy. rewrite <- Hconcat. apply elem_of_concat.
      exists run. split; [done|]. by eapply Hruns.
    + intros _ x Hx. rewrite <- Hconcat in Hx.
      apply elem_of_concat in Hx as (run & Hx & Hrun).
      destruct (Hoffsets run Hrun) as [offset Hoffset].
      exists run. eexists _, _. split; [|done].
      apply list_elem_of_fmap. exists (offset, run). split; [|done].
      pose proof (Hslice _ Hoffset) as Hs. cbn [fst snd] in Hs.
      unfold packetOfRun. cbn [fst snd]. by rewrite Hs.
  - exists [NotifyLater (onCollectionChange ACTION_CHANGE pack index pack index)].
    split; [|split].
    + unfold _notifyCollectionChange, _isNeedNotifyCollectionChange, _isGrouped.
      unfold mbind, M_bind, bind, gets. rewrite Hneed.
      cbn -[truthy bool_decide].
      destruct session as [session|]; simpl; [|done].
      destruct (truthy (_group c)) eqn:Hgroup; [|done].
      destruct Hwhole. split; [by eexists | done].
    + intros n ->%list_elem_of_singleton. by eexists _, _, _.
    + intros _ x Hx. eexists _, _, _. split; [by apply list_elem_of_singleton|done].
Qed.

Lemma forEach_packs (packs : list (list CollectionItem * Z))
    (session : option Session) (c : Display) :
  exists emitted,
    forEach packs (fun '(pack, index) =>
      _notifyCollectionChange ACTION_CHANGE pack index pack index session) c =
      (Return tt, set_trace (trace c ++ emitted) c) /\
    (forall n, n ∈ emitted ->
       exists pack index items i j,
         (pack, index) ∈ packs /\
         n = NotifyLater (onCollectionChange ACTION_CHANGE items i items j) /\
         forall y, y ∈ items -> y ∈ pack) /\
    (needNotifyCollectionChange c = true ->
     forall pack index x, (pack, index) ∈ packs -> x ∈ pack ->
       exists items i j,
         NotifyLater (onCollectionChange ACTION_CHANGE items i items j)
           ∈ emitted /\ x ∈ items).
Proof.
  revert c. induction packs as [|[pack index] packs IH]; intros c.
  - exists []. simpl. unfold ret. rewrite app_nil_r, set_trace_same.
    split; [done|]. split; [by intros ? ?%elem_of_nil|].
    by intros _ ? ? ? ?%elem_of_nil.
  - destruct (notifyChange_pack c pack index session)
      as (emitted1 & Hrun1 & Hfrom1 & Hcover1).
    destruct (IH (set_trace (trace c ++ emitted1) c))
      as (emitted2 & Hrun2 & Hfrom2 & Hcover2).
    exists (emitted1 ++ emitted2).
    split; [|split].
    + simpl. unfold mbind, M_bind, bind. rewrite Hrun1, Hrun2.
      by rewrite set_trace_twice, trace_set_trace, <- app_assoc.
    + intros n [Hn|Hn]%elem_of_app.
      * destruct (Hfrom1 n Hn) as (items & i & j & -> & Hitems).
        exists pack, index, items, i, j. split; [by left | done].
      * destruct (Hfrom2 n Hn)
          as (pack' & index' & items & i & j & Hpack & -> & Hitems).
        exists pack', index', items, i, j. split; [by right | done].
    + intros Hneed pack' index' x [[= -> ->]|Hpack]%elem_of_cons Hx.
      * destruct (Hcover1 Hneed x Hx) as (items & i & j & Hn & Hitems).
        exists items, i, j. split; [|done]. apply elem_of_app. by left.
      * destruct (Hcover2 Hneed pack' index' x Hpack Hx)
          as (items & i & j & Hn & Hitems).
        exists items, i, j. split; [|done]. apply elem_of_app. by right.
Qed.

Lemma analyzeImportantChange_state raising (items : list CollectionItem)
    index properties (c c' : Display) state :
  analyzeImportantChange raising items index properties c = (Return state, c') ->
  state = None \/ exists c0 : Display, state = Some (itemStateIn c0 <$> items).
Proof.
  unfold analyzeImportantChange. unfold mbind, M_bind, bind, gets, mret, M_ret, ret.
  cbn beta iota.
  destruct (existsb _ properties); [|intros [= <- _]; by left].
  destruct raising.
  - rewrite getItemsState_run. cbn beta iota.
    destruct (_reAnalize _ _ c) as [[?|?|] ?]; intros [= <- _]. right. by eexists.
  - cbn beta iota.
    destruct (_reAnalize _ _ c) as [[?|?|] ?]; intros [= <- _]. by left.
Qed.

Ltac destruct_run_in H :=
  match type of H with
  | context [match ?m ?c with _ => _ end] =>
      lazymatch type of (m c) with
      | (Outcome _ * _)%type => destruct (m c) as [[?|?|] ?] eqn:?
      end
  end.

Lemma itemChangeAnalysis_state item index properties (c c1 : Display) a :
  itemChangeAnalysis item index properties c = (Return (Some a), c1) ->
  change_state a = None \/
  exists c0 : Display,
    change_state a = Some (itemStateIn c0 <$> change_items a).
Proof.
  unfold itemChangeAnalysis. unfold mbind, M_bind, bind. intros Hrun.
  do 7 (destruct_run_in Hrun; try discriminate Hrun).
  match type of Hrun with context [negb ?raising] => destruct raising end;
    cbn beta iota delta [negb] in Hrun; [|discriminate Hrun].
  do 3 (destruct_run_in Hrun; try discriminate Hrun).
  injection Hrun as <- _. simpl.
  eapply analyzeImportantChange_state. eassumption.
Qed.

Lemma diffOfState_returns (state : option (list SessionItemState))
    (items : list CollectionItem) (c : Display) :
  state = None \/ (exists c0 : Display, state = Some (itemStateIn c0 <$> items)) ->
  exists changed,
    diffOfState state items c = (Return changed, c) /\ sublist changed items.
Proof.
  intros [->|[c0 ->]]; simpl.
  - exists []. split; [done|]. apply sublist_nil_l.
  - unfold mbind, M_bind, bind. rewrite getItemsState_run.
    destruct (getItemsDiff_run (itemStateIn c0 <$> items)
                (itemStateIn c <$> items) c) as (changed & Hrun & Hsub).
    { by rewrite !length_fmap. }
    exists changed. split; [done|].
    rewrite <- list_fmap_compose in Hsub.
    replace (state_item ∘ itemStateIn c <$> items) with items in Hsub; [done|].
    clear. induction items as [|item items IH]; [done|]. simpl. by f_equal.
Qed.

Lemma packetItems_lifecycle (c : Display) n :
  n ∈ beforeChange c \/ n ∈ afterChange c -> packetItems n = [].
Proof.
  unfold beforeChange, afterChange.
  destruct (_eventRaising c);
    intros [Hn|Hn]; try (by apply elem_of_nil in Hn);
    by apply list_elem_of_singleton in Hn as ->.
Qed.

(** C1: when the change of an item of the source has been analysed and the
    packets of the changed items are made, an item that has moved up is in
    none of the packets notified from then on; an item that has moved down,
    or has not moved, is in one of the [change] packets, if the changes of
    the collection are listened to.  The items of the projection are
    distinct, and the packs made of the changed items hold the item exactly
    when it is among them. *)
Theorem item_change_packets item index properties (c c1 : Display)
    (a : ItemChange) (x : CollectionItem) :
  itemChangeAnalysis item index properties c = (Return (Some a), c1) ->
  change_item a = VItem x ->
  NoDup (change_items a) ->
  packsHold (stateAfter _notifyBeforeCollectionChange c1)
    (itemChangeDiff a c1) x ->
  exists emitted c',
    _notifySourceCollectionItemChange item index properties c =
      (Return tt, c') /\
    trace c' = trace c1 ++ emitted /\
    (js_gt (change_indexBefore a) (change_indexAfter a) = true ->
     forall n, n ∈ emitted -> x ∉ packetItems n) /\
    (needNotifyCollectionChange c1 = true ->
     js_lt (change_indexBefore a) (change_indexAfter a) = true \/
     change_indexBefore a = change_indexAfter a ->
     exists items i j,
       (NotifyLater (onCollectionChange ACTION_CHANGE items i items j)
          ∈ emitted) /\ (x ∈ items)).
Proof.
  intros Hanalysis Hitem Hnodup Hpacks.
  rewrite notifySourceCollectionItemChange_stages, Hanalysis.
  destruct (diffOfState_returns (change_state a) (change_items a) c1)
    as (changed & Hdiff & Hsub).
  { by eapply itemChangeAnalysis_state. }
  unfold itemChangeDiff, outcomeOf in Hpacks. rewrite Hdiff in Hpacks.
  cbn [fst] in Hpacks.
  unfold stateAfter in Hpacks. rewrite notifyBefore_run in Hpacks.
  cbn [snd] in Hpacks.
  unfold _checkItemsDiff. unfold mbind, M_bind, bind. rewrite Hdiff.
  cbn beta iota. rewrite Hitem in *.
  set (diff := itemChangeBeforeCheck (VItem x) (change_indexBefore a)
                 (change_indexAfter a) (VItem <$> changed)) in *.
  assert (NoDup (VItem <$> changed)) as Hnodup'.
  { apply NoDup_fmap_2; [by intros ? ? [= ->]|]. by eapply sublist_NoDup. }
  assert (js_gt (change_indexBefore a) (change_indexAfter a) = true ->
          VItem x ∉ diff) as Hout.
  { intros Hup. by apply beforeCheck_moved_up. }
  assert (js_lt (change_indexBefore a) (change_indexAfter a) = true \/
          change_indexBefore a = change_indexAfter a ->
          VItem x ∈ diff) as Hin.
  { apply beforeCheck_kept. }
  clearbody diff. clear Hnodup'.
  destruct diff as [|v diff'].
  - exists [], c1. simpl. rewrite app_nil_r.
    split; [done|]. split; [done|]. split.
    + by intros _ n ?%elem_of_nil.
    + intros _ Hkept. by apply Hin, elem_of_nil in Hkept.
  - set (diff := v :: diff') in *.
    change (0 <? length diff)%nat with true.
    cbn beta iota. rewrite notifyBefore_run. cbn beta iota.
    unfold gets at 1. cbn beta iota.
    set (c2 := set_trace (trace c1 ++ beforeChange c1) c1) in *.
    destruct (forEach_packs (extractPacksByList c2 diff) (change_session a) c2)
      as (emitted & Hrun & Hfrom & Hcover).
    rewrite Hrun. cbn beta iota. rewrite notifyAfter_run.
    eexists (beforeChange c1 ++ emitted ++ afterChange _), _.
    split; [reflexivity|]. split.
    { rewrite !trace_set_trace. unfold c2. rewrite trace_set_trace.
      by rewrite <- !app_assoc. }
    split.
    + intros Hup n Hn Hx.
      apply elem_of_app in Hn as [Hn|Hn];
        [rewrite (packetItems_lifecycle c1 n) in Hx by (by left);
         by apply elem_of_nil in Hx|].
      apply elem_of_app in Hn as [Hn|Hn].
      2:{ rewrite (packetItems_lifecycle _ n) in Hx by (right; exact Hn).
          by apply elem_of_nil in Hx. }
      destruct (Hfrom n Hn) as (pack & idx & items & i & j & Hpack & -> & Hitems).
      simpl in Hx.
      assert (x ∈ items) as Hx' by (apply elem_of_app in Hx; tauto).
      apply (Hout Hup). apply Hpacks. exists pack, idx.
      split; [done|]. by apply Hitems.
    + intros Hneed Hkept.
      apply Hin, Hpacks in Hkept as (pack & idx & Hpack & Hx).
      destruct (Hcover Hneed pack idx x Hpack Hx) as (items & i & j & Hn & Hitems).
      exists items, i, j. split; [|done].
      apply elem_of_app. right. apply elem_of_app. by left.
Qed.

End Properties.

(** * Properties of the upkeep of the projection *)

Section Upkeep.

Context {Composer Enumerator Session : Type}.
Context `{!ItemsStrategyComposer Composer}.
Context `{!CollectionEnumerator Enumerator}.
Context `{!DisplayEnvironment (Composer := Composer)
            (Enumerator := Enumerator) (Session := Session)}.
Context `{!ItemsStrategySplice (Composer := Composer)}.
Context `{!CollectionEnumeration (Enumerator := Enumerator)}.

Abbreviation Display := (@Collection Composer Enumerator).
Abbreviation Method := (@M Composer Enumerator).
Abbreviation finishes :=
  (finishes (Composer := Composer) (Enumerator := Enumerator)).

(** Run the monadic operations of a method. *)
Ltac run :=
  unfold mbind, M_bind, bind, mret, M_ret, ret, gets, modify, throw in *;
  simpl in *.

Lemma list_eq_nil_elem {A} (l : list A) : (forall x, x ∉ l) -> l = [].
Proof.
  destruct l as [|x l]; [done|]. intros Hall. destruct (Hall x). by left.
Qed.

Lemma list_fmap_id_elem {A} (f : A -> A) (l : list A) :
  (forall x, x ∈ l -> f x = x) -> f <$> l = l.
Proof.
  induction l as [|x l IH]; intros Hall; [done|]. simpl.
  rewrite Hall by (by left). f_equal. apply IH. intros y Hy. apply Hall.
  by right.
Qed.

Lemma list_fmap_ext_elem {A B} (f g : A -> B) (l : list A) :
  (forall x, x ∈ l -> f x = g x) -> f <$> l = g <$> l.
Proof.
  induction l as [|x l IH]; intros Hall; [done|]. simpl.
  rewrite Hall by (by left). f_equal. apply IH. intros y Hy. apply Hall.
  by right.
Qed.

(** ** Arrays *)

Lemma indexOfFrom_found {A} `{EqDecision A} (xs : list A) (x : A) position :
  x ∈ xs ->
  exists i : nat,
    indexOfFrom xs x position = position + Z.of_nat i /\
    xs !! i = Some x /\
    forall j, (j < i)%nat -> xs !! j <> Some x.
Proof.
  revert position. induction xs as [|y xs IH]; intros position Hx.
  - by apply elem_of_nil in Hx.
  - simpl. unfold strictEq. case_bool_decide as Heq.
    + subst y. exists 0%nat. split; [lia|]. split; [done|]. lia.
    + apply elem_of_cons in Hx as [->|Hx]; [done|].
      destruct (IH (position + 1) Hx) as (i & Hi & Hlookup & Hfirst).
      exists (S i). split; [lia|]. split; [done|].
      intros [|j] Hj; simpl; [congruence|]. apply Hfirst. lia.
Qed.

Lemma indexOfFrom_absent {A} `{EqDecision A} (xs : list A) (x : A) position :
  x ∉ xs -> indexOfFrom xs x position = -1.
Proof.
  revert position. induction xs as [|y xs IH]; intros position Hx; [done|].
  simpl. unfold strictEq. apply not_elem_of_cons in Hx as [Hne Hx].
  rewrite bool_decide_eq_false_2 by congruence. by apply IH.
Qed.

Lemma indexOf_elem {A} `{EqDecision A} (xs : list A) (x : A) :
  (-1 <? indexOf xs x) = true <-> x ∈ xs.
Proof.
  unfold indexOf. destruct (decide (x ∈ xs)) as [Hx|Hx].
  - destruct (indexOfFrom_found xs x 0 Hx) as (i & -> & _).
    split; [done|]. intros _. apply Z.ltb_lt. lia.
  - rewrite indexOfFrom_absent by done. done.
Qed.

Lemma indexOf_lookup {A} `{EqDecision A} (xs : list A) (x : A) :
  x ∈ xs -> xs !! Z.to_nat (indexOf xs x) = Some x.
Proof.
  intros Hx. unfold indexOf.
  destruct (indexOfFrom_found xs x 0 Hx) as (i & -> & Hlookup & _).
  by rewrite Z.add_0_l, Nat2Z.id.
Qed.

Lemma indexOf_NoDup {A} `{EqDecision A} (xs : list A) (x : A) (i : nat) :
  NoDup xs -> xs !! i = Some x -> indexOf xs x = Z.of_nat i.
Proof.
  intros Hnodup Hi. unfold indexOf.
  destruct (indexOfFrom_found xs x 0) as (j & -> & Hj & _).
  { by eapply list_elem_of_lookup_2. }
  rewrite Z.add_0_l. f_equal. by eapply NoDup_lookup.
Qed.

(** ** The sort map without the indices of a range *)

Lemma delete_NoDup_filter {A} `{EqDecision A} (l : list A) (p : nat) (x : A) :
  NoDup l -> l !! p = Some x -> delete p l = filter (fun v => v <> x) l.
Proof.
  intros Hnodup. revert p. induction Hnodup as [|y l Hy Hnodup IH]; intros p Hp.
  - done.
  - destruct p as [|p]; simpl in *.
    + injection Hp as ->. rewrite filter_cons_False by (intros Hne; by apply Hne).
      symmetry. clear IH Hnodup.
      induction l as [|z l IH]; [done|].
      apply not_elem_of_cons in Hy as [Hne Hy].
      rewrite filter_cons_True by congruence. f_equal. by apply IH.
    + rewrite filter_cons_True.
      * f_equal. by apply IH.
      * intros ->. apply Hy. by eapply list_elem_of_lookup_2.
Qed.

Lemma filter_all {A} (P : A -> Prop) `{forall x, Decision (P x)} (l : list A) :
  (forall x, x ∈ l -> P x) -> filter P l = l.
Proof.
  induction l as [|x l IH]; intros Hall; [done|].
  rewrite filter_cons_True by (apply Hall; by left).
  f_equal. apply IH. intros y Hy. apply Hall. by right.
Qed.

(** Cutting out positions from the last to the first cuts out the values
    that were at these positions. *)
Lemma delete_descending (l : list Z) (positions : list nat) :
  NoDup l ->
  StronglySorted (fun a b => (b < a)%nat) positions ->
  foldl (fun sortMap position => delete position sortMap) l positions =
  filter (fun v => v ∉ omap (fun position => l !! position) positions) l.
Proof.
  intros Hnodup Hsorted. revert l Hnodup.
  induction Hsorted as [|p positions Hsorted IH Hbelow]; intros l Hnodup.
  - simpl. symmetry. apply filter_all. intros x _. apply not_elem_of_nil.
  - cbn [foldl]. cbn beta. rewrite IH.
    2:{ eapply sublist_NoDup; [done|]. apply sublist_delete. }
    assert (omap (fun position => delete p l !! position) positions =
            omap (fun position => l !! position) positions) as ->.
    { clear IH Hsorted. induction positions as [|q positions IH]; [done|].
      apply Forall_cons in Hbelow as [Hq Hbelow]. cbn [omap list_omap].
      rewrite list_lookup_delete_lt by done. fold (@omap list _ nat Z).
      by rewrite IH. }
    destruct (l !! p) as [x|] eqn:Hp.
    + rewrite (delete_NoDup_filter l p x) by done.
      rewrite list_filter_filter. apply list_filter_iff.
      intros v. cbn [omap list_omap]. rewrite Hp.
      fold (@omap list _ nat Z). rewrite not_elem_of_cons. tauto.
    + cbn [omap list_omap]. rewrite Hp. fold (@omap list _ nat Z).
      rewrite delete_take_drop.
      apply lookup_ge_None in Hp.
      rewrite take_ge, drop_ge, app_nil_r by lia. done.
Qed.

Lemma collectToRemove_positions (sortMap indices : list Z)
    (toRemove : list nat) (removed : gmap nat Z) (p : nat) :
  p ∈ fst (collectToRemove sortMap indices toRemove removed) <->
  p ∈ toRemove \/
  exists index, index ∈ indices /\ index ∈ sortMap /\
    indexOf sortMap index = Z.of_nat p.
Proof.
  revert toRemove removed.
  induction indices as [|index indices IH]; intros toRemove removed; simpl.
  - split; [by left|]. intros [?|(? & ?%elem_of_nil & _)]; done.
  - destruct (-1 <? indexOf sortMap index) eqn:Hfound.
    + apply indexOf_elem in Hfound as Hin.
      rewrite IH, elem_of_app, list_elem_of_singleton. split.
      * intros [[?| ->]|(index' & ? & ? & ?)]; [by left|right|right].
        -- exists index. split; [by left|]. split; [done|].
           destruct (indexOfFrom_found sortMap index 0 Hin) as (i & Hi & _).
           unfold indexOf. rewrite Hi. lia.
        -- exists index'. split; [by right|done].
      * intros [?|(index' & [->|?]%elem_of_cons & ? & Hp)]; [by left; left|..].
        -- left. right. rewrite Hp. by rewrite Nat2Z.id.
        -- right. by exists index'.
    + rewrite IH. split.
      * intros [?|(index' & ? & ? & ?)]; [by left|right].
        exists index'. split; [by right|done].
      * intros [?|(index' & [->|?]%elem_of_cons & Hin & Hp)]; [by left|..].
        -- apply indexOf_elem in Hin. congruence.
        -- right. by exists index'.
Qed.

Lemma collectToRemove_NoDup (sortMap indices : list Z)
    (toRemove : list nat) (removed : gmap nat Z) :
  NoDup indices -> NoDup toRemove ->
  (forall p, p ∈ toRemove -> forall index, index ∈ indices ->
     sortMap !! p <> Some index) ->
  NoDup (fst (collectToRemove sortMap indices toRemove removed)).
Proof.
  intros Hindices. revert toRemove removed.
  induction Hindices as [|index indices Hnew Hindices IH];
    intros toRemove removed HtoRemove Hother; [done|].
  simpl. destruct (-1 <? indexOf sortMap index) eqn:Hfound.
  - apply indexOf_elem in Hfound as Hin.
    pose proof (indexOf_lookup sortMap index Hin) as Hlookup.
    apply IH.
    + apply NoDup_app. split; [done|]. split; [|apply NoDup_singleton].
      intros p Hp ->%list_elem_of_singleton.
      eapply Hother; [done| |done]. by left.
    + intros p [Hp| ->%list_elem_of_singleton]%elem_of_app index' Hindex'.
      * apply Hother; [done | by right].
      * rewrite Hlookup. intros [= ->]. done.
  - apply IH; [done|]. intros p Hp index' Hindex'.
    apply Hother; [done | by right].
Qed.

Lemma collectToRemove_removed (sortMap indices : list Z)
    (toRemove : list nat) (removed : gmap nat Z) (p : nat) (v : Z) :
  (forall q w, removed !! q = Some w -> q ∈ toRemove /\ sortMap !! q = Some w) ->
  (forall q, q ∈ toRemove -> is_Some (sortMap !! q) -> is_Some (removed !! q)) ->
  let result := collectToRemove sortMap indices toRemove removed in
  snd result !! p = Some v <-> p ∈ fst result /\ sortMap !! p = Some v.
Proof.
  revert toRemove removed.
  induction indices as [|index indices IH]; intros toRemove removed Hsound Hfull.
  - simpl. split; [by apply Hsound|].
    intros [Hp Hv]. destruct (Hfull p Hp) as [w Hw]; [by eexists|].
    destruct (Hsound p w Hw) as [_ Hw']. congruence.
  - simpl. destruct (-1 <? indexOf sortMap index) eqn:Hfound; [|by apply IH].
    apply indexOf_elem in Hfound as Hin.
    rewrite (indexOf_lookup sortMap index Hin). simpl.
    apply IH.
    + intros q w. rewrite elem_of_app, list_elem_of_singleton.
      destruct (decide (q = Z.to_nat (indexOf sortMap index))) as [->|Hne].
      * rewrite lookup_insert_eq. intros [= <-].
        split; [by right | by apply indexOf_lookup].
      * rewrite lookup_insert_ne by done. intros Hq.
        destruct (Hsound q w Hq). split; [by left | done].
    + intros q [Hq| ->%list_elem_of_singleton]%elem_of_app Hsome.
      * destruct (decide (q = Z.to_nat (indexOf sortMap index))) as [->|Hne].
        -- rewrite lookup_insert_eq. by eexists.
        -- rewrite lookup_insert_ne by done. by apply Hfull.
      * rewrite lookup_insert_eq. by eexists.
Qed.

Lemma StronglySorted_strict (positions : list nat) :
  NoDup positions -> StronglySorted Nat.le positions ->
  StronglySorted lt positions.
Proof.
  intros Hnodup Hsorted.
  induction Hsorted as [|p positions Hsorted IH Hall]; [constructor|].
  apply NoDup_cons in Hnodup as [Hp Hnodup].
  constructor; [by apply IH|].
  rewrite Forall_forall in *. intros q Hq.
  specialize (Hall q Hq). assert (p <> q) by (intros ->; done).
  unfold Nat.le in Hall. lia.
Qed.

Lemma merge_sort_descending (positions : list nat) :
  NoDup positions ->
  StronglySorted (fun a b => (b < a)%nat)
    (reverse (merge_sort Nat.le positions)).
Proof.
  intros Hnodup.
  assert (StronglySorted lt (merge_sort Nat.le positions)) as Hsorted.
  { apply StronglySorted_strict.
    - by rewrite merge_sort_Permutation.
    - apply StronglySorted_merge_sort.
      + intros a b c. unfold Nat.le. lia.
      + intros a b. unfold Nat.le. lia. }
  apply Sorted_StronglySorted.
  { intros a b c. lia. }
  apply StronglySorted_Sorted in Hsorted.
  apply (Sorted_reverse lt) in Hsorted. exact Hsorted.
Qed.

(** ** Running the methods *)

Lemma reIndex_run (c : Display) :
  exists cursor utility,
    _reIndex c =
    (Return tt, set_utilityEnumerator utility (set_cursorEnumerator cursor c)).
Proof.
  unfold _reIndex, _getCursorEnumerator, _getUtilityEnumerator, _getEnumerator.
  run. destruct (_cursorEnumerator c); simpl;
    destruct (_utilityEnumerator c); simpl; eauto.
Qed.

Lemma filter_ext_elem {A} (P Q : A -> Prop) `{forall x, Decision (P x)}
    `{forall x, Decision (Q x)} (l : list A) :
  (forall x, x ∈ l -> P x <-> Q x) -> filter P l = filter Q l.
Proof.
  induction l as [|x l IH]; intros Hall; [done|].
  rewrite !filter_cons, IH.
  - pose proof (Hall x ltac:(by left)).
    destruct (decide (P x)), (decide (Q x)); tauto.
  - intros y Hy. apply Hall. by right.
Qed.

Lemma removeFromSortMap_run (start count : Z) (c : Display) :
  NoDup (_sortMap c) ->
  exists removed cursor utility,
    _removeFromSortMap (Some start) (Some count) c =
    (Return removed,
     set_utilityEnumerator utility
       (set_cursorEnumerator cursor
          (set_sortMap
             ((fun value => if start <=? value then value - count else value)
                <$> filter (fun value => ~ (start <= value < start + count))
                      (_sortMap c)) c))) /\
    forall position value,
      removed !! position = Some value <->
      _sortMap c !! position = Some value /\ start <= value < start + count.
Proof.
  intros Hnodup. unfold _removeFromSortMap.
  pose proof (collectToRemove_positions (_sortMap c) (seqZ start count) [] ∅)
    as Hpositions.
  pose proof (collectToRemove_NoDup (_sortMap c) (seqZ start count) [] ∅)
    as HtoRemove.
  pose proof (collectToRemove_removed (_sortMap c) (seqZ start count) [] ∅)
    as Hremoved.
  run.
  destruct (collectToRemove (_sortMap c) (seqZ start count) [] ∅)
    as [toRemove removed]. simpl in *.
  assert (forall position : nat,
            position ∈ toRemove <->
            exists value, _sortMap c !! position = Some value /\
                          start <= value < start + count) as Hmember.
  { intros position. rewrite Hpositions. split.
    - intros [[]%elem_of_nil|(index & Hindex & Hin & Hat)].
      exists index. split.
      + rewrite <- (Nat2Z.id position), <- Hat. by apply indexOf_lookup.
      + apply elem_of_seqZ in Hindex. lia.
    - intros (value & Hat & Hrange). right. exists value.
      split; [apply elem_of_seqZ; lia|].
      split; [by eapply list_elem_of_lookup_2|].
      by apply indexOf_NoDup. }
  specialize (HtoRemove (NoDup_seqZ _ _) (NoDup_nil_2)).
  rewrite delete_descending; [|done|].
  2:{ apply merge_sort_descending. apply HtoRemove.
      by intros p []%elem_of_nil. }
  match goal with
  | |- context [_reIndex ?s] =>
      destruct (reIndex_run s) as (cursor & utility & ->)
  end.
  exists removed, cursor, utility. split.
  - match goal with
    | |- context [filter ?P (_sortMap c)] =>
        assert (filter P (_sortMap c) =
                filter (fun value => ~ (start <= value < start + count))
                  (_sortMap c)) as ->; [|done]
    end.
    apply filter_ext_elem. intros value Hin.
    rewrite list_elem_of_omap.
    setoid_rewrite elem_of_reverse.
    setoid_rewrite merge_sort_Permutation.
    split.
    + intros Hnot Hrange.
      apply list_elem_of_lookup_1 in Hin as [position Hat].
      apply Hnot. exists position. split; [|done].
      apply Hmember. by exists value.
    + intros Hnot (position & Hposition & Hat).
      apply Hmember in Hposition as (value' & Hat' & Hrange).
      apply Hnot. congruence.
  - intros position value. rewrite Hremoved.
    + rewrite Hmember. split.
      * intros [(value' & Hat & Hrange) Hat']. split; [done|]. congruence.
      * intros [Hat Hrange]. split; [|done]. by exists value.
    + intros q w. by rewrite lookup_empty.
    + by intros q []%elem_of_nil.
Qed.

Lemma shift_seqZ (start count n : Z) :
  0 <= start -> 0 <= count -> start + count <= n ->
  (fun value => if start <=? value then value - count else value)
    <$> filter (fun value => ~ (start <= value < start + count)) (seqZ 0 n) =
  seqZ 0 (n - count).
Proof.
  intros Hstart Hcount Hfinish.
  replace n with (start + (count + (n - start - count))) at 1 by lia.
  rewrite !seqZ_app by lia. rewrite !filter_app, !fmap_app.
  rewrite (filter_all _ (seqZ 0 start)).
  2:{ intros value Hvalue%elem_of_seqZ. lia. }
  rewrite (filter_all _ (seqZ (0 + start + count) _)).
  2:{ intros value Hvalue%elem_of_seqZ. lia. }
  assert (filter (fun value => ~ (start <= value < start + count))
            (seqZ (0 + start) count) = []) as ->.
  { apply list_eq_nil_elem. intros value [Hnot Hvalue%elem_of_seqZ]%list_elem_of_filter.
    lia. }
  replace (n - count) with (start + (n - start - count)) by lia.
  rewrite seqZ_app by lia. simpl. f_equal.
  - apply list_fmap_id_elem. intros value Hvalue%elem_of_seqZ.
    rewrite (proj2 (Z.leb_gt _ _)); lia.
  - replace (seqZ (0 + start) (n - start - count))
      with (Z.add (- count) <$> seqZ (0 + start + count) (n - start - count)).
    2:{ rewrite fmap_add_seqZ. f_equal. lia. }
    apply list_fmap_ext_elem. intros value Hvalue%elem_of_seqZ.
    rewrite (proj2 (Z.leb_le _ _)); lia.
Qed.

(** X1: [_removeFromSortMap(start, count)] on a sort map without
    duplicates returns; it takes the indices from [start] up to, and
    without, [start + count] out of the sort map, lowers the indices that
    are left and not below [start] by [count], and keeps the others and the
    order; the object it returns holds, by position, the entries of the
    old sort map that it took out, and no others. *)
Theorem removeFromSortMap_cuts_range (start count : Z) (c : Display) :
  NoDup (_sortMap c) ->
  exists removed,
    outcomeOf (_removeFromSortMap (Some start) (Some count)) c =
      Return removed /\
    _sortMap (stateAfter (_removeFromSortMap (Some start) (Some count)) c) =
      (fun value => if start <=? value then value - count else value)
        <$> filter (fun value => ~ (start <= value < start + count))
              (_sortMap c) /\
    forall position value,
      removed !! position = Some value <->
      _sortMap c !! position = Some value /\ start <= value < start + count.
Proof.
  intros Hnodup.
  destruct (removeFromSortMap_run start count c Hnodup)
    as (removed & cursor & utility & Hrun & Hremoved).
  exists removed. unfold outcomeOf, stateAfter. rewrite Hrun. done.
Qed.

(** X2: a sort map that orders the indices of [n] items orders, after
    [_removeFromSortMap(start, count)] for a range of these items, the
    indices of the [n - count] items that are left. *)
Theorem removeFromSortMap_keeps_permutation (start count n : Z) (c : Display) :
  _sortMap c ≡ₚ seqZ 0 n ->
  0 <= start -> 0 <= count -> start + count <= n ->
  _sortMap (stateAfter (_removeFromSortMap (Some start) (Some count)) c)
    ≡ₚ seqZ 0 (n - count).
Proof.
  intros Hsort Hstart Hcount Hfinish.
  destruct (removeFromSortMap_run start count c)
    as (removed & cursor & utility & Hrun & _).
  { rewrite Hsort. apply NoDup_seqZ. }
  unfold stateAfter. rewrite Hrun. simpl.
  rewrite Hsort. by rewrite shift_seqZ.
Qed.

(** ** The filter map *)

Lemma set_filterMap_same (c : Display) : set_filterMap (_filterMap c) c = c.
Proof. by destruct c. Qed.

Lemma filterMapGet_set (filterMap : list (option bool)) (index : Z)
    (value : option bool) (other : Z) :
  0 <= index ->
  filterMapGet (filterMapSet filterMap index value) other =
  if decide (other = index) then value else filterMapGet filterMap other.
Proof.
  intros Hindex. unfold filterMapGet, filterMapSet, arrayGet.
  rewrite (proj2 (Z.ltb_ge index 0)) by lia.
  destruct (other <? 0) eqn:Hother.
  { apply Z.ltb_lt in Hother. by rewrite decide_False by lia. }
  apply Z.ltb_ge in Hother.
  destruct (Z.to_nat index <? length filterMap)%nat eqn:Hlength.
  - apply Nat.ltb_lt in Hlength. destruct (decide (other = index)) as [->|Hne].
    + by rewrite list_lookup_insert_eq.
    + rewrite list_lookup_insert_ne by lia. done.
  - apply Nat.ltb_ge in Hlength.
    destruct (decide (other = index)) as [->|Hne].
    + rewrite lookup_app_r by done.
      rewrite lookup_app_r by (rewrite length_replicate; lia).
      rewrite length_replicate.
      by replace (_ - _ - _)%nat with 0%nat by lia.
    + destruct (decide (Z.to_nat other < length filterMap)%nat).
      * by rewrite lookup_app_l.
      * rewrite lookup_app_r by lia.
        rewrite (lookup_ge_None_2 filterMap) by lia.
        destruct (decide (Z.to_nat other < Z.to_nat index)%nat).
        -- rewrite lookup_app_l by (rewrite length_replicate; lia).
           rewrite lookup_replicate_2 by lia. done.
        -- rewrite lookup_app_r by (rewrite length_replicate; lia).
           rewrite length_replicate. rewrite lookup_ge_None_2; [done|].
           simpl. lia.
Qed.

Lemma applyMatch_run (match_ : bool) (index : Z) (c : Display) :
  0 <= index ->
  exists applied filterMap,
    applyMatch match_ index c = (Return applied, set_filterMap filterMap c) /\
    forall other,
      filterMapGet filterMap other =
      if decide (other = index)
      then appliedMatch match_ (filterMapGet (_filterMap c) index)
      else filterMapGet (_filterMap c) other.
Proof.
  intros Hindex. unfold applyMatch. run.
  assert (forall old, filterMapGet (_filterMap c) index = old ->
    exists filterMap,
      (Return false, c) = (Return false, set_filterMap filterMap c) /\
      forall other,
        filterMapGet filterMap other =
        if decide (other = index) then old
        else filterMapGet (_filterMap c) other) as Hkept.
  { intros old Hold. exists (_filterMap c).
    rewrite set_filterMap_same. split; [done|].
    intros other. by destruct (decide (other = index)) as [->|]. }
  unfold strictEq, strictNe, strictEq, appliedMatch.
  destruct (filterMapGet (_filterMap c) index) as [[]|] eqn:Hold;
    destruct match_; simpl.
  - exists false. by apply Hkept.
  - eexists true, _. split; [done|].
    intros other. by rewrite filterMapGet_set.
  - eexists true, _. split; [done|].
    intros other. by rewrite filterMapGet_set.
  - exists false. by apply Hkept.
  - eexists true, _. split; [done|].
    intros other. by rewrite filterMapGet_set.
  - exists false. by apply Hkept.
Qed.

Lemma isMatch_accepts (filters : list Val) (item : CollectionItem)
    (index position : Z) (hasMembers : option bool) (c : Display) :
  Forall (fun filter => isFunction filter = true) filters ->
  isMatch filters (Some item) index position hasMembers c =
  (Return (accepts filters item index position hasMembers), c).
Proof.
  induction 1 as [|filter filters Hfilter _ IH]; [done|].
  destruct filter; try done. simpl.
  destruct (callFilter _ _ _ _ _ _); [apply IH | done].
Qed.

Lemma inRange_spec (start finish index : Z) :
  inRange start finish index = true <-> start <= index < finish.
Proof. unfold inRange. rewrite andb_true_iff, Z.leb_le, Z.ltb_lt. tauto. Qed.

Lemma outOfRange_spec (start finish index : Z) :
  (index <? start) || (finish <=? index) = negb (inRange start finish index).
Proof.
  unfold inRange.
  destruct (Z.ltb_spec index start), (Z.leb_spec finish index),
    (Z.leb_spec start index), (Z.ltb_spec index finish); simpl; lia.
Qed.

(** The second loop of [_reFilter]. *)
Lemma clearLoop_run (processed : gset Z) (indices : list Z) (c : Display) :
  Forall (fun index => 0 <= index) indices ->
  exists filterMap,
    forEach indices
      (fun index =>
         if bool_decide (index ∈ processed) then ret tt
         else modify (fun c =>
                set_filterMap (filterMapSet (_filterMap c) index None) c)) c =
      (Return tt, set_filterMap filterMap c) /\
    forall other,
      filterMapGet filterMap other =
      if decide (other ∈ indices /\ other ∉ processed) then None
      else filterMapGet (_filterMap c) other.
Proof.
  intros Hindices. revert c.
  induction Hindices as [|index indices Hindex _ IH]; intros c.
  - exists (_filterMap c). cbn [forEach]. unfold ret.
    rewrite set_filterMap_same. split; [done|].
    intros other. rewrite decide_False; [done|].
    intros [[]%elem_of_nil _].
  - cbn [forEach]. unfold mbind, M_bind, bind.
    case_bool_decide as Hprocessed;
      [change (ret tt c) with (Return tt, c)
      |unfold modify at 1]; cbn beta iota.
    + destruct (IH c) as (filterMap & -> & Hget).
      exists filterMap. split; [done|]. intros other. rewrite Hget.
      destruct (decide (other ∈ indices /\ other ∉ processed)) as [Hin|Hin].
      * rewrite decide_True; [done|]. rewrite elem_of_cons. tauto.
      * rewrite decide_False; [done|].
        intros [[->|?]%elem_of_cons ?]; tauto.
    + destruct (IH (set_filterMap (filterMapSet (_filterMap c) index None) c))
        as (filterMap & -> & Hget).
      exists filterMap. split; [done|]. intros other. rewrite Hget.
      cbn [_filterMap set_filterMap].
      destruct (decide (other ∈ indices /\ other ∉ processed)) as [Hin|Hin].
      * rewrite decide_True; [done|]. rewrite elem_of_cons. tauto.
      * rewrite filterMapGet_set by done.
        destruct (decide (other = index)) as [->|Hne].
        -- rewrite decide_True; [done|]. rewrite elem_of_cons. tauto.
        -- rewrite decide_False; [done|].
           intros [[->|?]%elem_of_cons ?]; tauto.
Qed.

(** [isMatch] and [applyMatch] on the remembered group. *)
Lemma matchPrevGroup_run (filters : list Val) (pass : FilterPass)
    (c : Display) :
  Forall (fun filter => isFunction filter = true) filters ->
  (forall group groupIndex groupPosition,
     prevGroup pass = Some (group, groupIndex, groupPosition) ->
     0 <= groupIndex) ->
  exists changed' filterMap,
    matchPrevGroup filters pass c =
      (Return changed', set_filterMap filterMap c) /\
    (forall group groupIndex groupPosition,
       prevGroup pass = Some (group, groupIndex, groupPosition) ->
       filterMapGet filterMap groupIndex =
       appliedMatch
         (accepts filters group groupIndex groupPosition
            (Some (prevGroupHasMembers pass)))
         (filterMapGet (_filterMap c) groupIndex)) /\
    (forall index,
       (forall group groupIndex groupPosition,
          prevGroup pass = Some (group, groupIndex, groupPosition) ->
          index <> groupIndex) ->
       filterMapGet filterMap index = filterMapGet (_filterMap c) index).
Proof.
  intros Hfilters Hindex. unfold matchPrevGroup.
  destruct (prevGroup pass) as [[[group groupIndex] groupPosition]|].
  - unfold mbind, M_bind, bind. rewrite isMatch_accepts by done.
    destruct (applyMatch_run
                (accepts filters group groupIndex groupPosition
                   (Some (prevGroupHasMembers pass))) groupIndex c)
      as (applied & filterMap & -> & Hget); [by eapply Hindex|].
    eexists _, filterMap. split; [done|]. split.
    + intros ? ? ? [= <- <- <-]. rewrite Hget. by rewrite decide_True.
    + intros index Hne. rewrite Hget. rewrite decide_False; [done|].
      by eapply Hne.
  - exists (changed pass), (_filterMap c). unfold ret.
    rewrite set_filterMap_same. done.
Qed.

(** The loops of [_reFilter] and the match of the last group, from a
    position of the sort map on. *)
Lemma filterLoop_run (filters : list Val) (items : list CollectionItem)
    (start finish : Z) (indices : list Z) (sortMap : list Z) :
  0 <= start ->
  Forall (fun filter => isFunction filter = true) filters ->
  Forall (fun index => 0 <= index) indices ->
  forall (position : Z) (pass : FilterPass) (c : Display),
    NoDup sortMap ->
    (forall index,
       index ∈ sortMap -> inRange start finish index = true ->
       is_Some (arrayGet items index)) ->
    (forall group groupIndex groupPosition,
       prevGroup pass = Some (group, groupIndex, groupPosition) ->
       0 <= groupIndex /\ (groupIndex ∉ sortMap) /\
       (groupIndex ∈ indices -> groupIndex ∈ processedIndices pass)) ->
    exists changed' filterMap,
      (pass' ← filterLoop filters items start finish sortMap position pass;
       forEach indices (fun index =>
         if bool_decide (index ∈ processedIndices pass') then ret tt
         else modify (fun c =>
                set_filterMap (filterMapSet (_filterMap c) index None) c));;
       matchPrevGroup filters pass') c =
        (Return changed', set_filterMap filterMap c) /\
      (forall (k : nat) index item,
         sortMap !! k = Some index -> inRange start finish index = true ->
         arrayGet items index = Some item ->
         filterMapGet filterMap index =
         appliedMatch
           (accepts filters item index (position + Z.of_nat k)
              (if isGroupItem item
               then Some (groupHasMembers filters items start finish
                            (drop (S k) sortMap)
                            (position + Z.of_nat k + 1))
               else None))
           (filterMapGet (_filterMap c) index)) /\
      (forall group groupIndex groupPosition,
         prevGroup pass = Some (group, groupIndex, groupPosition) ->
         filterMapGet filterMap groupIndex =
         appliedMatch
           (accepts filters group groupIndex groupPosition
              (Some (prevGroupHasMembers pass ||
                     groupHasMembers filters items start finish sortMap
                       position)))
           (filterMapGet (_filterMap c) groupIndex)) /\
      (forall index,
         index ∈ indices -> index ∉ processedIndices pass ->
         ~ (index ∈ sortMap /\ inRange start finish index = true) ->
         filterMapGet filterMap index = None) /\
      (forall index,
         ~ (index ∈ sortMap /\ inRange start finish index = true) ->
         (index ∈ indices -> index ∈ processedIndices pass) ->
         (forall group groupIndex groupPosition,
            prevGroup pass = Some (group, groupIndex, groupPosition) ->
            index <> groupIndex) ->
         filterMapGet filterMap index = filterMapGet (_filterMap c) index).
Proof.
  intros Hstart Hfilters Hindices.
  induction sortMap as [|index sortMap IH];
    intros position pass c Hnodup Hitems Hgroup.
  - cbn [filterLoop]. unfold mbind, M_bind, bind. unfold ret at 1.
    destruct (clearLoop_run (processedIndices pass) indices c Hindices)
      as (filterMap1 & -> & Hget1).
    destruct (matchPrevGroup_run filters pass (set_filterMap filterMap1 c)
                Hfilters)
      as (changed' & filterMap & -> & Hopen & Hother).
    { intros group groupIndex groupPosition Hprev.
      by destruct (Hgroup _ _ _ Hprev). }
    exists changed', filterMap. split; [done|].
    cbn [_filterMap set_filterMap] in *.
    split; [intros k ?; by rewrite lookup_nil|]. split; [|split].
    + intros group groupIndex groupPosition Hprev.
      destruct (Hgroup _ _ _ Hprev) as (_ & _ & Hprocessed).
      rewrite (Hopen _ _ _ Hprev), Hget1. cbn [groupHasMembers].
      rewrite orb_false_r. rewrite decide_False; [done|]. tauto.
    + intros other Hin Hnot _. rewrite Hother.
      * rewrite Hget1. by rewrite decide_True.
      * intros group groupIndex groupPosition Hprev ->.
        destruct (Hgroup _ _ _ Hprev) as (_ & _ & Hprocessed). tauto.
    + intros other _ Hprocessed Hne. rewrite Hother by done.
      rewrite Hget1. rewrite decide_False; [done|]. tauto.
  - apply NoDup_cons in Hnodup as [Hnew Hnodup].
    cbn [filterLoop groupHasMembers]. rewrite outOfRange_spec.
    destruct (inRange start finish index) eqn:Hrange; cbn [negb].
    + destruct (Hitems index) as [item Hitem]; [by left|done|].
      apply inRange_spec in Hrange as Hbounds.
      rewrite Hitem. cbn [fmap option_fmap option_map].
      destruct (isGroupItem item) eqn:Hkind.
      * (* a group begins: the group before it is matched *)
        rewrite bool_decide_eq_true_2 by done.
        unfold mbind, M_bind, bind.
        destruct (matchPrevGroup_run filters pass c Hfilters)
          as (changed1 & filterMap1 & -> & Hopen1 & Hother1).
        { intros group groupIndex groupPosition Hprev.
          by destruct (Hgroup _ _ _ Hprev). }
        edestruct (IH (position + 1)
                     (mkFilterPass changed1 (Some (item, index, position))
                        false ({[index]} ∪ processedIndices pass))
                     (set_filterMap filterMap1 c))
          as (changed' & filterMap & Hrun & Hin & Hopen & Hclear & Hother);
          [done| | |].
        { intros other Hother. apply Hitems. by right. }
        { intros ? ? ? [= <- <- <-]. split; [lia|]. split; [done|].
          intros _. cbn [processedIndices]. set_solver. }
        unfold mbind, M_bind, bind in Hrun.
        exists changed', filterMap. split; [exact Hrun|].
        cbn [_filterMap set_filterMap processedIndices prevGroup
             prevGroupHasMembers] in *.
        assert (filterMapGet filterMap1 index =
                filterMapGet (_filterMap c) index) as Hsame.
        { apply Hother1. intros group groupIndex groupPosition Hprev ->.
          destruct (Hgroup _ _ _ Hprev) as (_ & Hnot & _).
          apply Hnot. by left. }
        split; [|split; [|split]].
        -- intros [|k] other item' Hat Hrange' Hitem'; cbn in Hat.
           ++ injection Hat as <-. assert (item' = item) as -> by congruence.
              rewrite Hkind, Z.add_0_r.
              rewrite (Hopen item index position eq_refl), Hsame.
              done.
           ++ rewrite (Hin k other item') by done.
              assert (other <> index) as Hne.
              { intros ->. apply Hnew. by eapply list_elem_of_lookup_2. }
              rewrite Hother1.
              ** replace (position + 1 + Z.of_nat k)
                   with (position + Z.of_nat (S k)) by lia.
                 done.
              ** intros group groupIndex groupPosition Hprev ->.
                 destruct (Hgroup _ _ _ Hprev) as (_ & Hnot & _).
                 apply Hnot. right. by eapply list_elem_of_lookup_2.
        -- intros group groupIndex groupPosition Hprev.
           destruct (Hgroup _ _ _ Hprev) as (_ & Hnot & Hprocessed).
           rewrite orb_false_r. rewrite Hother.
           ++ by apply Hopen1.
           ++ intros [? _]. apply Hnot. by right.
           ++ intros ?. set_solver.
           ++ intros ? ? ? [= <- <- <-] ->. apply Hnot. by left.
        -- intros other Hin' Hnot Hout. rewrite Hclear.
           ++ done.
           ++ done.
           ++ intros [->%elem_of_singleton|?]%elem_of_union; [|done].
              apply Hout. split; [by left|by apply inRange_spec].
           ++ intros [? ?]. apply Hout. split; [by right|done].
        -- intros other Hout Hprocessed Hne. rewrite Hother.
           ++ apply Hother1. done.
           ++ intros [? ?]. apply Hout. split; [by right|done].
           ++ intros ?. set_solver.
           ++ intros ? ? ? [= <- <- <-] ->.
              apply Hout. split; [by left|by apply inRange_spec].
      * (* an item that is not a group *)
        rewrite bool_decide_eq_false_2 by (by intros [=]).
        unfold mbind, M_bind, bind. rewrite isMatch_accepts by done.
        destruct (applyMatch_run (accepts filters item index position None)
                    index c)
          as (applied & filterMap1 & -> & Hget1); [lia|].
        edestruct (IH (position + 1)
                     (mkFilterPass (applied || changed pass) (prevGroup pass)
                        (if accepts filters item index position None
                         then true else prevGroupHasMembers pass)
                        ({[index]} ∪ processedIndices pass))
                     (set_filterMap filterMap1 c))
          as (changed' & filterMap & Hrun & Hin & Hopen & Hclear & Hother);
          [done| | |].
        { intros other Hother. apply Hitems. by right. }
        { intros group groupIndex groupPosition Hprev.
          cbn [prevGroup processedIndices] in *.
          destruct (Hgroup _ _ _ Hprev) as (? & Hnot & Hprocessed).
          split; [done|]. split.
          - intros ?. apply Hnot. by right.
          - intros ?. set_solver. }
        unfold mbind, M_bind, bind in Hrun.
        exists changed', filterMap. split; [exact Hrun|].
        cbn [_filterMap set_filterMap processedIndices prevGroup
             prevGroupHasMembers] in *.
        split; [|split; [|split]].
        -- intros [|k] other item' Hat Hrange' Hitem'; cbn in Hat.
           ++ injection Hat as <-. assert (item' = item) as -> by congruence.
              rewrite Hkind, Z.add_0_r.
              rewrite Hother.
              ** rewrite Hget1. by rewrite decide_True.
              ** tauto.
              ** intros ?. set_solver.
              ** intros group groupIndex groupPosition Hprev ->.
                 destruct (Hgroup _ _ _ Hprev) as (_ & Hnot & _).
                 apply Hnot. by left.
           ++ rewrite (Hin k other item') by done.
              rewrite Hget1. rewrite decide_False.
              ** replace (position + 1 + Z.of_nat k)
                   with (position + Z.of_nat (S k)) by lia.
                 done.
              ** intros ->. apply Hnew. by eapply list_elem_of_lookup_2.
        -- intros group groupIndex groupPosition Hprev.
           destruct (Hgroup _ _ _ Hprev) as (_ & Hnot & Hprocessed).
           rewrite (Hopen _ _ _ Hprev). rewrite Hget1.
           rewrite decide_False by (intros ->; apply Hnot; by left).
           do 2 f_equal. f_equal.
           by destruct (accepts filters item index position None),
                (prevGroupHasMembers pass).
        -- intros other Hin' Hnot Hout. rewrite Hclear.
           ++ done.
           ++ done.
           ++ intros [->%elem_of_singleton|?]%elem_of_union; [|done].
              apply Hout. split; [by left|by apply inRange_spec].
           ++ intros [? ?]. apply Hout. split; [by right|done].
        -- intros other Hout Hprocessed Hne. rewrite Hother.
           ++ rewrite Hget1. rewrite decide_False; [done|].
              intros ->. apply Hout. split; [by left|by apply inRange_spec].
           ++ intros [? ?]. apply Hout. split; [by right|done].
           ++ intros ?. set_solver.
           ++ done.
    + (* an index outside the range *)
      edestruct (IH (position + 1) pass c)
        as (changed' & filterMap & Hrun & Hin & Hopen & Hclear & Hother);
        [done| | |].
      { intros other Hother. apply Hitems. by right. }
      { intros group groupIndex groupPosition Hprev.
        destruct (Hgroup _ _ _ Hprev) as (? & Hnot & Hprocessed).
        split; [done|]. split; [|done]. intros ?. apply Hnot. by right. }
      exists changed', filterMap. split; [exact Hrun|].
      split; [|split; [|split]].
      * intros [|k] other item' Hat Hrange' Hitem'; cbn in Hat.
        -- congruence.
        -- rewrite (Hin k other item') by done.
           replace (position + 1 + Z.of_nat k)
             with (position + Z.of_nat (S k)) by lia.
           done.
      * done.
      * intros other Hin' Hnot Hout. apply Hclear; [done|done|].
        intros [? ?]. apply Hout. split; [by right|done].
      * intros other Hout Hprocessed Hne. apply Hother; [|done|done].
        intros [? ?]. apply Hout. split; [by right|done].
Qed.

Lemma getItemsStrategy_run (c : Display) :
  _getItemsStrategy c =
  (Return (default (createComposer c) (_composer c)),
   set_composer (Some (default (createComposer c) (_composer c))) c).
Proof.
  unfold _getItemsStrategy. run. destruct (_composer c) eqn:Hcomposer; simpl.
  - by rewrite <- Hcomposer, set_composer_same.
  - done.
Qed.

Lemma reFilter_run (start : Z) (count : option Z) (c : Display) :
  let composer := default (createComposer c) (_composer c) in
  let items := result_items composer in
  let filters := readArray (_filter c) c in
  let finish :=
    start + match count with
            | Some 0 | None => result_count composer - start
            | Some n => n
            end in
  0 <= start ->
  Forall (fun filter => isFunction filter = true) filters ->
  NoDup (_sortMap c) ->
  (forall index,
     index ∈ _sortMap c -> inRange start finish index = true ->
     is_Some (arrayGet items index)) ->
  exists filterMap cursor utility,
    _reFilter (Some start) count c =
    (Return tt,
     set_utilityEnumerator utility
       (set_cursorEnumerator cursor
          (set_filterMap filterMap (set_composer (Some composer) c)))) /\
    (forall index (position : nat) item,
       _sortMap c !! position = Some index ->
       inRange start finish index = true ->
       arrayGet items index = Some item ->
       filterMapGet filterMap index =
       appliedMatch
         (accepts filters item index (Z.of_nat position)
            (if isGroupItem item
             then Some (groupHasMembers filters items start finish
                          (drop (S position) (_sortMap c))
                          (Z.of_nat position + 1))
             else None))
         (filterMapGet (_filterMap c) index)) /\
    (forall index,
       inRange start finish index = true -> index ∉ _sortMap c ->
       filterMapGet filterMap index = None) /\
    (forall index,
       inRange start finish index = false ->
       filterMapGet filterMap index = filterMapGet (_filterMap c) index).
Proof.
  intros composer items filters finish Hstart Hfilters Hnodup Hitems.
  unfold _reFilter, _getItems.
  unfold mbind, M_bind, bind. rewrite getItemsStrategy_run.
  fold composer. cbn [default from_option]. unfold id.
  unfold gets at 1. cbn beta iota.
  rewrite getItemsStrategy_run.
  cbn [_composer set_composer default from_option]. unfold id.
  unfold ret at 1. unfold gets at 1. cbn beta iota.
  change (set_composer (Some composer) (set_composer (Some composer) c))
    with (set_composer (Some composer) c).
  set (c0 := set_composer (Some composer) c).
  change (readArray (_filter c0) c0) with filters.
  change (_sortMap c0) with (_sortMap c).
  fold items. fold finish.
  destruct (filterLoop_run filters items start finish
              (seqZ start (finish - start)) (_sortMap c) Hstart Hfilters)
    with (position := 0) (pass := mkFilterPass false None false ∅) (c := c0)
    as (changed' & filterMap & Hrun & Hin & _ & Hclear & Hother);
    [|done|done|done|].
  { apply Forall_forall. intros index Hindex%elem_of_seqZ. lia. }
  unfold mbind, M_bind, bind in Hrun.
  destruct (filterLoop filters items start finish (_sortMap c) 0
              (mkFilterPass false None false ∅) c0)
    as [[pass| |] c1]; [|done|done].
  destruct (forEach _ _ c1) as [[[]| |] c2]; [|done|done].
  rewrite Hrun.
  assert (exists cursor utility,
    (if changed' then _reIndex else ret tt) (set_filterMap filterMap c0) =
      (Return tt,
       set_utilityEnumerator utility
         (set_cursorEnumerator cursor (set_filterMap filterMap c0))))
    as (cursor & utility & ->).
  { destruct changed'.
    - destruct (reIndex_run (set_filterMap filterMap c0))
        as (cursor & utility & ->).
      by exists cursor, utility.
    - by exists (_cursorEnumerator c), (_utilityEnumerator c). }
  exists filterMap, cursor, utility. split; [done|].
  cbn [_filterMap set_composer processedIndices prevGroup] in *.
  split; [|split].
  - intros index position item Hat Hrange Hitem.
    rewrite (Hin position index item) by done.
    by rewrite !Z.add_0_l.
  - intros index Hrange Hnot. apply Hclear.
    + apply elem_of_seqZ. apply inRange_spec in Hrange. lia.
    + apply not_elem_of_empty.
    + tauto.
  - intros index Hrange. apply Hother.
    + intros [_ ?]. congruence.
    + intros Hindex%elem_of_seqZ.
      assert (inRange start finish index = true) by (apply inRange_spec; lia).
      congruence.
    + done.
Qed.

(** X3: [_reFilter(start, count)] where the handlers are functions, the
    sort map has no duplicates and the indices of the sort map that are in
    the range from [start] have an item.  It returns, and changes the
    filter map only (and what is created on demand).  The entry of an index
    of the range that is in the sort map is [true] when every filter
    accepts the item, with its index and its position in the sort map, and
    otherwise [false], or [undefined] if it was [undefined]; the filters
    are told of a group whether one of the items of the range between the
    group and the next group of the range was accepted.  The entry of an
    index of the range that is not in the sort map is [undefined]; the
    entries outside the range are as they were. *)
Theorem reFilter_applies_filters (start : Z) (count : option Z) (c : Display) :
  let composer := default (createComposer c) (_composer c) in
  let items := result_items composer in
  let filters := readArray (_filter c) c in
  let finish :=
    start + match count with
            | Some 0 | None => result_count composer - start
            | Some n => n
            end in
  0 <= start ->
  Forall (fun filter => isFunction filter = true) filters ->
  NoDup (_sortMap c) ->
  (forall index,
     index ∈ _sortMap c -> inRange start finish index = true ->
     is_Some (arrayGet items index)) ->
  exists c',
    _reFilter (Some start) count c = (Return tt, c') /\
    lazyOnly (set_filterMap (_filterMap c') c) c' /\
    (forall index (position : nat) item,
       _sortMap c !! position = Some index ->
       inRange start finish index = true ->
       arrayGet items index = Some item ->
       filterMapGet (_filterMap c') index =
       appliedMatch
         (accepts filters item index (Z.of_nat position)
            (if isGroupItem item
             then Some (groupHasMembers filters items start finish
                          (drop (S position) (_sortMap c))
                          (Z.of_nat position + 1))
             else None))
         (filterMapGet (_filterMap c) index)) /\
    (forall index,
       inRange start finish index = true -> index ∉ _sortMap c ->
       filterMapGet (_filterMap c') index = None) /\
    (forall index,
       inRange start finish index = false ->
       filterMapGet (_filterMap c') index = filterMapGet (_filterMap c) index).
Proof.
  intros composer items filters finish Hstart Hfilters Hnodup Hitems.
  destruct (reFilter_run start count c Hstart Hfilters Hnodup Hitems)
    as (filterMap & cursor & utility & Hrun & Hin & Hnot & Hout).
  eexists. split; [exact Hrun|].
  cbn [_filterMap set_utilityEnumerator set_cursorEnumerator set_filterMap].
  split; [|done].
  exists (Some composer), cursor, utility. by destruct c.
Qed.

(** ** Rebuilding *)

Lemma imap_index_seqZ {A} (items : list A) :
  imap (fun index _ => Z.of_nat index) items =
  seqZ 0 (Z.of_nat (length items)).
Proof.
  apply list_eq. intros position.
  rewrite list_lookup_imap.
  destruct (items !! position) as [item|] eqn:Hitem; simpl.
  - apply lookup_lt_Some in Hitem. symmetry.
    rewrite lookup_seqZ. split; lia.
  - apply lookup_ge_None in Hitem. symmetry.
    apply lookup_seqZ_ge. lia.
Qed.

Lemma pushLoop_run {A} (indices : list A) (c : Display) :
  forEach indices
    (fun _ => modify (fun c => set_filterMap (_filterMap c ++ [Some true]) c))
    c =
  (Return tt,
   set_filterMap (_filterMap c ++ replicate (length indices) (Some true)) c).
Proof.
  revert c. induction indices as [|index indices IH]; intros c.
  - simpl. unfold ret. by rewrite app_nil_r, set_filterMap_same.
  - cbn [forEach]. unfold mbind, M_bind, bind. unfold modify at 1.
    rewrite IH. cbn [_filterMap set_filterMap length replicate].
    by rewrite <- app_assoc.
Qed.

Lemma resetFilter_run (count : Z) (c : Display) :
  exists cursor utility,
    _resetFilter count c =
    (Return tt,
     set_utilityEnumerator utility
       (set_cursorEnumerator cursor
          (set_filterMap (replicate (Z.to_nat count) (Some true)) c))).
Proof.
  unfold _resetFilter. unfold mbind, M_bind, bind. unfold modify at 1.
  rewrite pushLoop_run. cbn [_filterMap set_filterMap app].
  rewrite length_seqZ.
  match goal with
  | |- context [_reIndex ?s] =>
      destruct (reIndex_run s) as (cursor & utility & ->)
  end.
  by exists cursor, utility.
Qed.

Lemma reSort_run (composer : Composer) (c : Display) :
  _composer c = Some composer ->
  exists cursor utility,
    _reSort c =
    (Return tt,
     set_utilityEnumerator utility
       (set_cursorEnumerator cursor
          (set_sortMap (seqZ 0 (Z.of_nat (length (result_items composer))))
             c))).
Proof.
  intros Hcomposer. unfold _reSort, _buildSortMap, _getItems.
  unfold mbind, M_bind, bind. unfold modify at 1.
  rewrite getItemsStrategy_run. cbn [_composer set_sortMap].
  rewrite Hcomposer. cbn [default from_option]. unfold id.
  unfold ret at 1 2. unfold modify at 1.
  rewrite imap_index_seqZ.
  match goal with
  | |- context [_reIndex ?s] =>
      destruct (reIndex_run s) as (cursor & utility & ->)
  end.
  exists cursor, utility. do 3 f_equal.
  rewrite <- Hcomposer. by destruct c.
Qed.

Lemma updateItemsStrategy_run (method : Composer -> Composer)
    (composer : Composer) (c : Display) :
  _composer c = Some composer ->
  updateItemsStrategy method c =
  (Return tt, set_composer (Some (method composer)) c).
Proof.
  intros Hcomposer. unfold updateItemsStrategy.
  unfold mbind, M_bind, bind. rewrite getItemsStrategy_run.
  rewrite Hcomposer. done.
Qed.

Lemma reGroup_run (start count : option Z) (composer : Composer)
    (c : Display) :
  _composer c = Some composer ->
  _reGroup start count c =
  (Return tt, set_composer (Some (group_invalidate composer)) c).
Proof. intros Hcomposer. unfold _reGroup. run. by rewrite Hcomposer. Qed.

Lemma getItemsStrategy_existing (composer : Composer) (c : Display) :
  _composer c = Some composer -> _getItemsStrategy c = (Return composer, c).
Proof.
  intros Hcomposer. rewrite getItemsStrategy_run, Hcomposer.
  cbn [default from_option]. unfold id. by rewrite <- Hcomposer, set_composer_same.
Qed.

Lemma lookup_seqZ_0 (n : Z) (position : nat) (index : Z) :
  seqZ 0 n !! position = Some index <-> index = Z.of_nat position /\ index < n.
Proof. rewrite lookup_seqZ. lia. Qed.

Lemma reBuild_run (reset : bool) (c : Display) :
  let composer :=
    group_invalidate
      ((if reset then result_reset else id)
         (default (createComposer c) (_composer c))) in
  let items := result_items composer in
  let filters := readArray (_filter c) c in
  let n := Z.of_nat (length items) in
  result_count composer = n ->
  Forall (fun filter => isFunction filter = true) filters ->
  exists filterMap cursor utility,
    _reBuild reset c =
    (Return tt,
     set_utilityEnumerator utility
       (set_cursorEnumerator cursor
          (set_filterMap filterMap
             (set_sortMap (seqZ 0 n) (set_composer (Some composer) c))))) /\
    (forall (index : nat) item,
       items !! index = Some item ->
       filterMapGet filterMap (Z.of_nat index) =
       Some (accepts filters item (Z.of_nat index) (Z.of_nat index)
               (if isGroupItem item
                then Some (groupHasMembers filters items 0 n
                             (drop (S index) (seqZ 0 n))
                             (Z.of_nat index + 1))
                else None))) /\
    (forall index,
       ~ (0 <= index < n) -> filterMapGet filterMap index = None).
Proof.
  intros composer items filters n Hcount Hfilters.
  unfold _reBuild. unfold mbind, M_bind, bind.
  rewrite getItemsStrategy_run.
  set (composer0 := default (createComposer c) (_composer c)) in *.
  destruct (reIndex_run (set_composer (Some composer0) c))
    as (cursor1 & utility1 & ->).
  set (c1 := set_utilityEnumerator utility1
               (set_cursorEnumerator cursor1
                  (set_composer (Some composer0) c))).
  assert (exists c2,
    (if reset then updateItemsStrategy result_reset else ret tt) c1 =
      (Return tt, c2) /\
    c2 = set_composer
           (Some ((if reset then result_reset else id) composer0)) c1)
    as (c2 & Hrun2 & Hc2).
  { destruct reset.
    - rewrite (updateItemsStrategy_run _ composer0) by done. eauto.
    - eexists. split; [done|]. by destruct c. }
  rewrite Hrun2.
  rewrite (reGroup_run None None
             ((if reset then result_reset else id) composer0))
    by (by rewrite Hc2).
  fold composer. subst c2 c1.
  match goal with
  | |- context [_reSort ?s] =>
      destruct (reSort_run composer s) as (cursor3 & utility3 & ->); [done|]
  end.
  fold items. fold n.
  rewrite (getItemsStrategy_existing composer) by done.
  match goal with
  | |- context [_resetFilter ?m ?s] =>
      destruct (resetFilter_run m s) as (cursor4 & utility4 & ->)
  end.
  rewrite Hcount. unfold n at 1. rewrite Nat2Z.id.
  unfold _isFiltered. unfold gets at 1.
  match goal with
  | |- context [readArray (_filter ?s) ?s] =>
      change (readArray (_filter s) s) with filters; set (c4 := s)
  end.
  assert (forall index : nat,
            (index < length items)%nat ->
            filterMapGet (replicate (length items) (Some true))
              (Z.of_nat index) = Some true) as Hall.
  { intros index Hindex. unfold filterMapGet, arrayGet.
    rewrite (proj2 (Z.ltb_ge _ _)) by lia.
    rewrite Nat2Z.id, lookup_replicate_2 by done. done. }
  assert (forall index,
            ~ (0 <= index < n) ->
            filterMapGet (replicate (length items) (Some true)) index = None)
    as Hnone.
  { intros index Hindex. unfold filterMapGet, arrayGet.
    destruct (index <? 0) eqn:Hneg; [done|]. apply Z.ltb_ge in Hneg.
    rewrite lookup_ge_None_2; [done|]. rewrite length_replicate. lia. }
  destruct (0 <? length filters)%nat eqn:Hfiltered.
  - destruct (reFilter_run 0 None c4)
      as (filterMap & cursor & utility & Hrun & Hin & Hnot & Hout).
    + done.
    + done.
    + apply NoDup_seqZ.
    + intros index Hindex%elem_of_seqZ _. subst c4.
      cbn [_composer set_utilityEnumerator set_cursorEnumerator set_filterMap
           set_sortMap set_composer default from_option]. unfold id.
      fold items. unfold arrayGet. rewrite (proj2 (Z.ltb_ge _ _)) by lia.
      apply lookup_lt_is_Some_2. lia.
    + change (_reFilter (Some 0) None c4) with (_reFilter None None c4) in Hrun.
      rewrite Hrun.
      change (readArray (_filter c4) c4) with filters in Hin.
      subst c4.
      cbn [_composer _sortMap _filterMap set_utilityEnumerator
           set_cursorEnumerator set_filterMap set_sortMap set_composer
           default from_option] in Hin, Hnot, Hout.
      unfold id in Hin, Hnot, Hout. fold items in Hin, Hnot, Hout.
      rewrite Z.add_0_l, Z.sub_0_r, Hcount in Hin, Hnot, Hout.
      exists filterMap, cursor, utility. split; [done|]. split.
      * intros index item Hitem.
        apply lookup_lt_Some in Hitem as Hlength.
        rewrite (Hin (Z.of_nat index) index item).
        -- rewrite Hall by done. unfold appliedMatch.
           by destruct (accepts _ _ _ _).
        -- apply lookup_seqZ_0. lia.
        -- apply inRange_spec. lia.
        -- unfold arrayGet. rewrite (proj2 (Z.ltb_ge _ _)) by lia.
           by rewrite Nat2Z.id.
      * intros index Hindex. rewrite Hout.
        -- by apply Hnone.
        -- apply not_true_is_false. rewrite inRange_spec. lia.
  - exists (replicate (length items) (Some true)), cursor4, utility4.
    split; [unfold ret; f_equal; by destruct c|]. split; [|done].
    intros index item Hitem. rewrite Hall by (by eapply lookup_lt_Some).
    apply Nat.ltb_ge in Hfiltered.
    destruct filters; [done | simpl in Hfiltered; lia].
Qed.

(** ** What the maintenance of the projection leaves alone

    A part [f] of the projection that is not changed by an assignment to
    the composer, to an enumerator, to the filter map, to the sort map or
    to the notifications is not changed by the methods that filter, sort
    and notify. *)

Section Frame.

Context {X : Type} (f : Display -> X).

Hypothesis frame_composer : forall v c, f (set_composer v c) = f c.
Hypothesis frame_cursor : forall v c, f (set_cursorEnumerator v c) = f c.
Hypothesis frame_utility : forall v c, f (set_utilityEnumerator v c) = f c.
Hypothesis frame_filterMap : forall v c, f (set_filterMap v c) = f c.
Hypothesis frame_sortMap : forall v c, f (set_sortMap v c) = f c.
Hypothesis frame_trace : forall v c, f (set_trace v c) = f c.
Hypothesis frame_session : sessionNotifies.

Lemma preserves_ret {A} (a : A) : preserves f (ret a).
Proof. by intros c. Qed.

Lemma preserves_throw {A} (e : Error) : preserves f (throw (A := A) e).
Proof. by intros c. Qed.

Lemma preserves_gets {A} (g : Display -> A) : preserves f (gets g).
Proof. by intros c. Qed.

Lemma preserves_modify (g : Display -> Display) :
  (forall c, f (g c) = f c) -> preserves f (modify g).
Proof. intros Hg c. apply Hg. Qed.

Lemma preserves_bind {A B} (m : Method A) (k : A -> Method B) :
  preserves f m -> (forall a, preserves f (k a)) -> preserves f (m ≫= k).
Proof.
  intros Hm Hk c. specialize (Hm c). unfold stateAfter in *.
  unfold mbind, M_bind, bind. destruct (m c) as [[a|e|] c1]; simpl in *.
  - rewrite <- Hm. apply Hk.
  - done.
  - done.
Qed.

Lemma preserves_forEach {A} (xs : list A) (body : A -> Method unit) :
  (forall x, preserves f (body x)) -> preserves f (forEach xs body).
Proof.
  intros Hbody. induction xs as [|x xs IH]; simpl.
  - apply preserves_ret.
  - apply preserves_bind; [apply Hbody | by intros _].
Qed.

Lemma preserves_finishUpdateSession (session : option Session)
    (analize : option bool) :
  preserves f (_finishUpdateSession session analize).
Proof.
  apply preserves_modify. intros c.
  destruct (frame_session session analize c) as [emitted ->].
  apply frame_trace.
Qed.

Create HintDb frame.

(** One step on a goal [preserves f m], by the shape of [m]. *)
Ltac frame_step :=
  first
    [ solve [auto 1 with frame nocore]
    | apply preserves_ret
    | apply preserves_throw
    | apply preserves_gets
    | apply preserves_finishUpdateSession
    | apply preserves_bind; [|intros ?]
    | apply preserves_forEach; intros ?
    | apply preserves_modify; intros ?;
      solve [ done
            | apply frame_composer | apply frame_cursor | apply frame_utility
            | apply frame_filterMap | apply frame_sortMap | apply frame_trace ]
    | match goal with
      | |- preserves _ (if ?b then _ else _) => destruct b
      | |- preserves _ (match ?x with _ => _ end) => destruct x
      | |- preserves _ (let '(_, _) := ?x in _) => destruct x
      | H : preserves _ ?m |- preserves _ ?m => exact H
      end
    | progress cbn beta iota zeta ].

Ltac frame := repeat frame_step.

Lemma preserves_getItemsStrategy : preserves f _getItemsStrategy.
Proof. unfold _getItemsStrategy. frame. Qed.
#[local] Hint Resolve preserves_getItemsStrategy : frame.

Lemma preserves_updateItemsStrategy method :
  preserves f (updateItemsStrategy method).
Proof.
  unfold updateItemsStrategy. frame.
Qed.
#[local] Hint Resolve preserves_updateItemsStrategy : frame.

Lemma preserves_getItems : preserves f _getItems.
Proof. unfold _getItems. frame. Qed.
#[local] Hint Resolve preserves_getItems : frame.

Lemma preserves_getItemIndex index : preserves f (_getItemIndex index).
Proof. unfold _getItemIndex. frame. Qed.
#[local] Hint Resolve preserves_getItemIndex : frame.

Lemma preserves_reGroup start count : preserves f (_reGroup start count).
Proof. unfold _reGroup. frame. Qed.
#[local] Hint Resolve preserves_reGroup : frame.

Lemma preserves_getCursorEnumerator : preserves f _getCursorEnumerator.
Proof. unfold _getCursorEnumerator, _getEnumerator. frame. Qed.
#[local] Hint Resolve preserves_getCursorEnumerator : frame.

Lemma preserves_getUtilityEnumerator : preserves f _getUtilityEnumerator.
Proof. unfold _getUtilityEnumerator, _getEnumerator. frame. Qed.
#[local] Hint Resolve preserves_getUtilityEnumerator : frame.

Lemma preserves_reIndex : preserves f _reIndex.
Proof.
  unfold _reIndex. frame.
Qed.
#[local] Hint Resolve preserves_reIndex : frame.

Lemma preserves_reSort : preserves f _reSort.
Proof.
  unfold _reSort, _buildSortMap. frame.
Qed.
#[local] Hint Resolve preserves_reSort : frame.

Lemma preserves_isMatch filters item index position hasMembers :
  preserves f (isMatch filters item index position hasMembers).
Proof. induction filters as [|filter filters IH]; simpl; frame. Qed.
#[local] Hint Resolve preserves_isMatch : frame.

Lemma preserves_applyMatch match_ index : preserves f (applyMatch match_ index).
Proof. unfold applyMatch. frame. Qed.
#[local] Hint Resolve preserves_applyMatch : frame.

Lemma preserves_matchPrevGroup filters pass :
  preserves f (matchPrevGroup filters pass).
Proof.
  unfold matchPrevGroup. frame.
Qed.
#[local] Hint Resolve preserves_matchPrevGroup : frame.

Lemma preserves_filterLoop filters items start finish sortMap position pass :
  preserves f (filterLoop filters items start finish sortMap position pass).
Proof.
  revert position pass.
  induction sortMap as [|index sortMap IH]; intros position pass; simpl.
  - frame.
  - frame.
Qed.
#[local] Hint Resolve preserves_filterLoop : frame.

Lemma preserves_reFilter start count : preserves f (_reFilter start count).
Proof.
  unfold _reFilter. frame.
Qed.
#[local] Hint Resolve preserves_reFilter : frame.

Lemma preserves_reAnalize start count : preserves f (_reAnalize start count).
Proof.
  unfold _reAnalize, _startUpdateSession, _isFilteredByIndex. frame.
Qed.
#[local] Hint Resolve preserves_reAnalize : frame.

Lemma preserves_getItemsState items : preserves f (_getItemsState items).
Proof.
  induction items as [|item items IH]; simpl; [frame|].
  unfold _getItemState, isSelected. frame.
Qed.
#[local] Hint Resolve preserves_getItemsState : frame.

Lemma preserves_getItemsDiff before after :
  preserves f (_getItemsDiff before after).
Proof.
  revert before. induction after as [|itemNow after IH]; intros before; simpl.
  - frame.
  - destruct before; frame.
Qed.
#[local] Hint Resolve preserves_getItemsDiff : frame.

Lemma preserves_splitByGroups notify max rest i notifyIndex :
  (forall start finish, preserves f (notify start finish)) ->
  preserves f (splitByGroups notify max rest i notifyIndex).
Proof.
  intros Hnotify. revert i notifyIndex.
  induction rest as [|item rest IH]; intros i notifyIndex; simpl; frame;
    auto.
Qed.
#[local] Hint Resolve preserves_splitByGroups : frame.

Lemma preserves_notifyCollectionChange action newItems newItemsIndex
    oldItems oldItemsIndex session :
  preserves f
    (_notifyCollectionChange (Session := Session) action newItems
       newItemsIndex oldItems oldItemsIndex session).
Proof.
  unfold _notifyCollectionChange, _isNeedNotifyCollectionChange, _isGrouped,
    _notifyLater.
  frame. apply preserves_splitByGroups. intros start finish.
  unfold notifyPack, _notifyLater. frame.
Qed.
#[local] Hint Resolve preserves_notifyCollectionChange : frame.

Lemma preserves_notifyBefore : preserves f _notifyBeforeCollectionChange.
Proof.
  unfold _notifyBeforeCollectionChange, isEventRaising, _notifyLater. frame.
Qed.
#[local] Hint Resolve preserves_notifyBefore : frame.

Lemma preserves_notifyAfter : preserves f _notifyAfterCollectionChange.
Proof.
  unfold _notifyAfterCollectionChange, isEventRaising, _notify. frame.
Qed.
#[local] Hint Resolve preserves_notifyAfter : frame.

Lemma preserves_checkItemsDiff session items state beforeCheck :
  preserves f (_checkItemsDiff session items state beforeCheck).
Proof.
  unfold _checkItemsDiff, diffOfState. frame.
Qed.
#[local] Hint Resolve preserves_checkItemsDiff : frame.

Lemma preserves_utilityInternalBySource index :
  preserves f (utilityInternalBySource index).
Proof.
  unfold utilityInternalBySource. frame.
Qed.
#[local] Hint Resolve preserves_utilityInternalBySource : frame.

Lemma preserves_notifySourceCollectionItemChange item index properties :
  preserves f (_notifySourceCollectionItemChange item index properties).
Proof.
  unfold _notifySourceCollectionItemChange, analyzeImportantChange,
    isEventRaising, _startUpdateSession.
  frame.
Qed.
#[local] Hint Resolve preserves_notifySourceCollectionItemChange : frame.

Lemma preserves_reBuild reset : preserves f (_reBuild reset).
Proof. unfold _reBuild, _resetFilter, _isFiltered. frame. Qed.

(** The end of [addSort], and that of [removeSort], which returns [true]. *)
Lemma preserves_sortChanged (session : option Session) :
  preserves f
    (updateItemsStrategy result_invalidate;;
     _reSort;;
     filtered ← _isFiltered;
     (if (filtered : bool) then _reFilter None None else ret tt);;
     _finishUpdateSession session None).
Proof. unfold _isFiltered. frame. Qed.

Lemma preserves_sortChanged_true (session : option Session) :
  preserves f
    (updateItemsStrategy result_invalidate;;
     _reSort;;
     filtered ← _isFiltered;
     (if (filtered : bool) then _reFilter None None else ret tt);;
     _finishUpdateSession session None;;
     ret true).
Proof. unfold _isFiltered. frame. Qed.

End Frame.

(** ** Changes deferred while the source is out of step *)

Lemma notifySourceCollectionItemChange_queue item index properties
    (c : Display) :
  sessionNotifies ->
  _sourceCollectionDelayedCallbacks
    (stateAfter (_notifySourceCollectionItemChange item index properties) c) =
  _sourceCollectionDelayedCallbacks c.
Proof.
  intros Hsession.
  by apply (preserves_notifySourceCollectionItemChange
              _sourceCollectionDelayedCallbacks).
Qed.

Lemma replayDelayed_run (callbacks : list DelayedCallback) (c : Display) :
  sessionNotifies ->
  _sourceCollectionDelayedCallbacks c = Some callbacks ->
  replayDelayed (S (length callbacks)) c = replayAll callbacks c.
Proof.
  intros Hsession. revert c.
  induction callbacks as [|[[item index] properties] callbacks IH];
    intros c Hqueue.
  - simpl. run. by rewrite Hqueue.
  - cbn [length replayDelayed replayAll forEach].
    unfold mbind, M_bind, bind. unfold gets at 1. rewrite Hqueue.
    cbn [default from_option]. unfold id.
    pose proof (notifySourceCollectionItemChange_queue item index properties c
                  Hsession) as Hsame.
    unfold stateAfter in Hsame.
    destruct (_notifySourceCollectionItemChange item index properties c)
      as [[[]|e|] c1]; [|done|done].
    unfold modify at 1 3. cbn [snd] in Hsame. apply IH.
    cbn [_sourceCollectionDelayedCallbacks
         set_sourceCollectionDelayedCallbacks].
    by rewrite Hsame, Hqueue.
Qed.

(** ** Loops that end

    The loops of the embedding that carry a bound are those of
    [_searchItemUid] and of [onEventRaisingChange]; the methods that
    filter, sort and notify have none. *)

Section Finishes.

Lemma finishes_ret {A} (a : A) : finishes (ret a : Method A).
Proof. by intros c. Qed.

Lemma finishes_throw {A} (e : Error) : finishes (throw e : Method A).
Proof. by intros c. Qed.

Lemma finishes_gets {A} (g : Display -> A) : finishes (gets g).
Proof. by intros c. Qed.

Lemma finishes_modify (g : Display -> Display) : finishes (modify g).
Proof. by intros c. Qed.

Lemma finishes_bind {A B} (m : Method A) (k : A -> Method B) :
  finishes m -> (forall a, finishes (k a)) -> finishes (m ≫= k).
Proof.
  intros Hm Hk c. specialize (Hm c). unfold outcomeOf in *.
  unfold mbind, M_bind, bind. destruct (m c) as [[a|e|] c1]; simpl in *.
  - apply Hk.
  - done.
  - done.
Qed.

Lemma finishes_forEach {A} (xs : list A) (body : A -> Method unit) :
  (forall x, finishes (body x)) -> finishes (forEach xs body).
Proof.
  intros Hbody. induction xs as [|x xs IH]; simpl.
  - apply finishes_ret.
  - apply finishes_bind; [apply Hbody | by intros _].
Qed.

Create HintDb finish.

(** One step on a goal [finishes m], by the shape of [m]. *)
Ltac finish_step :=
  first
    [ solve [auto 1 with finish nocore]
    | apply finishes_ret
    | apply finishes_throw
    | apply finishes_gets
    | apply finishes_modify
    | apply finishes_bind; [|intros ?]
    | apply finishes_forEach; intros ?
    | match goal with
      | |- finishes (if ?b then _ else _) => destruct b
      | |- finishes (match ?x with _ => _ end) => destruct x
      | |- finishes (let '(_, _) := ?x in _) => destruct x
      | H : finishes ?m |- finishes ?m => exact H
      end
    | progress cbn beta iota zeta ].

Ltac finish := repeat finish_step.

Lemma finishes_getItemsStrategy : finishes _getItemsStrategy.
Proof. unfold _getItemsStrategy. finish. Qed.
#[local] Hint Resolve finishes_getItemsStrategy : finish.

Lemma finishes_getUtilityEnumerator : finishes _getUtilityEnumerator.
Proof. unfold _getUtilityEnumerator, _getEnumerator. finish. Qed.
#[local] Hint Resolve finishes_getUtilityEnumerator : finish.

Lemma finishes_reIndex : finishes _reIndex.
Proof.
  unfold _reIndex, _getCursorEnumerator, _getUtilityEnumerator,
    _getEnumerator.
  finish.
Qed.
#[local] Hint Resolve finishes_reIndex : finish.

Lemma finishes_reSort : finishes _reSort.
Proof. unfold _reSort, _buildSortMap, _getItems. finish. Qed.
#[local] Hint Resolve finishes_reSort : finish.

Lemma finishes_isMatch filters item index position hasMembers :
  finishes (isMatch filters item index position hasMembers).
Proof. induction filters as [|filter filters IH]; simpl; finish. Qed.
#[local] Hint Resolve finishes_isMatch : finish.

Lemma finishes_matchPrevGroup filters pass :
  finishes (matchPrevGroup filters pass).
Proof. unfold matchPrevGroup, applyMatch. finish. Qed.
#[local] Hint Resolve finishes_matchPrevGroup : finish.

Lemma finishes_filterLoop filters items start finish_ sortMap position pass :
  finishes (filterLoop filters items start finish_ sortMap position pass).
Proof.
  revert position pass.
  induction sortMap as [|index sortMap IH]; intros position pass; simpl.
  - finish.
  - unfold applyMatch. finish.
Qed.
#[local] Hint Resolve finishes_filterLoop : finish.

Lemma finishes_reFilter start count : finishes (_reFilter start count).
Proof. unfold _reFilter, _getItems. finish. Qed.
#[local] Hint Resolve finishes_reFilter : finish.

Lemma finishes_reBuild reset : finishes (_reBuild reset).
Proof.
  unfold _reBuild, updateItemsStrategy, _reGroup, _resetFilter, _isFiltered.
  finish.
Qed.

Lemma finishes_reAnalize start count : finishes (_reAnalize start count).
Proof.
  unfold _reAnalize, _startUpdateSession, _isFilteredByIndex, _getItemIndex,
    updateItemsStrategy, _reGroup, _finishUpdateSession.
  finish.
Qed.
#[local] Hint Resolve finishes_reAnalize : finish.

Lemma finishes_getItemsState items : finishes (_getItemsState items).
Proof.
  induction items as [|item items IH]; simpl; [finish|].
  unfold _getItemState, isSelected. finish.
Qed.
#[local] Hint Resolve finishes_getItemsState : finish.

Lemma finishes_getItemsDiff before after :
  finishes (_getItemsDiff before after).
Proof.
  revert before. induction after as [|itemNow after IH]; intros before; simpl.
  - finish.
  - destruct before; finish.
Qed.
#[local] Hint Resolve finishes_getItemsDiff : finish.

Lemma finishes_splitByGroups notify max rest i notifyIndex :
  (forall start finish_, finishes (notify start finish_)) ->
  finishes (splitByGroups notify max rest i notifyIndex).
Proof.
  intros Hnotify. revert i notifyIndex.
  induction rest as [|item rest IH]; intros i notifyIndex; simpl; finish;
    auto.
Qed.

Lemma finishes_notifyCollectionChange action newItems newItemsIndex
    oldItems oldItemsIndex (session : option Session) :
  finishes
    (_notifyCollectionChange (Session := Session) action newItems
       newItemsIndex oldItems oldItemsIndex session).
Proof.
  unfold _notifyCollectionChange, _isNeedNotifyCollectionChange, _isGrouped,
    _notifyLater.
  finish. apply finishes_splitByGroups. intros start finish_.
  unfold notifyPack, _notifyLater. finish.
Qed.
#[local] Hint Resolve finishes_notifyCollectionChange : finish.

Lemma finishes_notifySourceCollectionItemChange item index properties :
  finishes (_notifySourceCollectionItemChange item index properties).
Proof.
  unfold _notifySourceCollectionItemChange, analyzeImportantChange,
    isEventRaising, _startUpdateSession, _getItems, _getItemIndex,
    utilityInternalBySource, _finishUpdateSession, _checkItemsDiff,
    diffOfState, _notifyBeforeCollectionChange, _notifyAfterCollectionChange,
    isEventRaising, _notifyLater, _notify.
  finish.
Qed.

End Finishes.

Lemma replayAll_queue (callbacks rest : list DelayedCallback) (c : Display) :
  sessionNotifies ->
  _sourceCollectionDelayedCallbacks c = Some (callbacks ++ rest) ->
  returns (replayAll callbacks) c ->
  _sourceCollectionDelayedCallbacks (stateAfter (replayAll callbacks) c) =
  Some rest.
Proof.
  intros Hsession. revert c.
  induction callbacks as [|[[item index] properties] callbacks IH];
    intros c Hqueue [[] Hreturns]; [done|].
  unfold outcomeOf, stateAfter in *.
  cbn [replayAll forEach] in *. unfold mbind, M_bind, bind in *.
  pose proof (notifySourceCollectionItemChange_queue item index properties c
                Hsession) as Hsame.
  unfold stateAfter in Hsame.
  destruct (_notifySourceCollectionItemChange item index properties c)
    as [[[]|e|] c1]; [|done|done].
  unfold modify at 1. unfold modify at 1 in Hreturns.
  cbn [snd] in Hsame. apply IH.
  - cbn [_sourceCollectionDelayedCallbacks
         set_sourceCollectionDelayedCallbacks].
    by rewrite Hsame, Hqueue.
  - by exists tt.
Qed.

Lemma finishes_replayAll (callbacks : list DelayedCallback) :
  finishes (replayAll callbacks).
Proof.
  unfold replayAll. apply finishes_forEach. intros [[item index] properties].
  apply finishes_bind; [|intros _].
  - apply finishes_notifySourceCollectionItemChange.
  - apply finishes_modify.
Qed.

(** X4: when the source raises events again, the changes of items that
    were deferred are replayed in the order they arrived in, each being
    taken from the queue once it was handled: the loop of
    [onEventRaisingChange] ends, after a rebuild if the changes were not
    analysed; the queue is empty when the handler returns. *)
Theorem onEventRaisingChange_replays_in_order (analyze : bool)
    (callbacks : list DelayedCallback) (c : Display) :
  sessionNotifies ->
  _sourceCollectionDelayedCallbacks c = Some callbacks ->
  onEventRaisingChange true analyze c =
    ((if negb analyze then _reBuild true else ret tt);;
     modify (set_sourceCollectionSynchronized true);;
     replayAll callbacks) c /\
  outcomeOf (onEventRaisingChange true analyze) c <> Diverge /\
  (returns (onEventRaisingChange true analyze) c ->
   _sourceCollectionDelayedCallbacks
     (stateAfter (onEventRaisingChange true analyze) c) = Some []).
Proof.
  intros Hsession Hqueue.
  assert (onEventRaisingChange true analyze c =
    ((if negb analyze then _reBuild true else ret tt);;
     modify (set_sourceCollectionSynchronized true);;
     replayAll callbacks) c) as Hrun.
  { unfold onEventRaisingChange. rewrite andb_true_r.
    unfold mbind, M_bind, bind.
    assert (_sourceCollectionDelayedCallbacks
              (stateAfter (if negb analyze then _reBuild true else ret tt) c) =
            Some callbacks) as Hsame.
    { rewrite <- Hqueue. destruct (negb analyze); [|done].
      by apply (preserves_reBuild _sourceCollectionDelayedCallbacks). }
    unfold stateAfter in Hsame.
    destruct ((if negb analyze then _reBuild true else ret tt) c)
      as [[[]|e|] c1]; [|done|done].
    unfold modify at 1 2. unfold gets at 1. cbn [snd] in Hsame.
    cbn [_sourceCollectionDelayedCallbacks set_sourceCollectionSynchronized].
    rewrite Hsame. by apply replayDelayed_run. }
  split; [done|]. unfold returns, outcomeOf, stateAfter. rewrite Hrun.
  clear Hrun. unfold mbind, M_bind, bind.
  assert (_sourceCollectionDelayedCallbacks
            (stateAfter (if negb analyze then _reBuild true else ret tt) c) =
          Some callbacks) as Hsame.
  { rewrite <- Hqueue. destruct (negb analyze); [|done].
    by apply (preserves_reBuild _sourceCollectionDelayedCallbacks). }
  assert (outcomeOf (if negb analyze then _reBuild true else ret tt) c
          <> Diverge) as Hends.
  { destruct (negb analyze); [apply finishes_reBuild | done]. }
  unfold stateAfter, outcomeOf in *.
  destruct ((if negb analyze then _reBuild true else ret tt) c)
    as [[[]|e|] c1]; cbn [fst snd] in *;
    [|split; [done|intros [? Hreturns]; discriminate Hreturns]|done].
  unfold modify at 1 2 3. cbn [snd fst] in *.
  split.
  - apply finishes_replayAll.
  - intros Hreturns.
    apply (replayAll_queue callbacks []); [done| |done].
    by rewrite app_nil_r.
Qed.

(** ** Handlers added and removed one at a time *)

Lemma bind_run {A B} (m : Method A) (k : A -> Method B) (c c1 : Display)
    (a : A) :
  m c = (Return a, c1) -> (m ≫= k) c = k a c1.
Proof. intros Hrun. unfold mbind, M_bind, bind. by rewrite Hrun. Qed.

Lemma stateAfter_bind {A B} (m : Method A) (k : A -> Method B) (c c1 : Display)
    (a : A) :
  m c = (Return a, c1) -> stateAfter (m ≫= k) c = stateAfter (k a) c1.
Proof. intros Hrun. unfold stateAfter, mbind, M_bind, bind. by rewrite Hrun. Qed.

Lemma outcomeOf_bind {A B} (m : Method A) (k : A -> Method B) (c c1 : Display)
    (a : A) :
  m c = (Return a, c1) -> outcomeOf (m ≫= k) c = outcomeOf (k a) c1.
Proof. intros Hrun. unfold outcomeOf, mbind, M_bind, bind. by rewrite Hrun. Qed.

Lemma removeFirst_absent {A} `{EqDecision A} (x : A) (xs : list A) :
  x ∉ xs -> removeFirst x xs = xs.
Proof.
  induction xs as [|y xs IH]; [done|]. intros [Hne Hx]%not_elem_of_cons.
  simpl. unfold strictEq. rewrite bool_decide_eq_false_2 by congruence.
  f_equal. by apply IH.
Qed.

Lemma removeFirst_inserted {A} `{EqDecision A} (x : A) (xs : list A) (i : nat) :
  x ∉ xs -> removeFirst x (take i xs ++ x :: drop i xs) = xs.
Proof.
  revert i. induction xs as [|y xs IH]; intros i Hx.
  - rewrite take_nil, drop_nil. simpl. unfold strictEq.
    by rewrite bool_decide_eq_true_2.
  - apply not_elem_of_cons in Hx as [Hne Hx]. destruct i as [|i]; simpl.
    + unfold strictEq. by rewrite bool_decide_eq_true_2.
    + unfold strictEq. rewrite bool_decide_eq_false_2 by congruence.
      f_equal. by apply IH.
Qed.

Lemma splice_insert {A} (xs : list A) (position : Z) (x : A) :
  splice xs position 0 [x] =
  take (spliceStart (length xs) position) xs
    ++ x :: drop (spliceStart (length xs) position) xs.
Proof.
  unfold splice, spliceCount.
  replace (Z.to_nat (Z.min (Z.max 0 0) _)) with 0%nat.
  - by rewrite Nat.add_0_r.
  - unfold spliceStart. destruct (position <? 0); lia.
Qed.

Lemma splice_removeFirst {A} `{EqDecision A} (xs : list A) (x : A) :
  x ∈ xs -> splice xs (indexOf xs x) 1 [] = removeFirst x xs.
Proof.
  intros Hx. unfold indexOf.
  assert (forall position,
            0 <= position ->
            take (Z.to_nat (indexOfFrom xs x position - position)) xs
              ++ drop (S (Z.to_nat (indexOfFrom xs x position - position))) xs
            = removeFirst x xs) as Hcut.
  { induction xs as [|y xs IH]; intros position Hposition.
    - by apply elem_of_nil in Hx.
    - simpl. unfold strictEq. case_bool_decide as Heq.
      + rewrite Z.sub_diag. done.
      + apply elem_of_cons in Hx as [->|Hx]; [done|].
        destruct (indexOfFrom_found xs x (position + 1) Hx) as (i & Hi & _).
        specialize (IH Hx (position + 1) ltac:(lia)).
        rewrite Hi in *.
        replace (Z.to_nat (position + 1 + Z.of_nat i - position))
          with (S (Z.to_nat (position + 1 + Z.of_nat i - (position + 1))))
          by lia.
        simpl. f_equal. exact IH. }
  specialize (Hcut 0 ltac:(lia)). rewrite Z.sub_0_r in Hcut.
  destruct (indexOfFrom_found xs x 0 Hx) as (i & Hi & Hlookup & _).
  apply lookup_lt_Some in Hlookup.
  rewrite <- Hcut. rewrite Hi. unfold splice, spliceStart, spliceCount.
  rewrite (proj2 (Z.ltb_ge _ _)) by lia. simpl.
  replace (Z.to_nat (Z.min (0 + Z.of_nat i) (Z.of_nat (length xs))))
    with (Z.to_nat (0 + Z.of_nat i)) by lia.
  f_equal. f_equal. lia.
Qed.

Lemma readArray_mutate (l : loc) (g : list Val -> list Val) (c : Display) :
  is_Some (heap c !! l) ->
  readArray l (stateAfter (mutateArray l g) c) = g (readArray l c).
Proof.
  intros [xs Hxs]. unfold readArray, stateAfter, mutateArray, modify. simpl.
  rewrite lookup_alter_eq, Hxs. done.
Qed.

Lemma indexOf_absent {A} `{EqDecision A} (xs : list A) (x : A) :
  strictEq (indexOf xs x) (-1) = true <-> x ∉ xs.
Proof.
  unfold strictEq. rewrite bool_decide_eq_true.
  pose proof (indexOf_elem xs x) as Hpresent. rewrite Z.ltb_lt in Hpresent.
  split.
  - intros Habsent Hx. apply Hpresent in Hx. lia.
  - intros Hx. unfold indexOf. by apply indexOfFrom_absent.
Qed.

(** What filtering again and closing the session leave of the handlers. *)
Lemma refilter_handlers (session : option Session) (c : Display) :
  sessionNotifies ->
  let c' := stateAfter (_reFilter None None;;
                        _finishUpdateSession session None) c in
  heap c' = heap c /\ _filter c' = _filter c.
Proof.
  intros Hsession.
  assert (preserves (fun c : Display => (heap c, _filter c))
            (_reFilter None None;; _finishUpdateSession session None))
    as Hsame.
  { apply preserves_bind; [|intros _].
    - by apply preserves_reFilter.
    - by apply preserves_finishUpdateSession. }
  specialize (Hsame c). simpl in *. by injection Hsame.
Qed.

Lemma addFilter_state (filter : Val) (at_ : option Z) (c : Display) :
  sessionNotifies ->
  is_Some (heap c !! _filter c) ->
  let filters := readArray (_filter c) c in
  let c' := stateAfter (addFilter filter at_) c in
  _filter c' = _filter c /\
  readArray (_filter c') c' =
    if bool_decide (filter ∈ filters) then filters
    else match at_ with
         | None => filters ++ [filter]
         | Some position =>
             take (spliceStart (length filters) position) filters
               ++ filter :: drop (spliceStart (length filters) position)
                               filters
         end.
Proof.
  intros Hsession Harray filters c'. subst c'. unfold addFilter.
  rewrite (stateAfter_bind _ _ c c filters) by done.
  case_bool_decide as Hpresent.
  - rewrite (proj2 (indexOf_elem _ _)) by done. done.
  - destruct (-1 <? indexOf filters filter) eqn:Hfound.
    { by apply indexOf_elem in Hfound. }
    rewrite (stateAfter_bind _ _ c c (_filter c)) by done.
    set (g := match at_ with
              | None => fun xs => xs ++ [filter]
              | Some position => fun xs => splice xs position 0 [filter]
              end).
    pose proof (readArray_mutate (_filter c) g c Harray) as Hread.
    set (c1 := stateAfter (mutateArray (_filter c) g) c) in *.
    assert (match at_ with
            | None => mutateArray (_filter c) (fun xs => xs ++ [filter])
            | Some position =>
                mutateArray (_filter c)
                  (fun xs => splice xs position 0 [filter])
            end c = (Return tt, c1)) as Hrun by (by destruct at_).
    rewrite (stateAfter_bind _ _ c c1 tt Hrun).
    rewrite (stateAfter_bind _ _ c1 c1 (startUpdateSession c1)) by done.
    destruct (refilter_handlers (startUpdateSession c1) c1 Hsession)
      as [Hheap Hfilter].
    unfold readArray in *. rewrite Hheap, Hfilter.
    split; [done|]. change (_filter c1) with (_filter c). rewrite Hread.
    subst g. destruct at_; [apply splice_insert | done].
Qed.

Lemma removeFilter_state (filter : Val) (c : Display) :
  sessionNotifies ->
  is_Some (heap c !! _filter c) ->
  let filters := readArray (_filter c) c in
  let c' := stateAfter (removeFilter filter) c in
  _filter c' = _filter c /\
  readArray (_filter c') c' = removeFirst filter filters /\
  forall result,
    outcomeOf (removeFilter filter) c = Return result ->
    result = bool_decide (filter ∈ filters).
Proof.
  intros Hsession Harray filters c'. subst c'. unfold removeFilter.
  rewrite (stateAfter_bind _ _ c c filters) by done.
  rewrite (outcomeOf_bind _ _ c c filters) by done.
  destruct (strictEq (indexOf filters filter) (-1)) eqn:Habsent.
  - apply indexOf_absent in Habsent.
    rewrite removeFirst_absent by done. split; [done|]. split; [done|].
    intros result [= <-]. by rewrite bool_decide_eq_false_2.
  - assert (filter ∈ filters) as Hpresent.
    { destruct (decide (filter ∈ filters)) as [|Hnot]; [done|].
      apply indexOf_absent in Hnot. congruence. }
    rewrite (stateAfter_bind _ _ c c (_filter c)) by done.
    rewrite (outcomeOf_bind _ _ c c (_filter c)) by done.
    set (g := fun xs : list Val => splice xs (indexOf filters filter) 1 []).
    pose proof (readArray_mutate (_filter c) g c Harray) as Hread.
    set (c1 := stateAfter (mutateArray (_filter c) g) c) in *.
    assert (mutateArray (_filter c) g c = (Return tt, c1)) as Hrun by done.
    rewrite (stateAfter_bind _ _ c c1 tt Hrun).
    rewrite (outcomeOf_bind _ _ c c1 tt Hrun).
    rewrite (stateAfter_bind _ _ c1 c1 (startUpdateSession c1)) by done.
    rewrite (outcomeOf_bind _ _ c1 c1 (startUpdateSession c1)) by done.
    assert (preserves (fun c : Display => (heap c, _filter c))
              (_reFilter None None;;
               _finishUpdateSession (startUpdateSession c1) None;;
               ret true)) as Hsame.
    { apply preserves_bind; [by apply preserves_reFilter|intros _].
      apply preserves_bind; [|intros _; apply preserves_ret].
      by apply preserves_finishUpdateSession. }
    specialize (Hsame c1). cbn beta in Hsame.
    pose proof (f_equal fst Hsame) as Hheap.
    pose proof (f_equal snd Hsame) as Hfilter.
    cbn [fst snd] in Hheap, Hfilter. clear Hsame.
    split; [done|]. split.
    + unfold readArray in *. rewrite Hheap, Hfilter.
      change (_filter c1) with (_filter c). rewrite Hread.
      subst g. cbn beta. by apply splice_removeFirst.
    + intros result. rewrite bool_decide_eq_true_2 by done.
      unfold outcomeOf, mbind, M_bind, bind.
      destruct (_reFilter None None c1) as [[[]|e|] c2]; [|done|done].
      unfold _finishUpdateSession, modify, ret. by intros [= <-].
Qed.

(** X5: [addFilter] keeps the array of filters and changes it in place:
    a handler that is in the array is not added again, and the call then
    does nothing at all; any other value is put at the end of the array
    or, if a position is given, where [splice] puts it, whether or not the
    filtering that follows returns. *)
Theorem addFilter_stores_handler (filter : Val) (at_ : option Z)
    (c : Display) :
  sessionNotifies ->
  is_Some (heap c !! _filter c) ->
  let filters := readArray (_filter c) c in
  let c' := stateAfter (addFilter filter at_) c in
  _filter c' = _filter c /\
  readArray (_filter c') c' =
    (if bool_decide (filter ∈ filters) then filters
     else match at_ with
          | None => filters ++ [filter]
          | Some position =>
              take (spliceStart (length filters) position) filters
                ++ filter :: drop (spliceStart (length filters) position)
                                filters
          end) /\
  (filter ∈ filters -> addFilter filter at_ c = (Return tt, c)).
Proof.
  intros Hsession Harray filters c'.
  destruct (addFilter_state filter at_ c Hsession Harray) as [Hsame Hstored].
  split; [exact Hsame|]. split; [exact Hstored|].
  intros Hpresent. unfold addFilter.
  rewrite (bind_run _ _ c c filters) by done.
  by rewrite (proj2 (indexOf_elem _ _)).
Qed.

(** X6: [removeFilter] takes the first occurrence of the handler out of
    the array of filters, in place; when the handler is not in the array
    it returns [false] and does nothing else; when it returns, it returns
    whether the handler was in the array. *)
Theorem removeFilter_removes_handler (filter : Val) (c : Display) :
  sessionNotifies ->
  is_Some (heap c !! _filter c) ->
  let filters := readArray (_filter c) c in
  let c' := stateAfter (removeFilter filter) c in
  _filter c' = _filter c /\
  readArray (_filter c') c' = removeFirst filter filters /\
  (filter ∉ filters -> removeFilter filter c = (Return false, c)) /\
  forall result,
    outcomeOf (removeFilter filter) c = Return result ->
    result = bool_decide (filter ∈ filters).
Proof.
  intros Hsession Harray filters c'.
  destruct (removeFilter_state filter c Hsession Harray)
    as (Hsame & Hremoved & Hresult).
  split; [exact Hsame|]. split; [exact Hremoved|]. split; [|exact Hresult].
  intros Habsent. unfold removeFilter.
  rewrite (bind_run _ _ c c filters) by done.
  by rewrite (proj2 (indexOf_absent _ _)).
Qed.

Lemma mutateArray_is_Some (l l' : loc) (g : list Val -> list Val)
    (c : Display) :
  is_Some (heap c !! l) ->
  is_Some (heap (stateAfter (mutateArray l' g) c) !! l).
Proof.
  intros Harray. unfold stateAfter, mutateArray, modify. simpl.
  destruct (decide (l' = l)) as [->|Hne].
  - rewrite lookup_alter_eq. by apply fmap_is_Some.
  - by rewrite lookup_alter_ne.
Qed.

Lemma addFilter_is_Some (filter : Val) (at_ : option Z) (c : Display) :
  sessionNotifies ->
  is_Some (heap c !! _filter c) ->
  let c' := stateAfter (addFilter filter at_) c in
  is_Some (heap c' !! _filter c').
Proof.
  intros Hsession Harray c'. subst c'. unfold addFilter.
  rewrite (stateAfter_bind _ _ c c (readArray (_filter c) c)) by done.
  destruct (-1 <? indexOf _ _); [done|].
  rewrite (stateAfter_bind _ _ c c (_filter c)) by done.
  set (g := match at_ with
            | None => fun xs => xs ++ [filter]
            | Some position => fun xs => splice xs position 0 [filter]
            end).
  pose proof (mutateArray_is_Some (_filter c) (_filter c) g c Harray) as Hread.
  set (c1 := stateAfter (mutateArray (_filter c) g) c) in *.
  assert (match at_ with
          | None => mutateArray (_filter c) (fun xs => xs ++ [filter])
          | Some position =>
              mutateArray (_filter c)
                (fun xs => splice xs position 0 [filter])
          end c = (Return tt, c1)) as Hrun by (by destruct at_).
  rewrite (stateAfter_bind _ _ c c1 tt Hrun).
  rewrite (stateAfter_bind _ _ c1 c1 (startUpdateSession c1)) by done.
  destruct (refilter_handlers (startUpdateSession c1) c1 Hsession)
    as [Hheap Hfilter].
  by rewrite Hheap, Hfilter.
Qed.

(** X7: a filter that was added with [addFilter], at any position, and
    is then removed with [removeFilter] leaves the filters of the
    projection as they were before, whether or not the two calls threw
    while filtering. *)
Theorem addFilter_removeFilter_round_trip (filter : Val) (at_ : option Z)
    (c : Display) :
  sessionNotifies ->
  is_Some (heap c !! _filter c) ->
  filter ∉ readArray (_filter c) c ->
  let c1 := stateAfter (addFilter filter at_) c in
  let c2 := stateAfter (removeFilter filter) c1 in
  _filter c2 = _filter c /\
  readArray (_filter c2) c2 = readArray (_filter c) c.
Proof.
  intros Hsession Harray Habsent c1 c2.
  destruct (addFilter_state filter at_ c Hsession Harray) as [Hsame Hadded].
  fold c1 in Hsame, Hadded.
  rewrite bool_decide_eq_false_2 in Hadded by done.
  destruct (removeFilter_state filter c1 Hsession) as (Hsame' & Hremoved & _).
  { by apply addFilter_is_Some. }
  fold c2 in Hsame', Hremoved.
  split; [congruence|]. rewrite Hremoved, Hadded.
  destruct at_ as [position|].
  - by apply removeFirst_inserted.
  - rewrite <- (removeFirst_inserted filter (readArray (_filter c) c)
                  (length (readArray (_filter c) c))) at 2 by done.
    by rewrite take_ge, drop_ge by lia.
Qed.

(** ** Important properties *)

Lemma set_importantItemProperties_same (c : Display) :
  set_importantItemProperties (_importantItemProperties c) c = c.
Proof. by destruct c. Qed.

Lemma elem_of_removeFirst {A} `{EqDecision A} (x y : A) (xs : list A) :
  NoDup xs -> y ∈ removeFirst x xs <-> y ∈ xs /\ y <> x.
Proof.
  induction 1 as [|z xs Hz Hnodup IH]; simpl.
  - rewrite elem_of_nil. tauto.
  - unfold strictEq. case_bool_decide as Heq.
    + subst z. rewrite elem_of_cons. split.
      * intros Hy. split; [by right|]. by intros ->.
      * intros [[->|Hy] Hne]; done.
    + rewrite !elem_of_cons, IH. split.
      * intros [->|[Hy Hne]]; [split; [by left|done] | split; [by right|done]].
      * intros [[->|Hy] Hne]; [by left | by right].
Qed.

Lemma removeFirst_keeps_NoDup {A} `{EqDecision A} (x : A) (xs : list A) :
  NoDup xs -> NoDup (removeFirst x xs).
Proof.
  induction 1 as [|z xs Hz Hnodup IH]; simpl; [constructor|].
  unfold strictEq. case_bool_decide; [done|].
  constructor; [|done]. rewrite elem_of_removeFirst by done. tauto.
Qed.

Lemma setImportantProperties_run (properties : list string) (c : Display) :
  exists important,
    forEach properties _setImportantProperty c =
      (Return tt, set_importantItemProperties important c) /\
    (NoDup (_importantItemProperties c) -> NoDup important) /\
    forall name,
      name ∈ important <->
      name ∈ _importantItemProperties c \/ name ∈ properties.
Proof.
  revert c. induction properties as [|property properties IH]; intros c.
  - exists (_importantItemProperties c). simpl. unfold ret.
    rewrite set_importantItemProperties_same. split; [done|]. split; [done|].
    intros name. rewrite elem_of_nil. tauto.
  - cbn [forEach]. unfold mbind, M_bind, bind.
    unfold _setImportantProperty at 1. unfold modify at 1.
    case_bool_decide as Hpresent.
    + destruct (IH c) as (important & -> & Hnodup & Hmember).
      exists important. split; [done|]. split; [done|].
      intros name. rewrite Hmember, elem_of_cons.
      split; [tauto|]. intros [?|[->|?]]; tauto.
    + destruct (IH (set_importantItemProperties
                      (_importantItemProperties c ++ [property]) c))
        as (important & -> & Hnodup & Hmember).
      exists important. split; [done|]. simpl in *. split.
      * intros Hc. apply Hnodup. apply NoDup_app. split; [done|].
        split; [|apply NoDup_singleton].
        by intros name Hname ->%list_elem_of_singleton.
      * intros name.
        rewrite Hmember, elem_of_app, list_elem_of_singleton, elem_of_cons.
        tauto.
Qed.

Lemma unsetImportantProperties_run (properties : list string) (c : Display) :
  NoDup (_importantItemProperties c) ->
  exists important,
    forEach properties _unsetImportantProperty c =
      (Return tt, set_importantItemProperties important c) /\
    NoDup important /\
    forall name,
      name ∈ important <->
      name ∈ _importantItemProperties c /\ name ∉ properties.
Proof.
  revert c. induction properties as [|property properties IH]; intros c Hc.
  - exists (_importantItemProperties c). simpl. unfold ret.
    rewrite set_importantItemProperties_same. split; [done|]. split; [done|].
    intros name. rewrite elem_of_nil. tauto.
  - cbn [forEach]. unfold mbind, M_bind, bind.
    unfold _unsetImportantProperty at 1. unfold modify at 1.
    case_bool_decide as Hpresent.
    + destruct (IH (set_importantItemProperties
                      (removeFirst property (_importantItemProperties c)) c))
        as (important & -> & Hnodup & Hmember).
      { simpl. by apply removeFirst_keeps_NoDup. }
      exists important. split; [done|]. split; [done|].
      intros name. simpl in Hmember.
      rewrite Hmember, elem_of_removeFirst, not_elem_of_cons by done. tauto.
    + destruct (IH c Hc) as (important & -> & Hnodup & Hmember).
      exists important. split; [done|]. split; [done|].
      intros name. rewrite Hmember, not_elem_of_cons.
      split; [|tauto]. intros [Hname Hnot]. split; [done|].
      split; [|done]. by intros ->.
Qed.

Lemma switchImportantProperties_add (c : Display) :
  exists important,
    _switchImportantPropertiesByUserSort true c =
      (Return tt, set_importantItemProperties important c) /\
    (NoDup (_importantItemProperties c) -> NoDup important) /\
    forall name,
      name ∈ important <->
      name ∈ _importantItemProperties c \/
      name ∈ functorProperties (readArray (_sort c) c).
Proof.
  unfold _switchImportantPropertiesByUserSort.
  unfold mbind, M_bind, bind. unfold gets at 1.
  generalize (readArray (_sort c) c). intros sorts. revert c.
  induction sorts as [|sort sorts IH]; intros c.
  - exists (_importantItemProperties c). simpl. unfold ret.
    rewrite set_importantItemProperties_same. split; [done|]. split; [done|].
    intros name. rewrite elem_of_nil. tauto.
  - cbn [forEach functorProperties flat_map]. unfold mbind, M_bind, bind.
    assert (exists important,
      _functorToImportantProperties sort true c =
        (Return tt, set_importantItemProperties important c) /\
      (NoDup (_importantItemProperties c) -> NoDup important) /\
      forall name,
        name ∈ important <->
        name ∈ _importantItemProperties c \/
        name ∈ match sort with
               | VFun f => default [] (fnProperties f)
               | _ => []
               end) as (important1 & -> & Hnodup1 & Hmember1).
    { assert (exists important,
        (Return tt, c) =
          (Return tt, set_importantItemProperties important c) /\
        (NoDup (_importantItemProperties c) -> NoDup important) /\
        forall name,
          name ∈ important <-> name ∈ _importantItemProperties c \/ name ∈ [])
        as Hnothing.
      { exists (_importantItemProperties c).
        rewrite set_importantItemProperties_same. split; [done|].
        split; [done|]. intros name. rewrite elem_of_nil. tauto. }
      destruct sort as [| f | | |]; try exact Hnothing.
      unfold _functorToImportantProperties.
      destruct (fnProperties f) as [properties|]; [|exact Hnothing].
      apply setImportantProperties_run. }
    destruct (IH (set_importantItemProperties important1 c))
      as (important & -> & Hnodup & Hmember).
    exists important. split; [done|]. simpl in *. split; [auto|].
    intros name. rewrite Hmember, Hmember1, elem_of_app.
    fold (functorProperties sorts). tauto.
Qed.

Lemma switchImportantProperties_remove (c : Display) :
  NoDup (_importantItemProperties c) ->
  exists important,
    _switchImportantPropertiesByUserSort false c =
      (Return tt, set_importantItemProperties important c) /\
    NoDup important /\
    forall name,
      name ∈ important <->
      name ∈ _importantItemProperties c /\
      name ∉ functorProperties (readArray (_sort c) c).
Proof.
  unfold _switchImportantPropertiesByUserSort.
  unfold mbind, M_bind, bind. unfold gets at 1.
  generalize (readArray (_sort c) c). intros sorts. revert c.
  induction sorts as [|sort sorts IH]; intros c Hc.
  - exists (_importantItemProperties c). simpl. unfold ret.
    rewrite set_importantItemProperties_same. split; [done|]. split; [done|].
    intros name. rewrite elem_of_nil. tauto.
  - cbn [forEach functorProperties flat_map]. unfold mbind, M_bind, bind.
    assert (exists important,
      _functorToImportantProperties sort false c =
        (Return tt, set_importantItemProperties important c) /\
      NoDup important /\
      forall name,
        name ∈ important <->
        name ∈ _importantItemProperties c /\
        name ∉ match sort with
               | VFun f => default [] (fnProperties f)
               | _ => []
               end) as (important1 & -> & Hnodup1 & Hmember1).
    { assert (exists important,
        (Return tt, c) =
          (Return tt, set_importantItemProperties important c) /\
        NoDup important /\
        forall name,
          name ∈ important <-> name ∈ _importantItemProperties c /\ name ∉ [])
        as Hnothing.
      { exists (_importantItemProperties c).
        rewrite set_importantItemProperties_same. split; [done|].
        split; [done|]. intros name. rewrite elem_of_nil. tauto. }
      destruct sort as [| f | | |]; try exact Hnothing.
      unfold _functorToImportantProperties.
      destruct (fnProperties f) as [properties|]; [|exact Hnothing].
      by apply unsetImportantProperties_run. }
    destruct (IH (set_importantItemProperties important1 c))
      as (important & -> & Hnodup & Hmember); [done|].
    exists important. split; [done|]. simpl in *. split; [auto|].
    intros name. rewrite Hmember, Hmember1, elem_of_app.
    fold (functorProperties sorts). tauto.
Qed.

Lemma sortChanged_properties {A} (g : list Val -> list Val) (c : Display)
    (rest : option Session -> Method A) :
  (forall session,
     preserves
       (fun c : Display => (heap c, _sort c, _importantItemProperties c))
       (rest session)) ->
  NoDup (_importantItemProperties c) ->
  is_Some (heap c !! _sort c) ->
  let sorts := readArray (_sort c) c in
  let c' :=
    stateAfter
      (session ← _startUpdateSession;
       _switchImportantPropertiesByUserSort false;;
       sortArray ← gets _sort;
       mutateArray sortArray g;;
       _switchImportantPropertiesByUserSort true;;
       rest session) c in
  _sort c' = _sort c /\
  readArray (_sort c') c' = g sorts /\
  NoDup (_importantItemProperties c') /\
  forall name,
    name ∈ _importantItemProperties c' <->
    (name ∈ _importantItemProperties c /\ name ∉ functorProperties sorts) \/
    name ∈ functorProperties (g sorts).
Proof.
  intros Hrest Hnodup Harray sorts c'. subst c'.
  rewrite (stateAfter_bind _ _ c c (startUpdateSession c)) by done.
  destruct (switchImportantProperties_remove c Hnodup)
    as (important1 & Hrun1 & Hnodup1 & Hmember1).
  rewrite (stateAfter_bind _ _ _ _ tt Hrun1).
  set (c1 := set_importantItemProperties important1 c) in *.
  rewrite (stateAfter_bind _ _ c1 c1 (_sort c)) by done.
  pose proof (readArray_mutate (_sort c) g c1 Harray) as Hread.
  set (c2 := stateAfter (mutateArray (_sort c) g) c1) in *.
  rewrite (stateAfter_bind _ _ c1 c2 tt) by done.
  destruct (switchImportantProperties_add c2)
    as (important3 & Hrun3 & Hnodup3 & Hmember3).
  rewrite (stateAfter_bind _ _ _ _ tt Hrun3).
  set (c3 := set_importantItemProperties important3 c2) in *.
  specialize (Hrest (startUpdateSession c) c3). cbn beta in Hrest.
  pose proof (f_equal (fun p => fst (fst p)) Hrest) as Hheap.
  pose proof (f_equal (fun p => snd (fst p)) Hrest) as Hsort.
  pose proof (f_equal snd Hrest) as Himportant.
  cbn [fst snd] in Hheap, Hsort, Himportant. clear Hrest.
  unfold readArray in *. rewrite Hheap, Hsort, Himportant.
  change (_sort c3) with (_sort c).
  change (heap c3) with (heap c2).
  change (_importantItemProperties c3) with important3.
  change (_sort c2) with (_sort c) in Hmember3.
  rewrite Hread in *.
  split; [done|]. split; [done|]. split; [by apply Hnodup3|].
  intros name. rewrite Hmember3.
  change (_importantItemProperties c2) with important1.
  by rewrite Hmember1.
Qed.

(** X8: [addSort] of a handler that is not among the sorts, where no
    important property is listed twice.  It puts the handler at the end of
    the array of sorts or, if a position is given, where [splice] puts it,
    in place.  The important properties are afterwards those that no
    functor among the old sorts named, and those the functors among the new
    sorts name; none is listed twice.  So a property that was important
    for another reason than a sort, and that a functor among the old sorts
    named, stays important only if a functor among the new sorts names
    it. *)
Theorem addSort_switches_important_properties (sort : Val) (at_ : option Z)
    (c : Display) :
  sessionNotifies ->
  NoDup (_importantItemProperties c) ->
  is_Some (heap c !! _sort c) ->
  sort ∉ readArray (_sort c) c ->
  let sorts := readArray (_sort c) c in
  let added :=
    match at_ with
    | None => sorts ++ [sort]
    | Some position =>
        take (spliceStart (length sorts) position) sorts
          ++ sort :: drop (spliceStart (length sorts) position) sorts
    end in
  let c' := stateAfter (addSort sort at_) c in
  _sort c' = _sort c /\
  readArray (_sort c') c' = added /\
  NoDup (_importantItemProperties c') /\
  forall name,
    name ∈ _importantItemProperties c' <->
    (name ∈ _importantItemProperties c /\ name ∉ functorProperties sorts) \/
    name ∈ functorProperties added.
Proof.
  intros Hsession Hnodup Harray Habsent sorts added c'. subst c'.
  unfold addSort.
  rewrite (stateAfter_bind _ _ c c sorts) by done.
  destruct (-1 <? indexOf sorts sort) eqn:Hfound.
  { by apply indexOf_elem in Hfound. }
  set (g := match at_ with
            | None => fun xs => xs ++ [sort]
            | Some position => fun xs => splice xs position 0 [sort]
            end).
  assert (g sorts = added) as <-.
  { subst g added. destruct at_; [apply splice_insert | done]. }
  pose proof (sortChanged_properties g c
    (fun session =>
       updateItemsStrategy result_invalidate;;
       _reSort;;
       filtered ← _isFiltered;
       (if (filtered : bool) then _reFilter None None else ret tt);;
       _finishUpdateSession session None)) as Hchanged.
  cbn zeta in Hchanged. subst g.
  destruct at_; apply Hchanged; try done;
    intros session; by apply preserves_sortChanged.
Qed.

(** X9: [removeSort] of a handler that is among the sorts, where no
    important property is listed twice.  It takes the first occurrence of
    the handler out of the array of sorts, in place, and returns [true]
    when it returns.  The important properties are afterwards those that
    no functor among the old sorts named, and those the functors among the
    sorts that are left name; none is listed twice. *)
Theorem removeSort_switches_important_properties (sort : Val) (c : Display) :
  sessionNotifies ->
  NoDup (_importantItemProperties c) ->
  is_Some (heap c !! _sort c) ->
  sort ∈ readArray (_sort c) c ->
  let sorts := readArray (_sort c) c in
  let c' := stateAfter (removeSort sort) c in
  _sort c' = _sort c /\
  readArray (_sort c') c' = removeFirst sort sorts /\
  NoDup (_importantItemProperties c') /\
  (forall name,
     name ∈ _importantItemProperties c' <->
     (name ∈ _importantItemProperties c /\ name ∉ functorProperties sorts) \/
     name ∈ functorProperties (removeFirst sort sorts)) /\
  forall result,
    outcomeOf (removeSort sort) c = Return result -> result = true.
Proof.
  intros Hsession Hnodup Harray Hpresent sorts c'. subst c'.
  unfold removeSort.
  rewrite (stateAfter_bind _ _ c c sorts) by done.
  rewrite (outcomeOf_bind _ _ c c sorts) by done.
  destruct (strictEq (indexOf sorts sort) (-1)) eqn:Habsent.
  { by apply indexOf_absent in Habsent. }
  rewrite <- (splice_removeFirst sorts sort) by done.
  pose proof (sortChanged_properties
    (fun xs => splice xs (indexOf sorts sort) 1 []) c
    (fun session =>
       updateItemsStrategy result_invalidate;;
       _reSort;;
       filtered ← _isFiltered;
       (if (filtered : bool) then _reFilter None None else ret tt);;
       _finishUpdateSession session None;;
       ret true)) as Hchanged.
  cbn zeta beta in Hchanged.
  destruct Hchanged as (Hsort & Hread & Hnodup' & Hmember); try done.
  { intros session. by apply preserves_sortChanged_true. }
  split; [done|]. split; [done|]. split; [done|]. split; [done|].
  intros result. unfold outcomeOf, mbind, M_bind, bind.
  repeat match goal with
         | |- context [match ?m ?s with _ => _ end] =>
             destruct (m s) as [[?|?|] ?]; try done
         end.
  unfold ret. by intros [= <-].
Qed.

(** ** Groups *)

Lemma groupByIndexLoop_groupAt (items : list CollectionItem) (position : nat)
    (currentGroupId : Contents) (itemIndex : Z) :
  (position < length items)%nat ->
  groupByIndexLoop (itemIndex + Z.of_nat position) items currentGroupId
    itemIndex =
  groupAt items position currentGroupId.
Proof.
  revert position currentGroupId itemIndex.
  induction items as [|item items IH];
    intros position currentGroupId itemIndex Hposition; simpl in *; [lia|].
  destruct position as [|position].
  - by rewrite Z.add_0_r, Z.eqb_refl.
  - rewrite (proj2 (Z.eqb_neq _ _)) by lia.
    replace (itemIndex + Z.of_nat (S position))
      with (itemIndex + 1 + Z.of_nat position) by lia.
    apply IH. lia.
Qed.

Lemma groupByIndexLoop_outside (items : list CollectionItem) (index : Z)
    (currentGroupId : Contents) (itemIndex : Z) :
  ~ (itemIndex <= index < itemIndex + Z.of_nat (length items)) ->
  groupByIndexLoop index items currentGroupId itemIndex =
  default currentGroupId
    (last (contents <$> filter (fun item => isGroupItem item = true) items)).
Proof.
  revert currentGroupId itemIndex.
  induction items as [|item items IH]; intros currentGroupId itemIndex Hindex;
    simpl in *; [done|].
  rewrite (proj2 (Z.eqb_neq _ _)) by lia.
  rewrite IH by lia. rewrite filter_cons.
  destruct (isGroupItem item) eqn:Hgroup.
  - rewrite decide_True by done. rewrite fmap_cons, last_cons.
    by destruct (last _).
  - rewrite decide_False by done. done.
Qed.

Lemma groupItemsLoop_members (groupId : Contents)
    (pairs : list (CollectionItem * Z)) (currentGroupId : Contents)
    (collected : list CollectionItem) (item : CollectionItem) :
  item ∈ snd (foldl
    (fun state '(item, index) =>
       (fun '(currentGroupId, items) (item : CollectionItem) (_ : Z) =>
          if isGroupItem item then (contents item, items)
          else if strictEq currentGroupId groupId
               then (currentGroupId, items ++ [item])
               else (currentGroupId, items)) state item index)
    (currentGroupId, collected) pairs) <->
  item ∈ collected \/
  exists position : nat,
    (fst <$> pairs) !! position = Some item /\
    isGroupItem item = false /\
    groupAt (fst <$> pairs) position currentGroupId = groupId.
Proof.
  revert currentGroupId collected.
  induction pairs as [|[first index] pairs IH];
    intros currentGroupId collected.
  - simpl. split; [by left|]. intros [?|(position & Hat & _)]; [done|].
    by rewrite lookup_nil in Hat.
  - cbn [foldl fmap list_fmap fst]. cbn beta iota.
    destruct (isGroupItem first) eqn:Hgroup.
    + rewrite IH. split.
      * intros [?|(position & Hat & Hplain & Hid)]; [by left|right].
        exists (S position). simpl. by rewrite Hgroup.
      * intros [?|(position & Hat & Hplain & Hid)]; [by left|].
        destruct position as [|position]; simpl in *.
        -- injection Hat as ->. congruence.
        -- rewrite Hgroup in Hid. right. by exists position.
    + unfold strictEq. case_bool_decide as Hsame.
      * rewrite IH, elem_of_app, list_elem_of_singleton. split.
        -- intros [[?| ->]|(position & Hat & Hplain & Hid)].
           ++ by left.
           ++ right. exists 0%nat. simpl. by rewrite Hgroup.
           ++ right. exists (S position). simpl. by rewrite Hgroup.
        -- intros [?|(position & Hat & Hplain & Hid)]; [by left; left|].
           destruct position as [|position]; simpl in *.
           ++ injection Hat as ->. left. by right.
           ++ rewrite Hgroup in Hid. right. by exists position.
      * rewrite IH. split.
        -- intros [?|(position & Hat & Hplain & Hid)]; [by left|right].
           exists (S position). simpl. by rewrite Hgroup.
        -- intros [?|(position & Hat & Hplain & Hid)]; [by left|].
           destruct position as [|position]; simpl in *.
           ++ rewrite Hgroup in Hid. done.
           ++ rewrite Hgroup in Hid. right. by exists position.
Qed.

(** X10: [getGroupItems(groupId)] returns, and the items it returns are
    the items of the enumeration of the projection that are not groups and
    for whose position [getGroupByIndex] returns [groupId]. *)
Theorem getGroupItems_agrees_with_getGroupByIndex (groupId : Contents)
    (c : Display) :
  let items := fst <$> enumerator_each (viewOf c) enumerator_new in
  exists result,
    outcomeOf (getGroupItems groupId) c = Return result /\
    forall item,
      item ∈ result <->
      exists position : nat,
        items !! position = Some item /\
        isGroupItem item = false /\
        outcomeOf (getGroupByIndex (Z.of_nat position)) c = Return groupId.
Proof.
  intros items. eexists. split; [done|].
  intros item. unfold getGroupByIndex, each, _getEnumerator. run.
  unfold outcomeOf. cbn [fst].
  rewrite groupItemsLoop_members, elem_of_nil. fold items.
  split.
  - intros [[]|(position & Hat & Hplain & Hid)].
    exists position. split; [done|]. split; [done|].
    rewrite <- (Z.add_0_l (Z.of_nat position)).
    rewrite groupByIndexLoop_groupAt by (by eapply lookup_lt_Some).
    by rewrite Hid.
  - intros (position & Hat & Hplain & Hid). right.
    exists position. split; [done|]. split; [done|].
    rewrite <- (Z.add_0_l (Z.of_nat position)) in Hid.
    rewrite groupByIndexLoop_groupAt in Hid by (by eapply lookup_lt_Some).
    by injection Hid.
Qed.

(** X11: for an index that is not a position of the enumeration,
    [getGroupByIndex] does not return [undefined] but the identifier of
    the last group of the projection; it returns [undefined] when the
    projection has no group. *)
Theorem getGroupByIndex_out_of_range (index : Z) (c : Display) :
  let items := fst <$> enumerator_each (viewOf c) enumerator_new in
  ~ (0 <= index < Z.of_nat (length items)) ->
  outcomeOf (getGroupByIndex index) c =
  Return
    (default (Scalar PUndefined)
       (last (contents <$> filter (fun item => isGroupItem item = true) items))).
Proof.
  intros items Hindex. unfold getGroupByIndex, each, _getEnumerator. run.
  unfold outcomeOf. cbn [fst]. fold items.
  by rewrite groupByIndexLoop_outside.
Qed.

(** ** Items added to and removed from the source *)

Lemma splice_within {A} (xs : list A) (start count : Z) (added : list A) :
  0 <= start -> 0 <= count -> start + count <= Z.of_nat (length xs) ->
  splice xs start count added =
  take (Z.to_nat start) xs ++ added ++ drop (Z.to_nat (start + count)) xs.
Proof.
  intros Hstart Hcount Hfinish. unfold splice, spliceStart, spliceCount.
  rewrite (proj2 (Z.ltb_ge _ _)) by lia.
  replace (Z.to_nat (Z.min start (Z.of_nat (length xs))))
    with (Z.to_nat start) by lia.
  do 3 f_equal. lia.
Qed.

Lemma strategySplice_run (start deleteCount : Z) (added : option (list Val))
    (c : Display) :
  let composer := default (createComposer c) (_composer c) in
  strategySplice start deleteCount added c =
  (Return (snd (result_splice composer start deleteCount added)),
   set_composer (Some (fst (result_splice composer start deleteCount added)))
     c).
Proof.
  intros composer. unfold strategySplice. unfold mbind, M_bind, bind.
  rewrite getItemsStrategy_run. fold composer.
  by destruct (result_splice composer start deleteCount added).
Qed.

(** X12: [_removeItems(start, count)] where the sort map orders the
    indices of [n] items, the filter map has an entry for each of them, and
    the range to remove, from the display index of [start] on, lies within
    them.  It returns the items the strategy gave up and that index, cuts
    the entries of the range out of the filter map, and leaves a sort map
    that orders the indices of the [n - count] items that are left: the two
    maps stay in step. *)
Theorem removeItems_keeps_maps_in_step (start : Z) (count : option Z)
    (n : Z) (c : Display) :
  let composer := default (createComposer c) (_composer c) in
  let deleteCount :=
    match count with
    | None => result_count composer - start
    | Some count => count
    end in
  let spliced := result_splice composer start deleteCount None in
  let innerIndex := result_getDisplayIndex (fst spliced) start in
  _sortMap c ≡ₚ seqZ 0 n ->
  length (_filterMap c) = Z.to_nat n ->
  0 <= innerIndex -> 0 <= deleteCount -> innerIndex + deleteCount <= n ->
  exists c',
    _removeItems (Some start) count c = (Return (snd spliced, innerIndex), c') /\
    _composer c' = Some (fst spliced) /\
    _filterMap c' =
      take (Z.to_nat innerIndex) (_filterMap c)
        ++ drop (Z.to_nat (innerIndex + deleteCount)) (_filterMap c) /\
    length (_filterMap c') = Z.to_nat (n - deleteCount) /\
    _sortMap c' ≡ₚ seqZ 0 (n - deleteCount).
Proof.
  intros composer count' spliced innerIndex Hsort Hlength Hinner Hcount Hfinish.
  unfold _removeItems. unfold mbind, M_bind, bind.
  rewrite getItemsStrategy_run. fold composer. cbn [default from_option].
  unfold id.
  assert (match count with
          | Some count0 => count0
          | None => result_count composer - start
          end = count') as -> by (by destruct count).
  rewrite strategySplice_run.
  cbn [_composer set_composer default from_option]. unfold id.
  fold spliced. unfold _getItemIndex. unfold mbind, M_bind, bind.
  rewrite (getItemsStrategy_existing (fst spliced)) by done.
  unfold ret at 1. fold innerIndex. unfold modify at 1.
  match goal with
  | |- context [_removeFromSortMap _ _ ?s] =>
      destruct (removeFromSortMap_run innerIndex count' s)
        as (removed & cursor & utility & -> & _)
  end.
  { cbn [_sortMap set_filterMap set_composer]. rewrite Hsort.
    apply NoDup_seqZ. }
  eexists. split; [done|].
  cbn [_composer _filterMap _sortMap set_utilityEnumerator
       set_cursorEnumerator set_sortMap set_filterMap set_composer].
  split; [done|].
  rewrite splice_within, app_nil_l by lia.
  split; [done|]. split.
  - rewrite length_app, length_take, length_drop. lia.
  - rewrite Hsort. by rewrite shift_seqZ.
Qed.

(** X13: [_addItems(start, items)] where the display index [innerIndex]
    of [start] lies within the filter map and the sort map.  It returns
    that index.  The items get, at [innerIndex], an entry of the filter map
    that shows them exactly when the projection has no filter, and the
    entries of the other items keep their value and their order.  The sort
    map gets the indices from [innerIndex] on at [innerIndex]; the indices
    it held are not raised, so an index from [innerIndex] on that it held
    is in it twice until the projection is sorted again. *)
Theorem addItems_splices_maps (start : Z) (items : list Val) (c : Display) :
  let composer := default (createComposer c) (_composer c) in
  let spliced := result_splice composer start 0 (Some items) in
  let innerIndex := result_getDisplayIndex (fst spliced) start in
  let filtered := (0 <? length (readArray (_filter c) c))%nat in
  0 <= innerIndex ->
  innerIndex <= Z.of_nat (length (_filterMap c)) ->
  innerIndex <= Z.of_nat (length (_sortMap c)) ->
  exists c',
    _addItems start items c = (Return innerIndex, c') /\
    _composer c' = Some (fst spliced) /\
    _filterMap c' =
      take (Z.to_nat innerIndex) (_filterMap c)
        ++ replicate (length items) (Some (negb filtered))
        ++ drop (Z.to_nat innerIndex) (_filterMap c) /\
    _sortMap c' =
      take (Z.to_nat innerIndex) (_sortMap c)
        ++ seqZ innerIndex (Z.of_nat (length items))
        ++ drop (Z.to_nat innerIndex) (_sortMap c) /\
    forall index,
      innerIndex <= index < innerIndex + Z.of_nat (length items) ->
      index ∈ _sortMap c -> ~ NoDup (_sortMap c').
Proof.
  intros composer spliced innerIndex filtered Hinner HfilterMap HsortMap.
  unfold _addItems, _isFiltered. unfold mbind, M_bind, bind.
  unfold gets at 1. fold filtered.
  rewrite strategySplice_run. fold composer. fold spliced.
  unfold _getItemIndex. unfold mbind, M_bind, bind.
  rewrite (getItemsStrategy_existing (fst spliced)) by done.
  unfold ret at 1. fold innerIndex. unfold modify, ret.
  eexists. split; [done|].
  cbn [_composer _filterMap _sortMap set_sortMap set_filterMap set_composer].
  split; [done|].
  rewrite !splice_within by lia. rewrite !Z.add_0_r.
  assert ((fun _ : Val => Some (negb filtered)) <$> items =
          replicate (length items) (Some (negb filtered))) as ->.
  { clear. induction items as [|item items IH]; [done|]. simpl. by f_equal. }
  assert (imap (fun (index : nat) (_ : Val) => innerIndex + Z.of_nat index)
            items = seqZ innerIndex (Z.of_nat (length items))) as ->.
  { apply list_eq. intros position. rewrite list_lookup_imap.
    destruct (items !! position) as [item|] eqn:Hitem; simpl.
    - apply lookup_lt_Some in Hitem. symmetry.
      rewrite lookup_seqZ. split; lia.
    - apply lookup_ge_None in Hitem. symmetry.
      apply lookup_seqZ_ge. lia. }
  split; [done|]. split; [done|].
  intros index Hindex Hheld Hnodup.
  rewrite <- (take_drop (Z.to_nat innerIndex) (_sortMap c)) in Hheld.
  apply NoDup_app in Hnodup as (_ & Hfirst & Hnodup).
  apply NoDup_app in Hnodup as (_ & Hsecond & _).
  assert (index ∈ seqZ innerIndex (Z.of_nat (length items))) as Hnew.
  { apply elem_of_seqZ. lia. }
  apply elem_of_app in Hheld as [Hheld|Hheld].
  - apply (Hfirst index Hheld). apply elem_of_app. by left.
  - by apply (Hsecond index Hnew).
Qed.

(** X14: [_reBuild(reset)] where the strategy counts the items it has
    and the handlers of the filter are functions.  It returns and notifies
    nothing; afterwards the sort map holds the indices of the items in
    their order, and the entry of the filter map of every item says whether
    all the filters accept the item, with its index as the position, a
    group being shown to the filters with whether one of the items between
    it and the next group was accepted; an index that is not that of an
    item has no entry. *)
Theorem reBuild_shows_accepted_items (reset : bool) (c : Display) :
  let composer :=
    group_invalidate
      ((if reset then result_reset else id)
         (default (createComposer c) (_composer c))) in
  let items := result_items composer in
  let filters := readArray (_filter c) c in
  let n := Z.of_nat (length items) in
  result_count composer = n ->
  Forall (fun filter => isFunction filter = true) filters ->
  exists c',
    _reBuild reset c = (Return tt, c') /\
    _composer c' = Some composer /\
    _sortMap c' = seqZ 0 n /\
    (forall (index : nat) item,
       items !! index = Some item ->
       filterMapGet (_filterMap c') (Z.of_nat index) =
       Some (accepts filters item (Z.of_nat index) (Z.of_nat index)
               (if isGroupItem item
                then Some (groupHasMembers filters items 0 n
                             (drop (S index) (seqZ 0 n))
                             (Z.of_nat index + 1))
                else None))) /\
    (forall index,
       ~ (0 <= index < n) -> filterMapGet (_filterMap c') index = None) /\
    trace c' = trace c.
Proof.
  intros composer items filters n Hcount Hfilters.
  destruct (reBuild_run reset c Hcount Hfilters)
    as (filterMap & cursor & utility & Hrun & Hin & Hout).
  eexists. split; [exact Hrun|]. done.
Qed.

(** ** A change of an item that the caller reports *)

(** X15: [notifyItemChange(item)] on a projection that has neither
    filters nor a group.  When events are not raised it does nothing.
    When they are, it notifies the beginning of a change, one change of
    the item by itself at the index [getIndex] gives for it, if changes of
    the collection are to be notified, and the end of the change; it
    touches neither the filter map nor the sort map. *)
Theorem notifyItemChange_on_plain_projection (item : CollectionItem)
    (c : Display) :
  readArray (_filter c) c = [] ->
  truthy (_group c) = false ->
  let utility := default enumerator_new (_utilityEnumerator c) in
  let c1 := set_utilityEnumerator (Some utility) c in
  let index :=
    enumerator_getIndexByInstanceId (viewOf c1) utility (instanceId item) in
  notifyItemChange item c =
  (Return tt,
   if _eventRaising c then
     set_trace
       (trace c ++
        [NotifyLater onBeforeCollectionChange] ++
        (if needNotifyCollectionChange c
         then [NotifyLater
                 (onCollectionChange ACTION_CHANGE [item] index [item] index)]
         else []) ++
        [Notify onAfterCollectionChange]) c1
   else c).
Proof.
  intros Hfilter Hgroup utility c1 index.
  unfold notifyItemChange, _isFiltered, _isGrouped, isEventRaising.
  unfold mbind, M_bind, bind. unfold gets at 1 2. rewrite Hfilter, Hgroup.
  cbn [length Nat.ltb Nat.leb orb]. unfold ret at 1. unfold gets at 1.
  destruct (_eventRaising c) eqn:Hraising; cbn [negb]; [|done].
  assert (getIndex (VItem item) c = (Return index, c1)) as ->.
  { unfold getIndex, getInstanceId, getIndexByInstanceId,
      _getUtilityEnumerator, _getEnumerator. run.
    subst index c1 utility.
    destruct (_utilityEnumerator c) eqn:Hutility; simpl; [|done].
    assert (set_utilityEnumerator (Some e) c = c) as ->; [|done].
    rewrite <- Hutility. by destruct c. }
  rewrite notifyBefore_run. unfold beforeChange.
  change (_eventRaising c1) with (_eventRaising c). rewrite Hraising.
  set (c2 := set_trace (trace c1 ++ [NotifyLater onBeforeCollectionChange]) c1).
  destruct (needNotifyCollectionChange c) eqn:Hneed.
  - rewrite notifyCollectionChange_whole by done.
    rewrite notifyAfter_run. unfold afterChange. subst c2.
    cbn [_eventRaising set_trace trace].
    change (_eventRaising c1) with (_eventRaising c). rewrite Hraising.
    f_equal. change (trace c1) with (trace c).
    rewrite <- !app_assoc. by destruct c.
  - unfold _notifyCollectionChange, _isNeedNotifyCollectionChange.
    unfold mbind, M_bind, bind. unfold gets at 1.
    change (needNotifyCollectionChange c2) with (needNotifyCollectionChange c).
    rewrite Hneed. cbn [negb]. unfold ret at 1.
    rewrite notifyAfter_run. unfold afterChange. subst c2.
    cbn [_eventRaising set_trace trace].
    change (_eventRaising c1) with (_eventRaising c). rewrite Hraising.
    f_equal. change (trace c1) with (trace c).
    rewrite <- !app_assoc. by destruct c.
Qed.

(** ** Changes of the source *)

Lemma getItemIndex_existing (composer : Composer) (index : Z) (c : Display) :
  _composer c = Some composer ->
  _getItemIndex index c = (Return (result_getDisplayIndex composer index), c).
Proof.
  intros Hcomposer. unfold _getItemIndex. unfold mbind, M_bind, bind.
  by rewrite (getItemsStrategy_existing composer).
Qed.

(** Sorting and filtering again, as all the changes but a removal end. *)
Lemma reSort_reFilter_run (composer : Composer) (c : Display) :
  let items := result_items composer in
  let filters := readArray (_filter c) c in
  let n := Z.of_nat (length items) in
  _composer c = Some composer ->
  result_count composer = n ->
  Forall (fun filter => isFunction filter = true) filters ->
  exists filterMap cursor utility,
    (_reSort;; _reFilter None None) c =
    (Return tt,
     set_utilityEnumerator utility
       (set_cursorEnumerator cursor
          (set_filterMap filterMap (set_sortMap (seqZ 0 n) c)))) /\
    forall (index : nat) item,
      items !! index = Some item ->
      filterMapGet filterMap (Z.of_nat index) =
      appliedMatch
        (accepts filters item (Z.of_nat index) (Z.of_nat index)
           (if isGroupItem item
            then Some (groupHasMembers filters items 0 n
                         (drop (S index) (seqZ 0 n))
                         (Z.of_nat index + 1))
            else None))
        (filterMapGet (_filterMap c) (Z.of_nat index)).
Proof.
  intros items filters n Hcomposer Hcount Hfilters.
  unfold mbind, M_bind, bind.
  destruct (reSort_run composer c Hcomposer) as (cursor1 & utility1 & ->).
  fold items. fold n.
  set (c1 := set_utilityEnumerator utility1
               (set_cursorEnumerator cursor1 (set_sortMap (seqZ 0 n) c))).
  assert (default (createComposer c1) (_composer c1) = composer)
    as Hdefault.
  { change (_composer c1) with (_composer c). by rewrite Hcomposer. }
  destruct (reFilter_run 0 None c1)
    as (filterMap & cursor & utility & Hrun & Hin & _ & _).
  - done.
  - done.
  - apply NoDup_seqZ.
  - intros index Hindex%elem_of_seqZ _. rewrite Hdefault. fold items.
    unfold arrayGet. rewrite (proj2 (Z.ltb_ge _ _)) by lia.
    apply lookup_lt_is_Some_2. lia.
  - change (_reFilter (Some 0) None c1) with (_reFilter None None c1) in Hrun.
    rewrite Hrun. rewrite Hdefault in *.
    change (readArray (_filter c1) c1) with filters in Hin.
    fold items in Hin. rewrite Z.add_0_l, Z.sub_0_r, Hcount in Hin.
    exists filterMap, cursor, utility. split.
    + f_equal. rewrite <- Hcomposer. by destruct c.
    + intros index item Hitem.
      apply lookup_lt_Some in Hitem as Hlength.
      apply (Hin (Z.of_nat index) index item).
      * apply lookup_seqZ_0. lia.
      * apply inRange_spec. lia.
      * unfold arrayGet. rewrite (proj2 (Z.ltb_ge _ _)) by lia.
        by rewrite Nat2Z.id.
Qed.

Lemma appliedMatch_shown (match_ : bool) (old : option bool) :
  appliedMatch match_ old = Some true <-> match_ = true.
Proof. unfold appliedMatch. by destruct match_, old. Qed.

Lemma strategySplice_existing (start deleteCount : Z)
    (added : option (list Val)) (composer : Composer) (c : Display) :
  _composer c = Some composer ->
  strategySplice start deleteCount added c =
  (Return (snd (result_splice composer start deleteCount added)),
   set_composer (Some (fst (result_splice composer start deleteCount added)))
     c).
Proof. intros Hcomposer. rewrite strategySplice_run. by rewrite Hcomposer. Qed.

(** What the first part of the handling of a change leaves: a composer,
    and the maps, which are sorted and filtered next. *)
Lemma addItems_prepared (start : Z) (items : list Val) (composer : Composer)
    (c : Display) :
  _composer c = Some composer ->
  exists result composer' filterMap sortMap,
    _addItems start items c =
    (Return result,
     set_sortMap sortMap
       (set_filterMap filterMap (set_composer (Some composer') c))).
Proof.
  intros Hcomposer. unfold _addItems, _isFiltered.
  unfold mbind, M_bind, bind. unfold gets at 1.
  rewrite (strategySplice_existing _ _ _ composer) by done.
  erewrite getItemIndex_existing by done.
  unfold modify, ret. by eexists _, _, _, _.
Qed.

Lemma replaceItems_prepared (start : Z) (items : list Val)
    (composer : Composer) (c : Display) :
  _composer c = Some composer ->
  exists result composer',
    _replaceItems start items c =
    (Return result, set_composer (Some composer') c).
Proof.
  intros Hcomposer. unfold _replaceItems. unfold mbind, M_bind, bind.
  rewrite (strategySplice_existing _ _ _ composer) by done.
  erewrite getItemIndex_existing by done.
  unfold ret. by eexists _, _.
Qed.

Lemma moveItems_prepared (newIndex oldIndex : Z) (items : list Val)
    (composer : Composer) (c : Display) :
  _composer c = Some composer ->
  exists result composer',
    _moveItems newIndex oldIndex items c =
    (Return result, set_composer (Some composer') c).
Proof.
  intros Hcomposer. unfold _moveItems. unfold mbind, M_bind, bind.
  rewrite (strategySplice_existing _ _ _ composer) by done.
  erewrite strategySplice_existing by done.
  erewrite getItemIndex_existing by done.
  unfold ret. by eexists _, _.
Qed.

Lemma removeItems_prepared (start count : option Z) (composer : Composer)
    (c : Display) :
  _composer c = Some composer ->
  exists result composer' filterMap sortMap cursor utility,
    _removeItems start count c =
    (Return result,
     set_utilityEnumerator utility
       (set_cursorEnumerator cursor
          (set_sortMap sortMap
             (set_filterMap filterMap (set_composer (Some composer') c))))).
Proof.
  intros Hcomposer. unfold _removeItems. unfold mbind, M_bind, bind.
  rewrite (getItemsStrategy_existing composer) by done.
  rewrite (strategySplice_existing _ _ _ composer) by done.
  erewrite getItemIndex_existing by done.
  unfold modify at 1. unfold _removeFromSortMap.
  unfold mbind, M_bind, bind. unfold gets at 1.
  destruct (collectToRemove _ _ _ _) as [toRemove removed].
  unfold modify at 1 2.
  match goal with
  | |- context [_reIndex ?s] =>
      destruct (reIndex_run s) as (cursor & utility & ->)
  end.
  unfold ret. by eexists _, _, _, _, cursor, utility.
Qed.

Lemma sorted_filtered (composer : Composer) (c c1 : Display) :
  strategyCounts ->
  heap c1 = heap c -> _filter c1 = _filter c ->
  _composer c1 = Some composer ->
  Forall (fun filter => isFunction filter = true) (readArray (_filter c) c) ->
  exists c2,
    (_reSort;; _reFilter None None) c1 = (Return tt, c2) /\
    showsAccepted (readArray (_filter c) c) c2 /\
    heap c2 = heap c /\ _filter c2 = _filter c /\ trace c2 = trace c1.
Proof.
  intros Hcounts Hheap Hfilter Hcomposer Hfilters.
  assert (readArray (_filter c1) c1 = readArray (_filter c) c) as Hsame.
  { unfold readArray. by rewrite Hheap, Hfilter. }
  destruct (reSort_reFilter_run composer c1 Hcomposer (Hcounts composer))
    as (filterMap & cursor & utility & Hrun & Hin).
  { by rewrite Hsame. }
  eexists. split; [exact Hrun|]. rewrite Hsame in Hin.
  split; [|done].
  exists composer. split; [done|]. split; [done|].
  intros index item Hitem.
  cbn [_filterMap set_utilityEnumerator set_cursorEnumerator set_filterMap].
  rewrite (Hin index item Hitem). apply appliedMatch_shown.
Qed.

Lemma showsAccepted_trace (filters : list Val) (c : Display)
    (emitted : list Notification) :
  showsAccepted filters c -> showsAccepted filters (set_trace emitted c).
Proof.
  intros (composer & Hcomposer & Hshown). exists composer.
  split; [done | exact Hshown].
Qed.

Lemma changedItemsOf_run (composer : Composer) (items : list CollectionItem)
    (indices : list Z) (c : Display) :
  _composer c = Some composer ->
  exists changed, changedItemsOf items indices c = (Return changed, c).
Proof.
  intros Hcomposer. induction indices as [|index indices IH].
  - by eexists.
  - destruct IH as [changed Hrun]. cbn [changedItemsOf].
    unfold mbind, M_bind, bind.
    rewrite (getItemIndex_existing composer) by done. rewrite Hrun.
    by eexists.
Qed.

Lemma notifyCollectionItemsChange_run (composer : Composer)
    (changed : list Val) (index : Z) (session : option Session)
    (c : Display) :
  _composer c = Some composer ->
  exists emitted,
    _notifyCollectionItemsChange changed index session c =
    (Return tt, set_trace emitted c).
Proof.
  intros Hcomposer. unfold _notifyCollectionItemsChange, _getItems.
  unfold mbind, M_bind, bind.
  rewrite (getItemsStrategy_existing composer) by done.
  unfold ret at 1.
  destruct (changedItemsOf_run composer (result_items composer)
              (seqZ index (Z.of_nat (length changed))) c Hcomposer)
    as [changedItems ->].
  rewrite notifyBefore_run. unfold gets at 1.
  match goal with
  | |- context [forEach ?packs _ ?s] =>
      destruct (forEach_packs packs session s) as (emitted & -> & _)
  end.
  rewrite notifyAfter_run. by eexists.
Qed.

Lemma bind_assoc_run {A B C} (m : Method A) (k : A -> Method B)
    (h : B -> Method C) (c : Display) :
  ((m ≫= k) ≫= h) c = (m ≫= (fun a => k a ≫= h)) c.
Proof.
  unfold mbind, M_bind, bind. by destruct (m c) as [[a|e|] c1].
Qed.

Lemma finished_shows (session : option Session) (analize : option bool)
    (c c2 : Display) :
  sessionNotifies ->
  showsAccepted (readArray (_filter c) c) c2 ->
  heap c2 = heap c -> _filter c2 = _filter c ->
  exists c',
    _finishUpdateSession session analize c2 = (Return tt, c') /\
    showsAccepted (readArray (_filter c) c) c' /\
    heap c' = heap c /\ _filter c' = _filter c /\
    _composer c' = _composer c2.
Proof.
  intros Hsession Hshown Hheap Hfilter.
  unfold _finishUpdateSession, modify.
  destruct (Hsession session analize c2) as [emitted ->].
  eexists. split; [done|]. split; [by apply showsAccepted_trace|done].
Qed.

(** The end of the handling of a change: sorted, filtered, and the session
    closed. *)
Lemma sorted_filtered_finished (composer : Composer)
    (session : option Session) (analize : option bool) (c c1 : Display) :
  sessionNotifies ->
  strategyCounts ->
  Forall (fun filter => isFunction filter = true) (readArray (_filter c) c) ->
  heap c1 = heap c -> _filter c1 = _filter c ->
  _composer c1 = Some composer ->
  exists c',
    (_reSort;; _reFilter None None;;
     _finishUpdateSession session analize) c1 = (Return tt, c') /\
    showsAccepted (readArray (_filter c) c) c' /\
    heap c' = heap c /\ _filter c' = _filter c /\ is_Some (_composer c').
Proof.
  intros Hsession Hcounts Hfilters Hheap Hfilter Hcomposer.
  destruct (sorted_filtered composer c c1 Hcounts Hheap Hfilter Hcomposer
              Hfilters)
    as (c2 & Hrun2 & Hshown & Hheap2 & Hfilter2 & _).
  unfold mbind, M_bind, bind in *.
  destruct (_reSort c1) as [[[]| |] c1']; [|done|done].
  rewrite Hrun2.
  destruct (finished_shows session analize c c2 Hsession Hshown Hheap2
              Hfilter2)
    as (c' & -> & Hshown' & Hheap' & Hfilter' & Hcomposer').
  exists c'. repeat (split; [done|]).
  rewrite Hcomposer'. destruct Hshown as (composer2 & -> & _). by eexists.
Qed.

Lemma toArray_run (c : Display) :
  toArray c =
  (Return (fst <$> enumerator_each (viewOf c) enumerator_new), c).
Proof.
  unfold toArray, each, _getEnumerator. run. f_equal. f_equal.
  generalize (enumerator_each (viewOf c) enumerator_new).
  intros pairs.
  assert (forall collected : list CollectionItem,
            foldl (fun result '(item, _) => result ++ [item]) collected pairs
            = collected ++ (fst <$> pairs)) as Hcollect.
  { induction pairs as [|[item index] pairs IH]; intros collected; simpl.
    - by rewrite app_nil_r.
    - rewrite IH. by rewrite <- app_assoc. }
  apply Hcollect.
Qed.

(** The handling of a reset, step by step. *)
Lemma reset_run (newItems : list Val) (newItemsIndex : Z)
    (oldItems : list Val) (oldItemsIndex : Z) (c rebuilt : Display) :
  _reBuild true c = (Return tt, rebuilt) ->
  trace rebuilt = trace c ->
  _eventRaising rebuilt = _eventRaising c ->
  needNotifyCollectionChange rebuilt = needNotifyCollectionChange c ->
  handleCollectionChange ACTION_RESET newItems newItemsIndex oldItems
    oldItemsIndex c =
  (Return tt,
   set_trace
     (trace c ++ beforeChange c ++
      (if needNotifyCollectionChange c
       then [NotifyLater
               (onCollectionChange ACTION_RESET
                  (fst <$> enumerator_each (viewOf rebuilt) enumerator_new) 0
                  (fst <$> enumerator_each (viewOf c) enumerator_new) 0)]
       else []) ++
      afterChange c) rebuilt).
Proof.
  intros Hrun Htrace Hraising Hneed. unfold handleCollectionChange.
  rewrite (bind_run _ _ _ _ _ (toArray_run c)).
  rewrite (bind_run _ _ _ _ _ Hrun).
  rewrite (bind_run _ _ _ _ _ (toArray_run rebuilt)).
  rewrite (bind_run _ _ _ _ _ (notifyBefore_run rebuilt)).
  set (c1 := set_trace (trace rebuilt ++ beforeChange rebuilt) rebuilt).
  assert (beforeChange rebuilt = beforeChange c) as Hbefore.
  { unfold beforeChange. by rewrite Hraising. }
  assert (afterChange c1 = afterChange c) as Hafter.
  { unfold afterChange. change (_eventRaising c1) with (_eventRaising rebuilt).
    by rewrite Hraising. }
  destruct (needNotifyCollectionChange c) eqn:Hnotify.
  - erewrite bind_run by (by apply notifyCollectionChange_whole).
    rewrite notifyAfter_run.
    change (afterChange (set_trace _ c1)) with (afterChange c1).
    rewrite Hafter. f_equal. subst c1. cbn [trace set_trace].
    rewrite Htrace, Hbefore. rewrite <- !app_assoc. by destruct rebuilt.
  - assert (forall new old,
              _notifyCollectionChange (Session := Session) ACTION_RESET new 0
                old 0 None c1 = (Return tt, c1)) as Hnothing.
    { intros new old.
      unfold _notifyCollectionChange, _isNeedNotifyCollectionChange.
      unfold mbind, M_bind, bind, gets.
      change (needNotifyCollectionChange c1)
        with (needNotifyCollectionChange rebuilt).
      by rewrite Hneed. }
    rewrite (bind_run _ _ _ _ _ (Hnothing _ _)).
    rewrite notifyAfter_run. rewrite Hafter. f_equal. subst c1.
    cbn [trace set_trace]. rewrite Htrace, Hbefore, app_nil_l.
    rewrite <- !app_assoc. by destruct rebuilt.
Qed.

(** X16: the handler of [onCollectionChange] of the source, for any
    action but a removal, and for a removal when a filter takes the index
    of the item; the strategies count their items, the handlers of the
    filter are functions and the projection has its composer.  The
    handler returns, and the projection afterwards shows the items the
    filters accept: the sort map holds the indices of the items in their
    order, and the entry of the filter map of an item is [true] exactly
    when every filter accepts the item.  The filters are as they were. *)
Theorem handleCollectionChange_shows_accepted_items (action : Action)
    (newItems : list Val) (newItemsIndex : Z) (oldItems : list Val)
    (oldItemsIndex : Z) (c : Display) :
  let filters := readArray (_filter c) c in
  sessionNotifies ->
  strategyCounts ->
  is_Some (_composer c) ->
  Forall (fun filter => isFunction filter = true) filters ->
  (action = ACTION_REMOVE -> existsb _isFilterUseIndex filters = true) ->
  exists c',
    handleCollectionChange action newItems newItemsIndex oldItems
      oldItemsIndex c = (Return tt, c') /\
    showsAccepted filters c' /\
    readArray (_filter c') c' = filters.
Proof.
  intros filters Hsession Hcounts [composer Hcomposer] Hfilters HbyIndex.
  assert (forall c' : Display,
            heap c' = heap c -> _filter c' = _filter c ->
            readArray (_filter c') c' = filters) as Hsame.
  { intros c' Hheap Hfilter. unfold filters, readArray.
    by rewrite Hheap, Hfilter. }
  destruct action; unfold handleCollectionChange.
  - (* add *)
    rewrite (bind_run _ _ c c (startUpdateSession c)) by done.
    rewrite bind_assoc_run.
    destruct (addItems_prepared newItemsIndex newItems composer c Hcomposer)
      as (result & composer1 & filterMap & sortMap & Hrun).
    rewrite (bind_run _ _ _ _ _ Hrun). rewrite bind_assoc_run.
    erewrite bind_run by (by apply (reGroup_run _ _ composer1)).
    rewrite bind_assoc_run.
    edestruct (sorted_filtered_finished (group_invalidate composer1)
                 (startUpdateSession c) None c)
      as (c' & Hrun' & Hshown & Hheap & Hfilter & _);
      [done|done|done| | | |].
    4:{ exists c'. split; [exact Hrun'|]. split; [done|]. by apply Hsame. }
    all: done.
  - (* remove *)
    rewrite (bind_run _ _ c c (startUpdateSession c)) by done.
    rewrite bind_assoc_run.
    destruct (removeItems_prepared (Some oldItemsIndex)
                (Some (Z.of_nat (length oldItems))) composer c Hcomposer)
      as (result & composer1 & filterMap & sortMap & cursor & utility & Hrun).
    rewrite (bind_run _ _ _ _ _ Hrun).
    set (c1 := set_utilityEnumerator utility
                 (set_cursorEnumerator cursor
                    (set_sortMap sortMap
                       (set_filterMap filterMap
                          (set_composer (Some composer1) c))))) in *.
    edestruct (sorted_filtered_finished composer1 (startUpdateSession c)
                 None c c1)
      as (c' & Hrun' & Hshown & Hheap & Hfilter & _);
      [done|done|done|done|done|done|].
    exists c'. split; [|split; [done|by apply Hsame]].
    rewrite <- Hrun'. unfold mbind, M_bind, bind.
    pose proof (preserves_reSort (fun c : Display => (heap c, _filter c))
                  ltac:(done) ltac:(done) ltac:(done) ltac:(done) c1)
      as Hkept.
    unfold stateAfter in Hkept.
    destruct (_reSort c1) as [[[]| |] c2]; [|done|done].
    cbn [snd] in Hkept. injection Hkept as Hheap2 Hfilter2.
    unfold _isFiltered, _isFilteredByIndex, gets.
    assert (readArray (_filter c2) c2 = filters) as ->.
    { by apply Hsame. }
    rewrite HbyIndex by done.
    assert ((0 <? length filters)%nat = true) as ->; [|done].
    specialize (HbyIndex eq_refl). clear -HbyIndex. clearbody filters.
    by destruct filters.
  - (* change *)
    rewrite (bind_run _ _ c c (startUpdateSession c)) by done.
    erewrite bind_run by (by apply (reGroup_run _ _ composer)).
    edestruct (sorted_filtered_finished (group_invalidate composer)
                 (startUpdateSession c) (Some false) c
                 (set_composer (Some (group_invalidate composer)) c))
      as (c2 & Hrun2 & Hshown & Hheap & Hfilter & [composer2 Hcomposer2]);
      [done|done|done| | | |].
    4:{ unfold mbind, M_bind, bind in *.
        destruct (_reSort _) as [[[]| |] c1']; [|done|done].
        destruct (_reFilter None None c1') as [[[]| |] c1'']; [|done|done].
        rewrite Hrun2.
        destruct (notifyCollectionItemsChange_run composer2 newItems
                    newItemsIndex (startUpdateSession c) c2 Hcomposer2)
          as (emitted & ->).
        eexists. split; [done|]. split.
        - by apply showsAccepted_trace.
        - by apply Hsame. }
    all: done.
  - (* replace *)
    rewrite (bind_run _ _ c c (startUpdateSession c)) by done.
    rewrite bind_assoc_run.
    destruct (replaceItems_prepared newItemsIndex newItems composer c
                Hcomposer)
      as (result & composer1 & Hrun).
    rewrite (bind_run _ _ _ _ _ Hrun). rewrite bind_assoc_run.
    erewrite bind_run by (by apply (reGroup_run _ _ composer1)).
    rewrite bind_assoc_run.
    edestruct (sorted_filtered_finished (group_invalidate composer1)
                 (startUpdateSession c) None c)
      as (c' & Hrun' & Hshown & Hheap & Hfilter & _);
      [done|done|done| | | |].
    4:{ exists c'. split; [exact Hrun'|]. split; [done|]. by apply Hsame. }
    all: done.
  - (* move *)
    rewrite (bind_run _ _ c c (startUpdateSession c)) by done.
    rewrite bind_assoc_run.
    destruct (moveItems_prepared newItemsIndex oldItemsIndex newItems composer
                c Hcomposer)
      as (result & composer1 & Hrun).
    rewrite (bind_run _ _ _ _ _ Hrun). rewrite bind_assoc_run.
    edestruct (sorted_filtered_finished composer1 (startUpdateSession c)
                 None c)
      as (c' & Hrun' & Hshown & Hheap & Hfilter & _);
      [done|done|done| | | |].
    4:{ exists c'. split; [exact Hrun'|]. split; [done|]. by apply Hsame. }
    all: done.
  - (* reset *)
    destruct (reBuild_run true c (Hcounts _) Hfilters)
      as (filterMap & cursor & utility & Hrun & Hin & _).
    fold (handleCollectionChange ACTION_RESET newItems newItemsIndex oldItems
            oldItemsIndex).
    rewrite (reset_run _ _ _ _ c _ Hrun) by done.
    eexists. split; [done|]. split; [|by apply Hsame].
    apply showsAccepted_trace. eexists. split; [done|]. split; [done|].
    intros index item Hitem.
    cbn [_filterMap set_utilityEnumerator set_cursorEnumerator set_filterMap].
    rewrite (Hin index item Hitem).
    split; [intros [= Hshown]; exact Hshown | intros Hshown].
    f_equal. exact Hshown.
Qed.

(** X17: the handler of [onCollectionChange] of the source, for a reset,
    where the strategies count their items and the handlers of the filter
    are functions.  It rebuilds the projection as [_reBuild(true)] does and
    then notifies, between the beginning and the end of the change where
    events are raised, one change of action reset, if changes of the
    collection are to be notified: its new items are the items the
    projection enumerates after the rebuild, its old items those it
    enumerated before, both at index 0. *)
Theorem handleCollectionChange_reset_notifies (newItems : list Val)
    (newItemsIndex : Z) (oldItems : list Val) (oldItemsIndex : Z)
    (c : Display) :
  strategyCounts ->
  Forall (fun filter => isFunction filter = true) (readArray (_filter c) c) ->
  exists rebuilt,
    _reBuild true c = (Return tt, rebuilt) /\
    handleCollectionChange ACTION_RESET newItems newItemsIndex oldItems
      oldItemsIndex c =
    (Return tt,
     set_trace
       (trace c ++ beforeChange c ++
        (if needNotifyCollectionChange c
         then [NotifyLater
                 (onCollectionChange ACTION_RESET
                    (fst <$> enumerator_each (viewOf rebuilt) enumerator_new)
                    0
                    (fst <$> enumerator_each (viewOf c) enumerator_new) 0)]
         else []) ++
        afterChange c) rebuilt).
Proof.
  intros Hcounts Hfilters.
  destruct (reBuild_run true c (Hcounts _) Hfilters)
    as (filterMap & cursor & utility & Hrun & _).
  eexists. split; [exact Hrun|]. by apply reset_run.
Qed.

Lemma removeItems_run (start count : Z) (composer : Composer) (c : Display) :
  let spliced := result_splice composer start count None in
  let innerIndex := result_getDisplayIndex (fst spliced) start in
  _composer c = Some composer ->
  exists sortMap cursor utility,
    _removeItems (Some start) (Some count) c =
    (Return (snd spliced, innerIndex),
     set_utilityEnumerator utility
       (set_cursorEnumerator cursor
          (set_sortMap sortMap
             (set_filterMap (splice (_filterMap c) innerIndex count [])
                (set_composer (Some (fst spliced)) c))))).
Proof.
  intros spliced innerIndex Hcomposer.
  unfold _removeItems. unfold mbind, M_bind, bind.
  rewrite (getItemsStrategy_existing composer) by done.
  rewrite (strategySplice_existing _ _ _ composer) by done.
  cbn [default from_option]. unfold id. fold spliced.
  rewrite (getItemIndex_existing (fst spliced)) by done. fold innerIndex.
  unfold modify at 1. unfold _removeFromSortMap.
  unfold mbind, M_bind, bind. unfold gets at 1.
  destruct (collectToRemove _ _ _ _) as [toRemove removed].
  unfold modify at 1 2.
  match goal with
  | |- context [_reIndex ?s] =>
      destruct (reIndex_run s) as (cursor & utility & ->)
  end.
  unfold ret. by eexists _, cursor, utility.
Qed.

(** X18: the handler of [onCollectionChange] of the source, for a
    removal, where no filter takes the index of the item and the range
    removed, from the display index of [oldItemsIndex] on, lies within the
    filter map.  The handler returns; the entries of the range are cut out
    of the filter map and the filters are not asked again, so the items
    that stay are shown as they were; the sort map holds the indices of
    the items that stay, in their order. *)
Theorem handleCollectionChange_remove_keeps_flags (newItems : list Val)
    (newItemsIndex : Z) (oldItems : list Val) (oldItemsIndex : Z)
    (composer : Composer) (c : Display) :
  let count := Z.of_nat (length oldItems) in
  let spliced := result_splice composer oldItemsIndex count None in
  let innerIndex := result_getDisplayIndex (fst spliced) oldItemsIndex in
  sessionNotifies ->
  _composer c = Some composer ->
  existsb _isFilterUseIndex (readArray (_filter c) c) = false ->
  0 <= innerIndex ->
  innerIndex + count <= Z.of_nat (length (_filterMap c)) ->
  exists c',
    handleCollectionChange ACTION_REMOVE newItems newItemsIndex oldItems
      oldItemsIndex c = (Return tt, c') /\
    _composer c' = Some (fst spliced) /\
    _sortMap c' =
      seqZ 0 (Z.of_nat (length (result_items (fst spliced)))) /\
    _filterMap c' =
      take (Z.to_nat innerIndex) (_filterMap c)
        ++ drop (Z.to_nat (innerIndex + count)) (_filterMap c).
Proof.
  intros count spliced innerIndex Hsession Hcomposer HbyIndex Hinner Hfinish.
  unfold handleCollectionChange.
  rewrite (bind_run _ _ c c (startUpdateSession c)) by done.
  rewrite bind_assoc_run.
  destruct (removeItems_run oldItemsIndex count composer c Hcomposer)
    as (sortMap & cursor & utility & Hrun).
  fold spliced innerIndex in Hrun.
  rewrite (bind_run _ _ _ _ _ Hrun). rewrite bind_assoc_run.
  match goal with
  | |- context [(_reSort ≫= _) ?s] =>
      destruct (reSort_run (fst spliced) s) as (cursor' & utility' & Hsort);
        [done|]
  end.
  rewrite (bind_run _ _ _ _ _ Hsort).
  unfold mbind, M_bind, bind. unfold _isFiltered, _isFilteredByIndex, gets.
  match goal with
  | |- context [existsb _isFilterUseIndex (readArray (_filter ?s) ?s)] =>
      change (readArray (_filter s) s) with (readArray (_filter c) c)
  end.
  rewrite HbyIndex, andb_false_r. unfold ret at 1.
  unfold _finishUpdateSession, modify.
  match goal with
  | |- context [finishUpdateSession ?session ?analize ?s] =>
      destruct (Hsession session analize s) as [emitted ->]
  end.
  eexists. split; [done|].
  cbn [_composer _sortMap _filterMap set_trace set_utilityEnumerator
       set_cursorEnumerator set_sortMap set_filterMap set_composer].
  split; [done|]. split; [done|].
  rewrite splice_within by lia. by rewrite app_nil_l.
Qed.

End Upkeep.

(** * The properties on a projection of three items *)

Import Simple.

Lemma stateAfter_run {Composer Enumerator A}
    (m : M (Composer:=Composer) (Enumerator:=Enumerator) A) c o c' :
  m c = (o, c') -> stateAfter m c = c'.
Proof. unfold stateAfter. by intros ->. Qed.

Lemma outcome_state {Composer Enumerator A}
    (m : M (Composer:=Composer) (Enumerator:=Enumerator) A) c o :
  outcomeOf m c = o -> m c = (o, stateAfter m c).
Proof. unfold outcomeOf, stateAfter. intros <-. apply surjective_pairing. Qed.

(** The cursor of the sample projection is before its first item.  Asked
    for the position 7, which no item has, [setCurrentPosition] leaves the
    cursor where it was and notifies [onCurrentChange] with 7 as the new
    position; asked for an item that the projection does not have,
    [setCurrent] leaves it there too and notifies [onCurrentChange] with
    the same item and the same position before and after. *)
Lemma setCurrentPosition_notifies_unmoved_cursor :
  (_cursorEnumerator (stateAfter (setCurrentPosition 7 false) sample) =
     _cursorEnumerator sample /\
   outcomeOf getCurrent (stateAfter (setCurrentPosition 7 false) sample) =
     outcomeOf getCurrent sample /\
   outcomeOf getCurrentPosition
     (stateAfter (setCurrentPosition 7 false) sample) =
     outcomeOf getCurrentPosition sample /\
   trace (stateAfter (setCurrentPosition 7 false) sample) =
     trace sample ++
     [RemoveFromQueue "onCurrentChange";
      Notify (onCurrentChange undefined undefined 7 (-1))]) /\
  (_cursorEnumerator (stateAfter (setCurrent (VItem later) false) sample) =
     _cursorEnumerator sample /\
   outcomeOf getCurrent (stateAfter (setCurrent (VItem later) false) sample) =
     outcomeOf getCurrent sample /\
   outcomeOf getCurrentPosition
     (stateAfter (setCurrent (VItem later) false) sample) =
     outcomeOf getCurrentPosition sample /\
   trace (stateAfter (setCurrent (VItem later) false) sample) =
     trace sample ++
     [RemoveFromQueue "onCurrentChange";
      Notify (onCurrentChange undefined undefined (-1) (-1))]).
Proof. repeat split; vm_compute; reflexivity. Qed.

(** No identifier has been handed out in the sample projection. *)
Lemma sample_uidConsistent : uidConsistent sample.
Proof. split; intros *; simpl; by rewrite lookup_empty. Qed.

(** The identifiers of two items of the same base identifier, the first
    one asked twice. *)
Lemma getItemUid_unique_witness :
  uidConsistent sample /\
  exists uids,
    outcomeOf (getItemUids [first; second; first]) sample = Return uids /\
    length uids = 3%nat /\
    forall i j item1 item2 uid1 uid2,
      [first; second; first] !! i = Some item1 ->
      [first; second; first] !! j = Some item2 ->
      uids !! i = Some uid1 -> uids !! j = Some uid2 ->
      (uid1 = uid2 <-> instanceId item1 = instanceId item2).
Proof.
  split; [exact sample_uidConsistent|].
  apply (proj2 (getItemUid_unique sample sample_uidConsistent)
           [first; second; first]).
  repeat constructor; eexists; vm_compute; reflexivity.
Defined.

(** A handler is pushed to the array [getSort] returned, and another is
    shifted from it. *)
Lemma getFilter_getSort_return_copies_witness :
  is_Some (heap sample !! _filter sample) /\
  is_Some (heap sample !! _sort sample) /\
  exists l c1 c2,
    getSort sample = (Return l, c1) /\
    forEach [fun handlers => handlers ++ [VFun byTitle]; tail]
      (mutateArray l) c1 = (Return tt, c2) /\
    readArray (_sort c2) c2 = readArray (_sort sample) sample.
Proof.
  assert (is_Some (heap sample !! _filter sample)) as Hfilter
    by (eexists; reflexivity).
  assert (is_Some (heap sample !! _sort sample)) as Hsort
    by (eexists; reflexivity).
  split; [exact Hfilter|]. split; [exact Hsort|].
  destruct (getFilter_getSort_return_copies sample
              [fun handlers => handlers ++ [VFun byTitle]; tail]
              Hfilter Hsort)
    as [_ (l & c1 & c2 & Hrun & _ & _ & _ & _ & Hmutate & _ & _ & Hsame & _)].
  exists l, c1, c2. repeat split; assumption.
Defined.

(** All the items of the sample projection are selected. *)
Lemma selection_change_notifications_witness :
  needNotifyCollectionChange sample = true /\
  exists c',
    setSelectedItemsAll true sample = (Return tt, c') /\
    notifiesReplace sample (view_items (viewOf sample)) true c'.
Proof.
  split; [reflexivity|].
  apply (proj1 (selection_change_notifications sample true eq_refl)).
  exists first. split.
  - apply list_elem_of_In. vm_compute. tauto.
  - vm_compute. discriminate.
Defined.

(** [invertSelectedItemsAll] changes the flag of an item of the sample
    projection, and no packet it notifies has the action [replace]. *)
Lemma invertSelectedItemsAll_emits_reset :
  isSelectedIn (stateAfter invertSelectedItemsAll sample) first
    <> isSelectedIn sample first /\
  Forall (fun n => actionOf n <> Some ACTION_REPLACE)
    (trace (stateAfter invertSelectedItemsAll sample)).
Proof.
  split; [vm_compute; discriminate|].
  vm_compute. repeat constructor; discriminate.
Qed.

(** Two groups of two items are added at the index 5; the headers mark
    the groups, and the two packets are those of the groups. *)
Lemma notifyCollectionChange_splits_by_group_witness :
  needNotifyCollectionChange sample = true /\
  truthy (_group sample) = true /\
  is_Some (Some ([] : Session)) /\
  ACTION_ADD <> ACTION_RESET /\
  headersMarkGroups (groupOf sample) [header; first; headerB; third] = true /\
  _notifyCollectionChange ACTION_ADD [header; first; headerB; third] 5 [] 0
    (Some ([] : Session)) sample =
  (Return tt,
   set_trace
     (trace sample ++
      (packetOfRun ACTION_ADD [header; first; headerB; third] 5 [] 0 <$>
       withOffsets 0
         (runsOfOneGroup (groupOf sample) [header; first; headerB; third])))
     sample).
Proof.
  assert (is_Some (Some ([] : Session))) as Hsession by (eexists; reflexivity).
  assert (ACTION_ADD <> ACTION_RESET) as Haction by discriminate.
  assert (headersMarkGroups (groupOf sample) [header; first; headerB; third]
          = true) as Hmark by (vm_compute; reflexivity).
  repeat (split; [done|]).
  destruct (notifyCollectionChange_splits_by_group sample ACTION_ADD
              [header; first; headerB; third] 5 [] 0 (Some [])
              eq_refl eq_refl Hsession Haction)
    as (Hrun & _ & _ & _ & _ & Hgroups).
  assert (groupRuns [header; first; headerB; third] =
          runsOfOneGroup (groupOf sample) [header; first; headerB; third])
    as Hsame by exact (Hgroups (groupOf sample) Hmark).
  rewrite <- Hsame. exact Hrun.
Defined.

(** The items added at the index 5 are of three groups: [first] is of the
    group A, [second] of no group, [third] of the group B.  They are
    notified in two packets, not in three: [second] goes in the packet of
    the group A.  And with no old items the packet of the group B has the
    index 0 of old items, not the index offset by the place where the
    packet starts. *)
Lemma notifyCollectionChange_splits_at_headers_only :
  runsOfOneGroup (groupOf sample) [header; first; second; headerB; third] =
    [[header; first]; [second]; [headerB; third]] /\
  trace (stateAfter
           (_notifyCollectionChange ACTION_ADD
              [header; first; second; headerB; third] 5 [] 0
              (Some ([] : Session))) sample) =
    trace sample ++
    [NotifyLater
       (onCollectionChange ACTION_ADD [header; first; second] 5 [] 0);
     NotifyLater (onCollectionChange ACTION_ADD [headerB; third] 8 [] 0)] /\
  trace (stateAfter
           (_notifyCollectionChange ACTION_ADD
              [header; first; second; headerB; third] 5 [] 0
              (Some ([] : Session))) sample) <>
    trace sample ++
    (packetOfRunOffsetAlways ACTION_ADD
       [header; first; second; headerB; third] 5 [] 0
       <$> withOffsets 0
             (runsOfOneGroup (groupOf sample)
                [header; first; second; headerB; third])) /\
  trace (stateAfter
           (_notifyCollectionChange ACTION_ADD
              [header; first; second; headerB; third] 5 [] 0
              (Some ([] : Session))) sample) <>
    trace sample ++
    (packetOfRunOffsetAlways ACTION_ADD
       [header; first; second; headerB; third] 5 [] 0
       <$> withOffsets 0 (groupRuns [header; first; second; headerB; third])).
Proof.
  split; [vm_compute; reflexivity|].
  split; [vm_compute; reflexivity|].
  split; vm_compute; discriminate.
Qed.

(** The property [id] of the second item of the source has changed while
    the sort map had its item out of place.  The analysis puts the item
    back: down from the position 0 to the position 1 in the first
    projection, where it is notified as changed; up from the position 2 to
    the position 1 in the second, where it is not. *)
Lemma item_change_packets_witness :
  (exists a c1,
     itemChangeAnalysis (VObj 11) 1 ["id"%string] (shuffled [1; 0; 2]) =
       (Return (Some a), c1) /\
     change_item a = VItem first /\
     NoDup (change_items a) /\
     packsHold (stateAfter _notifyBeforeCollectionChange c1)
       (itemChangeDiff a c1) first /\
     needNotifyCollectionChange c1 = true /\
     js_lt (change_indexBefore a) (change_indexAfter a) = true /\
     exists items i j,
       (NotifyLater (onCollectionChange ACTION_CHANGE items i items j)
          ∈ trace (stateAfter
                     (_notifySourceCollectionItemChange (VObj 11) 1
                        ["id"%string]) (shuffled [1; 0; 2]))) /\
       (first ∈ items)) /\
  (exists a c1,
     itemChangeAnalysis (VObj 11) 1 ["id"%string] (shuffled [0; 2; 1]) =
       (Return (Some a), c1) /\
     change_item a = VItem first /\
     NoDup (change_items a) /\
     packsHold (stateAfter _notifyBeforeCollectionChange c1)
       (itemChangeDiff a c1) first /\
     js_gt (change_indexBefore a) (change_indexAfter a) = true /\
     forall n,
       n ∈ trace (stateAfter
                    (_notifySourceCollectionItemChange (VObj 11) 1
                       ["id"%string]) (shuffled [0; 2; 1])) ->
       first ∉ packetItems n).
Proof.
  split.
  - assert (itemChangeAnalysis (VObj 11) 1 ["id"%string] (shuffled [1; 0; 2])
            = (Return (Some (changeOf 0 1)),
               stateAfter (itemChangeAnalysis (VObj 11) 1 ["id"%string])
                 (shuffled [1; 0; 2]))) as Hrun.
    { apply outcome_state. vm_compute. reflexivity. }
    set (c1 := stateAfter (itemChangeAnalysis (VObj 11) 1 ["id"%string])
                 (shuffled [1; 0; 2])) in *.
    assert (NoDup (change_items (changeOf 0 1))) as Hnodup.
    { apply (bool_decide_unpack _). vm_compute. exact I. }
    assert (packsHold (stateAfter _notifyBeforeCollectionChange c1)
              (itemChangeDiff (changeOf 0 1) c1) first) as Hpacks.
    { unfold packsHold.
      replace (itemChangeDiff (changeOf 0 1) c1) with [VItem first]
        by (vm_compute; reflexivity).
      replace (extractPacksByList _ [VItem first]) with [([first], 1)]
        by (vm_compute; reflexivity).
      split.
      - intros _. exists [first], 1. split; by apply list_elem_of_singleton.
      - intros _. by apply list_elem_of_singleton. }
    assert (needNotifyCollectionChange c1 = true) as Hneed
      by (vm_compute; reflexivity).
    exists (changeOf 0 1), c1.
    split; [exact Hrun|]. split; [reflexivity|]. split; [exact Hnodup|].
    split; [exact Hpacks|]. split; [exact Hneed|]. split; [reflexivity|].
    destruct (item_change_packets (VObj 11) 1 ["id"%string]
                (shuffled [1; 0; 2]) c1 (changeOf 0 1) first Hrun eq_refl
                Hnodup Hpacks)
      as (emitted & c' & Hcall & Htrace & _ & Hin).
    destruct (Hin Hneed (or_introl eq_refl)) as (items & i & j & Hn & Hx).
    exists items, i, j. split; [|exact Hx].
    rewrite (stateAfter_run _ _ _ _ Hcall), Htrace.
    apply elem_of_app. by right.
  - assert (itemChangeAnalysis (VObj 11) 1 ["id"%string] (shuffled [0; 2; 1])
            = (Return (Some (changeOf 2 1)),
               stateAfter (itemChangeAnalysis (VObj 11) 1 ["id"%string])
                 (shuffled [0; 2; 1]))) as Hrun.
    { apply outcome_state. vm_compute. reflexivity. }
    set (c1 := stateAfter (itemChangeAnalysis (VObj 11) 1 ["id"%string])
                 (shuffled [0; 2; 1])) in *.
    assert (NoDup (change_items (changeOf 2 1))) as Hnodup.
    { apply (bool_decide_unpack _). vm_compute. exact I. }
    assert (packsHold (stateAfter _notifyBeforeCollectionChange c1)
              (itemChangeDiff (changeOf 2 1) c1) first) as Hpacks.
    { unfold packsHold.
      replace (itemChangeDiff (changeOf 2 1) c1) with ([] : list Val)
        by (vm_compute; reflexivity).
      replace (extractPacksByList _ [])
        with ([] : list (list CollectionItem * Z))
        by (vm_compute; reflexivity).
      split.
      - by intros ?%elem_of_nil.
      - by intros (pack & i & ?%elem_of_nil & _). }
    assert (trace c1 = []) as Hquiet by (vm_compute; reflexivity).
    exists (changeOf 2 1), c1.
    split; [exact Hrun|]. split; [reflexivity|]. split; [exact Hnodup|].
    split; [exact Hpacks|]. split; [reflexivity|].
    destruct (item_change_packets (VObj 11) 1 ["id"%string]
                (shuffled [0; 2; 1]) c1 (changeOf 2 1) first Hrun eq_refl
                Hnodup Hpacks)
      as (emitted & c' & Hcall & Htrace & Hout & _).
    intros n Hn. apply (Hout eq_refl n).
    rewrite (stateAfter_run _ _ _ _ Hcall), Htrace, Hquiet in Hn. exact Hn.
Defined.

(** * The upkeep of the projections of three items *)

(** The session of the small configuration notifies nothing, and its
    strategy counts its items. *)
Lemma simple_sessionNotifies :
  sessionNotifies (Composer := Composer) (Enumerator := Enumerator)
    (Session := Session).
Proof.
  intros session analize c. exists []. simpl. rewrite app_nil_r.
  by destruct c.
Qed.

Lemma simple_strategyCounts : strategyCounts (Composer := Composer).
Proof. by intros composer. Qed.

(** The index 1 is taken out of the sort map 2, 0, 1: the index 2 becomes
    the index 1. *)
Lemma removeFromSortMap_cuts_range_witness :
  NoDup (_sortMap (shuffled [2; 0; 1])) /\
  _sortMap (stateAfter (_removeFromSortMap (Some 1) (Some 1))
              (shuffled [2; 0; 1])) = [1; 0].
Proof.
  assert (NoDup (_sortMap (shuffled [2; 0; 1]))) as Hnodup.
  { apply (bool_decide_unpack _). vm_compute. exact I. }
  split; [exact Hnodup|].
  destruct (removeFromSortMap_cuts_range 1 1 (shuffled [2; 0; 1]) Hnodup)
    as (removed & _ & Hsort & _).
  rewrite Hsort. vm_compute. reflexivity.
Defined.

Lemma removeFromSortMap_keeps_permutation_witness :
  _sortMap (shuffled [2; 0; 1]) ≡ₚ seqZ 0 3 /\
  0 <= 1 /\ 0 <= 1 /\ 1 + 1 <= 3 /\
  _sortMap (stateAfter (_removeFromSortMap (Some 1) (Some 1))
              (shuffled [2; 0; 1])) ≡ₚ seqZ 0 (3 - 1).
Proof.
  assert (_sortMap (shuffled [2; 0; 1]) ≡ₚ seqZ 0 3) as Hsort.
  { apply (bool_decide_unpack _). vm_compute. exact I. }
  split; [exact Hsort|]. split; [lia|]. split; [lia|]. split; [lia|].
  apply (removeFromSortMap_keeps_permutation 1 1 3 (shuffled [2; 0; 1]) Hsort);
    lia.
Defined.

(** The filter of the projection [hidden] accepts every item: the item at
    the index 1, which was not shown, is shown after [_reFilter]. *)
Lemma reFilter_applies_filters_witness :
  0 <= 0 /\
  Forall (fun filter => isFunction filter = true)
    (readArray (_filter hidden) hidden) /\
  NoDup (_sortMap hidden) /\
  (forall index,
     index ∈ _sortMap hidden -> inRange 0 3 index = true ->
     is_Some (arrayGet [header; first; second] index)) /\
  filterMapGet (_filterMap hidden) 1 = Some false /\
  filterMapGet (_filterMap (stateAfter (_reFilter (Some 0) None) hidden)) 1 =
    Some true.
Proof.
  assert (Forall (fun filter => isFunction filter = true)
            (readArray (_filter hidden) hidden)) as Hfilters.
  { vm_compute. repeat constructor. }
  assert (NoDup (_sortMap hidden)) as Hnodup.
  { apply (bool_decide_unpack _). vm_compute. exact I. }
  assert (forall index,
            index ∈ _sortMap hidden -> inRange 0 3 index = true ->
            is_Some (arrayGet [header; first; second] index)) as Hitems.
  { intros index Hindex _. change (_sortMap hidden) with [0; 1; 2] in Hindex.
    apply elem_of_cons in Hindex as [->|Hindex]; [by eexists|].
    apply elem_of_cons in Hindex as [->|Hindex]; [by eexists|].
    apply list_elem_of_singleton in Hindex as ->. by eexists. }
  split; [lia|]. split; [exact Hfilters|]. split; [exact Hnodup|].
  split; [exact Hitems|]. split; [reflexivity|].
  pose proof (reFilter_applies_filters 0 None hidden) as Hfiltered.
  destruct (Hfiltered (Z.le_refl 0) Hfilters Hnodup Hitems)
    as (c' & Hrun & _ & Hin & _).
  rewrite (stateAfter_run _ _ _ _ Hrun).
  rewrite (Hin 1 1%nat first); [|reflexivity|reflexivity|reflexivity].
  vm_compute. reflexivity.
Defined.

(** The change deferred in the projection [deferred] is replayed, and the
    queue is empty afterwards. *)
Lemma onEventRaisingChange_replays_in_order_witness :
  sessionNotifies (Composer := Composer) (Enumerator := Enumerator)
    (Session := Session) /\
  _sourceCollectionDelayedCallbacks deferred =
    Some [(VObj 11, 1, ["id"%string])] /\
  _sourceCollectionDelayedCallbacks
    (stateAfter (onEventRaisingChange true true) deferred) = Some [].
Proof.
  split; [exact simple_sessionNotifies|]. split; [reflexivity|].
  pose proof (onEventRaisingChange_replays_in_order true
                [(VObj 11, 1, ["id"%string])] deferred
                simple_sessionNotifies eq_refl) as (_ & _ & Hqueue).
  apply Hqueue. exists tt. vm_compute. reflexivity.
Defined.

(** A filter is added to the sample projection, which has none. *)
Lemma addFilter_stores_handler_witness :
  sessionNotifies (Composer := Composer) (Enumerator := Enumerator)
    (Session := Session) /\
  is_Some (heap sample !! _filter sample) /\
  readArray (_filter (stateAfter (addFilter (VFun byTitle) None) sample))
    (stateAfter (addFilter (VFun byTitle) None) sample) = [VFun byTitle].
Proof.
  assert (is_Some (heap sample !! _filter sample)) as Harray
    by (eexists; reflexivity).
  split; [exact simple_sessionNotifies|]. split; [exact Harray|].
  pose proof (addFilter_stores_handler (VFun byTitle) None sample
                simple_sessionNotifies Harray) as (_ & Hstored & _).
  rewrite Hstored. vm_compute. reflexivity.
Defined.

(** The filter of the projection [hidden] is removed. *)
Lemma removeFilter_removes_handler_witness :
  sessionNotifies (Composer := Composer) (Enumerator := Enumerator)
    (Session := Session) /\
  is_Some (heap hidden !! _filter hidden) /\
  readArray (_filter (stateAfter (removeFilter (VFun byTitle)) hidden))
    (stateAfter (removeFilter (VFun byTitle)) hidden) = [].
Proof.
  assert (is_Some (heap hidden !! _filter hidden)) as Harray
    by (eexists; reflexivity).
  split; [exact simple_sessionNotifies|]. split; [exact Harray|].
  pose proof (removeFilter_removes_handler (VFun byTitle) hidden
                simple_sessionNotifies Harray) as (_ & Hremoved & _ & _).
  rewrite Hremoved. vm_compute. reflexivity.
Defined.

(** A filter is added to the sample projection at the position 5, and
    removed. *)
Lemma addFilter_removeFilter_round_trip_witness :
  sessionNotifies (Composer := Composer) (Enumerator := Enumerator)
    (Session := Session) /\
  is_Some (heap sample !! _filter sample) /\
  (VFun byTitle ∉ readArray (_filter sample) sample) /\
  readArray
    (_filter (stateAfter (removeFilter (VFun byTitle))
                (stateAfter (addFilter (VFun byTitle) (Some 5)) sample)))
    (stateAfter (removeFilter (VFun byTitle))
       (stateAfter (addFilter (VFun byTitle) (Some 5)) sample)) =
  readArray (_filter sample) sample.
Proof.
  assert (is_Some (heap sample !! _filter sample)) as Harray
    by (eexists; reflexivity).
  assert (VFun byTitle ∉ readArray (_filter sample) sample) as Habsent.
  { change (readArray (_filter sample) sample) with ([] : list Val).
    apply not_elem_of_nil. }
  split; [exact simple_sessionNotifies|]. split; [exact Harray|].
  split; [exact Habsent|].
  exact (proj2 (addFilter_removeFilter_round_trip (VFun byTitle) (Some 5)
                  sample simple_sessionNotifies Harray Habsent)).
Defined.

(** A functor that depends on [id] is added to the sorts of the sample
    projection. *)
Lemma addSort_switches_important_properties_witness :
  sessionNotifies (Composer := Composer) (Enumerator := Enumerator)
    (Session := Session) /\
  NoDup (_importantItemProperties sample) /\
  is_Some (heap sample !! _sort sample) /\
  (VFun byId ∉ readArray (_sort sample) sample) /\
  readArray (_sort (stateAfter (addSort (VFun byId) None) sample))
    (stateAfter (addSort (VFun byId) None) sample) =
    [VFun byTitle; VFun byId] /\
  "id"%string
    ∈ _importantItemProperties
        (stateAfter (addSort (VFun byId) None) sample).
Proof.
  assert (NoDup (_importantItemProperties sample)) as Hnodup.
  { apply (bool_decide_unpack _). vm_compute. exact I. }
  assert (is_Some (heap sample !! _sort sample)) as Harray
    by (eexists; reflexivity).
  assert (VFun byId ∉ readArray (_sort sample) sample) as Habsent.
  { change (readArray (_sort sample) sample) with [VFun byTitle].
    intros Hin%list_elem_of_singleton. discriminate Hin. }
  split; [exact simple_sessionNotifies|]. split; [exact Hnodup|].
  split; [exact Harray|]. split; [exact Habsent|].
  pose proof (addSort_switches_important_properties (VFun byId) None sample
                simple_sessionNotifies Hnodup Harray Habsent)
    as (_ & Hadded & _ & Himportant).
  split; [exact Hadded|].
  apply Himportant. right. apply list_elem_of_In. vm_compute. tauto.
Defined.

(** The functor is removed from the sorts of the projection sorted by it:
    [id], which was important before the functor named it, is not
    important any more. *)
Lemma removeSort_switches_important_properties_witness :
  sessionNotifies (Composer := Composer) (Enumerator := Enumerator)
    (Session := Session) /\
  NoDup (_importantItemProperties sortedById) /\
  is_Some (heap sortedById !! _sort sortedById) /\
  (VFun byId ∈ readArray (_sort sortedById) sortedById) /\
  ("id"%string ∈ _importantItemProperties sortedById) /\
  "id"%string
    ∉ _importantItemProperties
        (stateAfter (removeSort (VFun byId)) sortedById).
Proof.
  assert (NoDup (_importantItemProperties sortedById)) as Hnodup.
  { apply (bool_decide_unpack _). vm_compute. exact I. }
  assert (is_Some (heap sortedById !! _sort sortedById)) as Harray
    by (eexists; reflexivity).
  assert (VFun byId ∈ readArray (_sort sortedById) sortedById) as Hpresent.
  { change (readArray (_sort sortedById) sortedById) with [VFun byId].
    by apply list_elem_of_singleton. }
  split; [exact simple_sessionNotifies|]. split; [exact Hnodup|].
  split; [exact Harray|]. split; [exact Hpresent|].
  split; [apply list_elem_of_In; vm_compute; tauto|].
  pose proof (removeSort_switches_important_properties (VFun byId) sortedById
                simple_sessionNotifies Hnodup Harray Hpresent)
    as (_ & _ & _ & Himportant & _).
  intros Hid. apply Himportant in Hid as [[_ Hnot]|Hleft].
  - apply Hnot. apply list_elem_of_In. vm_compute. tauto.
  - apply list_elem_of_In in Hleft. vm_compute in Hleft. exact Hleft.
Defined.

(** The sample projection has three items and one group, [A]. *)
Lemma getGroupByIndex_out_of_range_witness :
  ~ (0 <= 7 <
     Z.of_nat
       (length (fst <$> enumerator_each (viewOf sample) enumerator_new))) /\
  outcomeOf (getGroupByIndex 7) sample = Return (Scalar (PStr "A")).
Proof.
  assert (~ (0 <= 7 <
             Z.of_nat
               (length
                  (fst <$> enumerator_each (viewOf sample) enumerator_new))))
    as Houtside.
  { change (length
              (fst <$> enumerator_each (viewOf sample) enumerator_new))
      with 3%nat. lia. }
  split; [exact Houtside|].
  pose proof (getGroupByIndex_out_of_range 7 sample) as Hlast.
  rewrite (Hlast Houtside). vm_compute. reflexivity.
Defined.

(** The item at the index 1 is removed from the sample projection. *)
Lemma removeItems_keeps_maps_in_step_witness :
  _sortMap sample ≡ₚ seqZ 0 3 /\
  length (_filterMap sample) = Z.to_nat 3 /\
  0 <= 1 /\ 0 <= 1 /\ 1 + 1 <= 3 /\
  exists c',
    _removeItems (Some 1) (Some 1) sample = (Return ([first], 1), c') /\
    _composer c' = Some [header; second] /\
    _filterMap c' = [Some true; Some true] /\
    length (_filterMap c') = 2%nat /\
    _sortMap c' ≡ₚ seqZ 0 2.
Proof.
  assert (_sortMap sample ≡ₚ seqZ 0 3) as Hsort by reflexivity.
  split; [exact Hsort|]. split; [reflexivity|].
  split; [lia|]. split; [lia|]. split; [lia|].
  pose proof (removeItems_keeps_maps_in_step 1 (Some 1) 3 sample) as Hremoved.
  apply Hremoved; [exact Hsort|reflexivity|by vm_compute
                  |lia|by vm_compute].
Defined.

(** An item is added to the sample projection at the index 1: the index 1
    is twice in the sort map. *)
Lemma addItems_splices_maps_witness :
  0 <= 1 /\
  1 <= Z.of_nat (length (_filterMap sample)) /\
  1 <= Z.of_nat (length (_sortMap sample)) /\
  exists c',
    _addItems 1 [VItem later] sample = (Return 1, c') /\
    _composer c' = Some [header; later; first; second] /\
    _filterMap c' = [Some true; Some true; Some true; Some true] /\
    _sortMap c' = [0; 1; 1; 2] /\
    ~ NoDup (_sortMap c').
Proof.
  split; [lia|]. split; [by vm_compute|].
  split; [by vm_compute|].
  pose proof (addItems_splices_maps 1 [VItem later] sample) as Hadded.
  destruct Hadded as (c' & Hrun & Hcomposer & HfilterMap & HsortMap & Htwice).
  - by vm_compute.
  - by vm_compute.
  - by vm_compute.
  - exists c'. split; [exact Hrun|]. split; [exact Hcomposer|].
    split; [exact HfilterMap|]. split; [exact HsortMap|].
    apply (Htwice 1).
    + by vm_compute.
    + apply list_elem_of_In. vm_compute. tauto.
Defined.

(** The projection [hidden] is rebuilt: its filter accepts every item. *)
Lemma reBuild_shows_accepted_items_witness :
  result_count (group_invalidate [header; first; second]) = 3 /\
  Forall (fun filter => isFunction filter = true)
    (readArray (_filter hidden) hidden) /\
  exists c',
    _reBuild false hidden = (Return tt, c') /\
    _sortMap c' = [0; 1; 2] /\
    filterMapGet (_filterMap c') 1 = Some true /\
    trace c' = trace hidden.
Proof.
  assert (Forall (fun filter => isFunction filter = true)
            (readArray (_filter hidden) hidden)) as Hfilters.
  { vm_compute. repeat constructor. }
  split; [reflexivity|]. split; [exact Hfilters|].
  pose proof (reBuild_shows_accepted_items false hidden) as Hrebuilt.
  destruct (Hrebuilt eq_refl Hfilters)
    as (c' & Hrun & _ & Hsort & Hin & _ & Htrace).
  exists c'. split; [exact Hrun|]. split; [exact Hsort|].
  split; [|exact Htrace].
  etrans; [exact (Hin 1%nat first eq_refl)|]. vm_compute. reflexivity.
Defined.

(** A change of the second item of the projection without a group is
    reported. *)
Lemma notifyItemChange_on_plain_projection_witness :
  readArray (_filter ungrouped) ungrouped = [] /\
  truthy (_group ungrouped) = false /\
  trace (stateAfter (notifyItemChange first) ungrouped) =
    [NotifyLater onBeforeCollectionChange;
     NotifyLater (onCollectionChange ACTION_CHANGE [first] 1 [first] 1);
     Notify onAfterCollectionChange].
Proof.
  split; [reflexivity|]. split; [reflexivity|].
  pose proof (notifyItemChange_on_plain_projection first ungrouped eq_refl
                eq_refl) as Hrun.
  rewrite (stateAfter_run _ _ _ _ Hrun). vm_compute. reflexivity.
Defined.

(** An item is added at the end of the source of the projection [hidden]. *)
Lemma handleCollectionChange_shows_accepted_items_witness :
  sessionNotifies (Composer := Composer) (Enumerator := Enumerator)
    (Session := Session) /\
  strategyCounts (Composer := Composer) /\
  is_Some (_composer hidden) /\
  Forall (fun filter => isFunction filter = true)
    (readArray (_filter hidden) hidden) /\
  (ACTION_ADD = ACTION_REMOVE ->
   existsb _isFilterUseIndex (readArray (_filter hidden) hidden) = true) /\
  exists c',
    handleCollectionChange ACTION_ADD [VItem later] 3 [] 0 hidden =
      (Return tt, c') /\
    showsAccepted (readArray (_filter hidden) hidden) c' /\
    readArray (_filter c') c' = readArray (_filter hidden) hidden.
Proof.
  assert (is_Some (_composer hidden)) as Hcomposer by (eexists; reflexivity).
  assert (Forall (fun filter => isFunction filter = true)
            (readArray (_filter hidden) hidden)) as Hfilters.
  { vm_compute. repeat constructor. }
  assert (ACTION_ADD = ACTION_REMOVE ->
          existsb _isFilterUseIndex (readArray (_filter hidden) hidden) = true)
    as Haction by discriminate.
  split; [exact simple_sessionNotifies|]. split; [exact simple_strategyCounts|].
  split; [exact Hcomposer|]. split; [exact Hfilters|]. split; [exact Haction|].
  exact (handleCollectionChange_shows_accepted_items ACTION_ADD [VItem later]
           3 [] 0 hidden simple_sessionNotifies simple_strategyCounts
           Hcomposer Hfilters Haction).
Defined.

(** The source of the sample projection is reset. *)
Lemma handleCollectionChange_reset_notifies_witness :
  strategyCounts (Composer := Composer) /\
  Forall (fun filter => isFunction filter = true)
    (readArray (_filter sample) sample) /\
  trace (stateAfter (handleCollectionChange ACTION_RESET [] 0 [] 0) sample) =
    [NotifyLater onBeforeCollectionChange;
     NotifyLater (onCollectionChange ACTION_RESET [] 0
                    [header; first; second] 0);
     Notify onAfterCollectionChange].
Proof.
  assert (Forall (fun filter => isFunction filter = true)
            (readArray (_filter sample) sample)) as Hfilters.
  { vm_compute. constructor. }
  split; [exact simple_strategyCounts|]. split; [exact Hfilters|].
  destruct (handleCollectionChange_reset_notifies [] 0 [] 0 sample
              simple_strategyCounts Hfilters)
    as (rebuilt & Hrebuilt & Hrun).
  rewrite (stateAfter_run _ _ _ _ Hrun).
  assert (rebuilt = stateAfter (_reBuild true) sample) as ->.
  { symmetry. exact (stateAfter_run _ _ _ _ Hrebuilt). }
  vm_compute. reflexivity.
Defined.

(** The second item of the source of the sample projection is removed. *)
Lemma handleCollectionChange_remove_keeps_flags_witness :
  sessionNotifies (Composer := Composer) (Enumerator := Enumerator)
    (Session := Session) /\
  _composer sample = Some [header; first; second] /\
  existsb _isFilterUseIndex (readArray (_filter sample) sample) = false /\
  0 <= 1 /\
  1 + 1 <= Z.of_nat (length (_filterMap sample)) /\
  exists c',
    handleCollectionChange ACTION_REMOVE [] 0 [VObj 11] 1 sample =
      (Return tt, c') /\
    _composer c' = Some [header; second] /\
    _sortMap c' = [0; 1] /\
    _filterMap c' = [Some true; Some true].
Proof.
  split; [exact simple_sessionNotifies|]. split; [reflexivity|].
  split; [reflexivity|]. split; [lia|]. split; [by vm_compute|].
  pose proof (handleCollectionChange_remove_keeps_flags [] 0 [VObj 11] 1
                [header; first; second] sample simple_sessionNotifies eq_refl
                eq_refl) as Hremoved.
  apply Hremoved; by vm_compute.
Defined.
